(** * nFlC container / LZO1X decoder: a shallow embedding of nflc_tool.cpp

    The development follows the three layers of the tool:
    - [LZO1X]  : [LZO1XDecompressor::decompress], as a labelled step machine
                 over bounds-instrumented source and destination buffers;
    - [NFlC]   : [NFlCFile::parseChunks] and the three reconstruction
                 strategies with their cascade [NFlCFile::decompress].

    Machine integers are [Z] with the wrap-around written out:
    [uint32_t] through [wrap32], [size_t] (64 bit) through [wrap64].
    Bytes are [Byte.byte]; buffers are [list byte]. *)

From Stdlib Require Import ZArith List Lia Bool Sorted.
From Stdlib.Strings Require Import Byte.
Import ListNotations.
Local Open Scope Z_scope.

(** ** Machine integers and bytes *)

Definition u8 (b : byte) : Z := Z.of_N (Byte.to_N b).

Definition wrap32 (x : Z) : Z := x mod 4294967296.
Definition wrap64 (x : Z) : Z := x mod 18446744073709551616.

Lemma u8_range (b : byte) : 0 <= u8 b < 256.
Proof.
  destruct b; vm_compute; split; congruence.
Qed.

(** ** The LZO1X decoder *)

Module LZO1X.

(** [enum class Result] *)
Inductive Result : Type :=
| OK
| INPUT_OVERRUN
| OUTPUT_OVERRUN
| LOOKBEHIND_OVERRUN
| INVALID_DATA
| ERROR.

(** What a bounds-instrumented buffer reports: an access the C++ code
    performs outside [src, src+srcLen) or [dst, dst+maxDstLen). *)
Inductive fault : Type :=
| SrcReadOutOfBounds
| DstWriteOutOfBounds
| DstReadOutOfBounds.

(** How a call ends.  [Returned r n w]: the function returned [r], [*dstLen]
    holds [n] and [w] is the prefix of [dst] written so far.  [Faulted f]: the
    code performed the out-of-bounds access [f] (undefined behaviour in C++).
    [Exhausted] only marks a run cut short by the fuel of [run]; Theorem
    [decompress_completes] shows that [decompress] never ends so. *)
Inductive outcome : Type :=
| Returned (r : Result) (dstLen : nat) (written : list byte)
| Faulted (f : fault)
| Exhausted.

(** Computations that either go on with a value or end the call. *)
Inductive exec (A : Type) : Type :=
| Ok (a : A)
| Stop (o : outcome).
Arguments Ok {A} a.
Arguments Stop {A} o.

Definition bind {A B : Type} (m : exec A) (k : A -> exec B) : exec B :=
  match m with
  | Ok a => k a
  | Stop o => Stop o
  end.

Notation "x <- m ;; k" := (bind m (fun x => k))
  (at level 61, m at next level, right associativity).
Notation "' p <- m ;; k" := (bind m (fun x => match x with p => k end))
  (at level 61, p pattern, m at next level, right associativity).

(** A computation that goes on, or returns [OK]: what carries over when
    bytes are appended to the input or capacity to the destination. *)
Definition carries_over {A : Type} (x : exec A) : Prop :=
  (exists a, x = Ok a) \/ (exists n w, x = Stop (Returned OK n w)).

(** Control points of [decompress]: the entry, the top of the outer
    [while (true)] (with the current [t]), the labels [first_literal_run],
    [match_done], [match_next], and the top of the inner [while (true)]. *)
Inductive label : Type :=
| L_start
| L_top (t : Z)
| L_first_literal_run
| L_match (t : Z)
| L_match_done
| L_match_next (t : Z).

(** [ip] is the read cursor as an offset from [src]; [out] is the part of
    [dst] written so far, so the write cursor [op - dst] is [length out]. *)
Record state : Type := mkState { pc : label; ip : nat; out : list byte }.

Section Decoder.

Variable src : list byte.
Variable maxDstLen : Z.

Definition srcLen : Z := Z.of_nat (length src).
Definition op (o : list byte) : Z := Z.of_nat (length o).

Definition fail {A : Type} (r : Result) (o : list byte) : exec A :=
  Stop (Returned r 0%nat o).

(** [*ip] at offset [i], [dst[i]], and [*op++ = b], each instrumented. *)
Definition read_src (i : nat) : exec byte :=
  match nth_error src i with
  | Some b => Ok b
  | None => Stop (Faulted SrcReadOutOfBounds)
  end.

Definition read_dst (o : list byte) (i : nat) : exec byte :=
  match nth_error o i with
  | Some b => Ok b
  | None => Stop (Faulted DstReadOutOfBounds)
  end.

Definition write_dst (o : list byte) (b : byte) : exec (list byte) :=
  if op o <? maxDstLen then Ok (o ++ [b])
  else Stop (Faulted DstWriteOutOfBounds).

(** [while ( *ip == 0) { acc += 255; ip++; if (ip >= ipEnd) return INPUT_OVERRUN; }]
    [rest] is the unread suffix [src[i..]]; the loop condition reads [*ip]
    with no check of its own. *)
Fixpoint zero_run (wrap : Z -> Z) (rest : list byte) (i : nat) (acc : Z)
    (o : list byte) : exec (Z * nat) :=
  match rest with
  | [] => Stop (Faulted SrcReadOutOfBounds)
  | b :: rest' =>
      if u8 b =? 0 then
        if srcLen <=? Z.of_nat (S i) then fail INPUT_OVERRUN o
        else zero_run wrap rest' (S i) (wrap (acc + 255)) o
      else Ok (acc, i)
  end.

(** [if (len == 0) { <zero_run>; len += bias + *ip++; }] *)
Definition extended_length (wrap : Z -> Z) (bias low : Z) (i : nat)
    (o : list byte) : exec (Z * nat) :=
  if low =? 0 then
    '(acc, j) <- zero_run wrap (skipn i src) i 0 o ;;
    b <- read_src j ;;
    Ok (wrap (acc + (bias + u8 b)), S j)
  else Ok (low, i).

(** [do { *op++ = *ip++; } while (--t > 0);] with [t] a [uint32_t]. *)
Fixpoint lit_copy (rest : list byte) (t : Z) (i : nat) (o : list byte)
    : exec (nat * list byte) :=
  match rest with
  | [] => Stop (Faulted SrcReadOutOfBounds)
  | b :: rest' =>
      o' <- write_dst o b ;;
      let t' := wrap32 (t - 1) in
      if 0 <? t' then lit_copy rest' t' (S i) o' else Ok (S i, o')
  end.

(** Number of iterations of [do { ... } while (--n > 0)] on a [size_t]. *)
Definition do_while_count (n : Z) : nat :=
  Z.to_nat (if n =? 0 then 18446744073709551616 else n).

(** [do { *op++ = *mSrc++; } while (--mLen > 0);] byte by byte, so that a
    match may read what the same copy has just written. *)
Fixpoint match_copy (n : nat) (mSrc : nat) (o : list byte)
    : exec (list byte) :=
  match n with
  | O => Ok o
  | S n' =>
      b <- read_dst o mSrc ;;
      o' <- write_dst o b ;;
      match_copy n' (S mSrc) o'
  end.

(** [*op++ = *ip++;] *)
Definition lit1 (i : nat) (o : list byte) : exec (nat * list byte) :=
  b <- read_src i ;;
  o' <- write_dst o b ;;
  Ok (S i, o').

(** The four match encodings of the inner loop: each resolves the match to
    [(mPos, mLen, ip')], or ends the call.  [t] is the control byte. *)

(** [t >= 64] *)
Definition resolve_M2 (t : Z) (i : nat) (o : list byte)
    : exec (Z * Z * nat) :=
  let mPos := wrap64 (op o - 1) in
  let mPos := wrap64 (mPos - Z.land (Z.shiftr t 2) 7) in
  if srcLen <=? Z.of_nat i then fail INPUT_OVERRUN o else
  b <- read_src i ;;
  let mPos := wrap64 (mPos - Z.shiftl (u8 b) 3) in
  let mLen := wrap64 (wrap32 (wrap32 (Z.shiftr t 5 - 1) + 3)) in
  Ok (mPos, mLen, S i).

(** [t >= 32] *)
Definition resolve_M3 (t : Z) (i : nat) (o : list byte)
    : exec (Z * Z * nat) :=
  '(mLen, i1) <- extended_length wrap64 31 (Z.land t 31) i o ;;
  let mLen := wrap64 (mLen + 2) in
  if srcLen <? Z.of_nat i1 + 2 then fail INPUT_OVERRUN o else
  let mPos := wrap64 (op o - 1) in
  b0 <- read_src i1 ;;
  b1 <- read_src (S i1) ;;
  let mPos := wrap64 (mPos - (Z.shiftr (u8 b0) 2 + Z.shiftl (u8 b1) 6)) in
  Ok (mPos, mLen, S (S i1)).

(** [t >= 16]; the end-of-stream marker returns [OK] from here. *)
Definition resolve_M4 (t : Z) (i : nat) (o : list byte)
    : exec (Z * Z * nat) :=
  let mPos := op o in
  let mPos := wrap64 (mPos - Z.shiftl (Z.land t 8) 11) in
  '(mLen, i1) <- extended_length wrap64 7 (Z.land t 7) i o ;;
  let mLen := wrap64 (mLen + 2) in
  if srcLen <? Z.of_nat i1 + 2 then fail INPUT_OVERRUN o else
  b0 <- read_src i1 ;;
  b1 <- read_src (S i1) ;;
  let mPos := wrap64 (mPos - (Z.shiftr (u8 b0) 2 + Z.shiftl (u8 b1) 6)) in
  if mPos =? op o then Stop (Returned OK (length o) o)
  else Ok (wrap64 (mPos - 16384), mLen, S (S i1)).

(** [t < 16] inside the match loop: a two byte match. *)
Definition resolve_M1 (t : Z) (i : nat) (o : list byte)
    : exec (Z * Z * nat) :=
  let mPos := wrap64 (op o - 1) in
  let mPos := wrap64 (mPos - Z.shiftr t 2) in
  if srcLen <=? Z.of_nat i then fail INPUT_OVERRUN o else
  b <- read_src i ;;
  let mPos := wrap64 (mPos - Z.shiftl (u8 b) 2) in
  Ok (mPos, 2, S i).

(** [t < 16] right after a literal run: a three byte match 0x800 further
    back. *)
Definition resolve_M1_direct (t : Z) (i : nat) (o : list byte)
    : exec (Z * Z * nat) :=
  let mPos := wrap64 (wrap64 (op o - 1) - 2048) in
  let mPos := wrap64 (mPos - Z.shiftr t 2) in
  if srcLen <=? Z.of_nat i then fail INPUT_OVERRUN o else
  b <- read_src i ;;
  let mPos := wrap64 (mPos - Z.shiftl (u8 b) 2) in
  Ok (mPos, 3, S i).

Definition resolve_match (t : Z) (i : nat) (o : list byte)
    : exec (Z * Z * nat) :=
  if 64 <=? t then resolve_M2 t i o
  else if 32 <=? t then resolve_M3 t i o
  else if 16 <=? t then resolve_M4 t i o
  else resolve_M1 t i o.

(** Validation and copy, the same in every encoding (unrolled in the source
    for the two short ones):
    [if (mPos >= op - dst) return LOOKBEHIND_OVERRUN;]
    [if (op + mLen > opEnd) return OUTPUT_OVERRUN;] then the copy, then
    [match_done]. *)
Definition commit_match (m : Z * Z * nat) (o : list byte) : exec state :=
  let '(mPos, mLen, i') := m in
  if op o <=? mPos then fail LOOKBEHIND_OVERRUN o else
  if maxDstLen <? op o + mLen then fail OUTPUT_OVERRUN o else
  o' <- match_copy (do_while_count mLen) (Z.to_nat mPos) o ;;
  Ok (mkState L_match_done i' o').

(** A checked literal run of [t] bytes followed by [first_literal_run]. *)
Definition literal_run (t : Z) (i : nat) (o : list byte) : exec state :=
  if maxDstLen <? op o + t then fail OUTPUT_OVERRUN o else
  if srcLen <? Z.of_nat i + t then fail INPUT_OVERRUN o else
  '(i', o') <- lit_copy (skipn i src) t i o ;;
  Ok (mkState L_first_literal_run i' o').

Definition step (s : state) : exec state :=
  let i := ip s in
  let o := out s in
  match pc s with
  | L_start =>
      if srcLen =? 0 then Stop (Returned INVALID_DATA 0%nat o) else
      if srcLen <=? Z.of_nat i then fail INPUT_OVERRUN o else
      b <- read_src i ;;
      let t := u8 b in
      if 17 <? t then
        let t := wrap32 (t - 17) in
        if t <? 4 then Ok (mkState (L_match_next t) (S i) o)
        else literal_run t (S i) o
      else Ok (mkState (L_top t) (S i) o)
  | L_top t =>
      if t <? 16 then
        '(t, i1) <- extended_length wrap32 15 t i o ;;
        literal_run (wrap32 (t + 3)) i1 o
      else Ok (mkState (L_match t) i o)
  | L_first_literal_run =>
      if srcLen <=? Z.of_nat i then fail INPUT_OVERRUN o else
      b <- read_src i ;;
      let t := u8 b in
      if t <? 16 then
        m <- resolve_M1_direct t (S i) o ;;
        commit_match m o
      else Ok (mkState (L_match t) (S i) o)
  | L_match t =>
      m <- resolve_match t i o ;;
      commit_match m o
  | L_match_done =>
      (* t = ip[-2] & 3; if (t == 0) break; *)
      if (i <? 2)%nat then Stop (Faulted SrcReadOutOfBounds) else
      b <- read_src (i - 2) ;;
      let t := Z.land (u8 b) 3 in
      if t =? 0 then Ok (mkState (L_top t) i o)
      else Ok (mkState (L_match_next t) i o)
  | L_match_next t =>
      if maxDstLen <? op o + t then fail OUTPUT_OVERRUN o else
      if srcLen <? Z.of_nat i + t then fail INPUT_OVERRUN o else
      '(i1, o1) <- lit1 i o ;;
      '(i2, o2) <- (if 1 <? t then
                      '(i2, o2) <- lit1 i1 o1 ;;
                      if 2 <? t then lit1 i2 o2 else Ok (i2, o2)
                    else Ok (i1, o1)) ;;
      if srcLen <=? Z.of_nat i2 then fail INPUT_OVERRUN o2 else
      b <- read_src i2 ;;
      Ok (mkState (L_match (u8 b)) (S i2) o2)
  end.

Fixpoint run (fuel : nat) (s : state) : outcome :=
  match fuel with
  | O => Exhausted
  | S fuel' =>
      match step s with
      | Stop o => o
      | Ok s' => run fuel' s'
      end
  end.

Definition initial : state := mkState L_start 0 [].

(** Every step either consumes input or moves to a control point of lower
    rank (see [measure] below), so this fuel is never used up. *)
Definition decompress : outcome := run (S (4 * length src)) initial.

(** Termination measure: four units for every unread source byte plus the
    rank of the control point. *)
Definition rank (l : label) : nat :=
  match l with
  | L_match_done => 3
  | L_top _ | L_match_next _ => 2
  | L_match _ => 1
  | L_start | L_first_literal_run => 0
  end.

Definition measure (s : state) : nat :=
  (4 * (length src - ip s) + rank (pc s))%nat.

(** Executions: [steps k s s'] when [s'] is reached from [s] in [k] steps. *)
Inductive steps : nat -> state -> state -> Prop :=
| steps_here s : steps 0 s s
| steps_more k s s1 s' :
    step s = Ok s1 -> steps k s1 s' -> steps (S k) s s'.

Definition reachable (s : state) : Prop := exists k, steps k initial s.

(** What holds at each control point of a running call: the inner loop is
    entered with the control byte just read, [match_done] has two consumed
    bytes behind the cursor, [match_next] carries a count of 1 to 3, and the
    write cursor never passes the capacity. *)
Definition control_inv (s : state) : Prop :=
  match pc s with
  | L_match t =>
      exists b, (1 <= ip s)%nat /\ nth_error src (ip s - 1) = Some b /\ u8 b = t
  | L_top t =>
      16 <= t ->
      exists b, (1 <= ip s)%nat /\ nth_error src (ip s - 1) = Some b /\ u8 b = t
  | L_match_done => (2 <= ip s <= length src)%nat
  | L_match_next t => 1 <= t <= 3
  | L_start | L_first_literal_run => True
  end.

Definition state_inv (s : state) : Prop :=
  control_inv s /\ op (out s) <= maxDstLen.

(** [match_site s m]: at [s] the decoder has a match token in front of it and
    resolves it to [m = (mPos, mLen, ip')]; every encoding but the end of
    stream marker (which returns from inside [resolve_M4]). *)
Inductive match_site : state -> Z * Z * nat -> Prop :=
| site_loop t i o m :
    resolve_match t i o = Ok m ->
    match_site (mkState (L_match t) i o) m
| site_direct i o b m :
    nth_error src i = Some b -> u8 b < 16 ->
    resolve_M1_direct (u8 b) (S i) o = Ok m ->
    match_site (mkState L_first_literal_run i o) m.

(** The two readings of the specification that the code is compared with.
    [spec_M4_position]: the far-match source position as the specification
    words it, with no further term.  [spec_trailing_count]: the trailing
    count taken from the most recently consumed byte, [ip[-1]]. *)
Definition spec_M4_position (opv t next0 next1 : Z) : Z :=
  opv - Z.shiftl (Z.land t 8) 11 - (Z.shiftr next0 2 + Z.shiftl next1 6).

Definition spec_trailing_count (i : nat) : option Z :=
  match nth_error src (i - 1) with
  | Some b => Some (Z.land (u8 b) 3)
  | None => None
  end.

(** ** What the properties below speak about *)

(** How a component can end a call that has written [o] so far: one of the
    three overrun results with [*dstLen] still 0, the end marker with
    [*dstLen] the number of bytes written, or an instrumented fault on a
    source read or a destination write. *)
Definition stops_with (o : list byte) (oo : outcome) : Prop :=
  oo = Returned INPUT_OVERRUN 0 o \/
  oo = Returned OUTPUT_OVERRUN 0 o \/
  oo = Returned LOOKBEHIND_OVERRUN 0 o \/
  oo = Returned OK (length o) o \/
  oo = Faulted SrcReadOutOfBounds \/
  oo = Faulted DstWriteOutOfBounds.

(** A token whose length field is 0 and is extended by a zero-run: the
    literal run with control byte 0 and the two long matches with an empty
    length field. *)
Definition extension_point (s : state) : Prop :=
  pc s = L_top 0 \/
  exists t, pc s = L_match t /\
            ((32 <= t < 64 /\ Z.land t 31 = 0) \/
             (16 <= t < 32 /\ Z.land t 7 = 0)).

Definition top_inv (s : state) : Prop :=
  match pc s with
  | L_top t => 0 <= t < 256 /\ (ip s <= length src)%nat
  | _ => True
  end.

End Decoder.

End LZO1X.

(** ** Streams used in the examples *)

(** The literal-run scenario of the specification and its text. *)
Definition literal_stream : list byte :=
  [x20; x41; x42; x43; x44; x45; x46; x47; x48; x49; x4a; x4b; x4c; x4d; x4e;
   x4f; x11; x00; x00].

Definition literal_text : list byte :=
  [x41; x42; x43; x44; x45; x46; x47; x48; x49; x4a; x4b; x4c; x4d; x4e; x4f].

(** Four literals, a near match (control 0x41, distance byte 0x00), one
    trailing literal, end marker. *)
Definition stream_M2 : list byte :=
  [x15; x41; x42; x43; x44; x41; x00; x58; x11; x00; x00].

(** Four literals, a far match (control 0x11, distance bytes 0x04 0x00), end
    marker. *)
Definition stream_M4 : list byte :=
  [x15; x41; x42; x43; x44; x11; x04; x00; x11; x00; x00].

(** ** A literal-only reference encoder

    Not part of the repository: it describes the streams of the round-trip
    property.  The text is carried as one literal run, announced by the
    first byte (1 to 238 bytes) or by a control byte 0 with a zero-run
    extended length (239 bytes and more), and followed by the end marker. *)

Definition byte_of (z : Z) : byte :=
  match Byte.of_N (Z.to_N z) with
  | Some b => b
  | None => x00
  end.

Definition end_marker : list byte := [x11; x00; x00].

Definition encode_stored (text : list byte) : list byte :=
  let L := Z.of_nat (length text) in
  if L =? 0 then end_marker
  else if L <=? 238 then byte_of (17 + L) :: text ++ end_marker
  else
    let k := (L - 19) / 255 in
    x00 :: repeat x00 (Z.to_nat k)
        ++ byte_of (L - 18 - 255 * k) :: text ++ end_marker.

(** ** The nFlC container *)

Module NFlC.

Definition NFLC_MAGIC : Z := 0x436C466E.
Definition CHUNK_SIZE : Z := 0x8000.
Definition MAIN_HEADER_SIZE : Z := 64.
Definition CHUNK_HEADER_SIZE : Z := 16.
(** [sizeof(NFlCChunkHeader)]: four packed [uint32_t]. *)
Definition sizeof_NFlCChunkHeader : Z := 16.

Record ChunkInfo : Type := mkChunkInfo {
  offset : Z;
  dataOffset : Z;
  dataSize : Z;
  chunkIndex : Z;
  version : Z
}.

(** The data members of [class NFlCFile] the claims are about. *)
Record NFlCFile : Type := mkFile {
  data_ : list byte;
  chunks_ : list ChunkInfo;
  mainCompressedSize_ : Z;
  mainDecompressedSize_ : Z;
  mainFlags1_ : Z;
  mainFlags2_ : Z
}.

Definition size (data : list byte) : Z := Z.of_nat (length data).

(** A little-endian [uint32_t] field at byte offset [off], as the
    [reinterpret_cast] header reads see it; every caller has checked that the
    four bytes lie inside the buffer. *)
Definition byte_at (data : list byte) (off : Z) : Z :=
  u8 (nth (Z.to_nat off) data x00).

Definition read_u32 (data : list byte) (off : Z) : Z :=
  byte_at data off
  + Z.shiftl (byte_at data (off + 1)) 8
  + Z.shiftl (byte_at data (off + 2)) 16
  + Z.shiftl (byte_at data (off + 3)) 24.

(** [hdr->magic == NFLC_MAGIC] for the header at [off]. *)
Definition magic_at (data : list byte) (off : Z) : bool :=
  read_u32 data off =? NFLC_MAGIC.

(** The values [offset] takes in
    [for (size_t offset = 0; offset < data_.size(); offset += CHUNK_SIZE)].
    A [std::vector] holds fewer than 2^63 bytes, so [offset] never wraps. *)
Definition stride_offsets (sz : Z) : list Z :=
  map (fun k => Z.of_nat k * CHUNK_SIZE)
      (seq 0 (Z.to_nat ((sz + CHUNK_SIZE - 1) / CHUNK_SIZE))).

(** The body of the first loop of [parseChunks] over the remaining offsets:
    [None] is the [return false] at offset 0, [Some cs] the table when the
    loop ends or breaks.  [dataSize] is left unset by this loop (0 here) and
    assigned for every entry by [fill_sizes]. *)
Fixpoint find_headers (data : list byte) (offs : list Z)
    (cs : list ChunkInfo) : option (list ChunkInfo) :=
  match offs with
  | [] => Some cs
  | off :: offs' =>
      if size data <? off + sizeof_NFlCChunkHeader then Some cs
      else if negb (magic_at data off) then
        if off =? 0 then None else find_headers data offs' cs
      else
        let v := read_u32 data (off + 4) in
        let info :=
          {| offset := off;
             dataOffset := if off =? 0 then MAIN_HEADER_SIZE
                           else off + CHUNK_HEADER_SIZE;
             dataSize := 0;
             chunkIndex := Z.land (Z.shiftr v 8) 0xFFFF;
             version := v |} in
        find_headers data offs' (cs ++ [info])
  end.

Definition set_dataSize (c : ChunkInfo) (n : Z) : ChunkInfo :=
  {| offset := offset c; dataOffset := dataOffset c; dataSize := n;
     chunkIndex := chunkIndex c; version := version c |}.

(** The second loop: [chunks_[i].dataSize = nextOffset - chunks_[i].dataOffset]
    with [nextOffset] the next entry's [offset], or the buffer size. *)
Fixpoint fill_sizes (sz : Z) (cs : list ChunkInfo) : list ChunkInfo :=
  match cs with
  | [] => []
  | c :: rest =>
      let nextOffset := match rest with
                        | c' :: _ => offset c'
                        | [] => sz
                        end in
      set_dataSize c (wrap64 (nextOffset - dataOffset c)) :: fill_sizes sz rest
  end.

Definition clear_chunks (f : NFlCFile) : NFlCFile :=
  {| data_ := data_ f; chunks_ := [];
     mainCompressedSize_ := mainCompressedSize_ f;
     mainDecompressedSize_ := mainDecompressedSize_ f;
     mainFlags1_ := mainFlags1_ f; mainFlags2_ := mainFlags2_ f |}.

(** [bool parseChunks()]: the returned flag and the object afterwards. *)
Definition parseChunks (f : NFlCFile) : bool * NFlCFile :=
  let data := data_ f in
  if size data <? MAIN_HEADER_SIZE then (false, clear_chunks f)
  else
    match find_headers data (stride_offsets (size data)) [] with
    | None => (false, clear_chunks f)
    | Some cs =>
        match fill_sizes (size data) cs with
        | [] => (false, clear_chunks f)
        | cs' =>
            (true,
             {| data_ := data; chunks_ := cs';
                mainCompressedSize_ := read_u32 data 0x18;
                mainDecompressedSize_ := read_u32 data 0x28;
                mainFlags1_ := read_u32 data 0x08;
                mainFlags2_ := read_u32 data 0x0C |})
        end
    end.

(** [load]: the file contents, then [parseChunks]. *)
Definition load (bytes : list byte) : bool * NFlCFile :=
  parseChunks {| data_ := bytes; chunks_ := [];
                 mainCompressedSize_ := 0; mainDecompressedSize_ := 0;
                 mainFlags1_ := 0; mainFlags2_ := 0 |}.

(** [len] bytes of [data] from [start]: the range handed to the decoder or
    inserted into the result. *)
Definition slice (data : list byte) (start len : Z) : list byte :=
  firstn (Z.to_nat len) (skipn (Z.to_nat start) data).

(** A reconstruction either yields its vector, or the decoder it called did
    not return (it performed an out-of-bounds access). *)
Inductive result (A : Type) : Type :=
| Value (a : A)
| Aborted (o : LZO1X.outcome).
Arguments Value {A} a.
Arguments Aborted {A} o.

Definition is_empty (v : list byte) : bool :=
  match v with [] => true | _ :: _ => false end.

(** [extractRaw] *)
Fixpoint extractRaw_loop (data : list byte) (cs : list ChunkInfo)
    (res : list byte) : list byte :=
  match cs with
  | [] => res
  | chunk :: rest =>
      if wrap64 (dataOffset chunk + dataSize chunk) <=? size data
      then extractRaw_loop data rest
             (res ++ slice data (dataOffset chunk) (dataSize chunk))
      else extractRaw_loop data rest res
  end.

Definition extractRaw (f : NFlCFile) : list byte :=
  extractRaw_loop (data_ f) (chunks_ f) [].

(** [decompressSingle].  On [OK] the decoder has stored the number of bytes
    it wrote in [resultLen], and [result.resize(resultLen)] keeps them. *)
Definition decompressSingle (f : NFlCFile) : result (list byte) :=
  match chunks_ f with
  | [] => Value []
  | c0 :: _ =>
      if mainDecompressedSize_ f =? 0 then Value []
      else
        let dataStart := dataOffset c0 in
        let compSize := Z.min (mainCompressedSize_ f)
                              (wrap64 (size (data_ f) - dataStart)) in
        match LZO1X.decompress (slice (data_ f) dataStart compSize)
                               (mainDecompressedSize_ f) with
        | LZO1X.Returned LZO1X.OK n w => Value (firstn n w)
        | LZO1X.Returned _ _ _ => Value []
        | o => Aborted o
        end
  end.

(** [decompressChunked]: the loop over [chunks_], [res] the accumulating
    [result] vector.  The scratch buffer holds [chunkDecompSize * 2] bytes;
    the decoder writes it from its start and reads back only what it wrote. *)
Fixpoint decompressChunked_loop (chunkDecompSize : Z) (data : list byte)
    (cs : list ChunkInfo) (res : list byte) : result (list byte) :=
  match cs with
  | [] => Value res
  | chunk :: rest =>
      if size data <? wrap64 (dataOffset chunk + dataSize chunk)
      then decompressChunked_loop chunkDecompSize data rest res
      else
        let chunkData := slice data (dataOffset chunk) (dataSize chunk) in
        match LZO1X.decompress chunkData (chunkDecompSize * 2) with
        | LZO1X.Returned LZO1X.OK n w =>
            if (0 <? n)%nat
            then decompressChunked_loop chunkDecompSize data rest
                   (res ++ firstn n w)
            else decompressChunked_loop chunkDecompSize data rest
                   (res ++ chunkData)
        | LZO1X.Returned _ _ _ =>
            decompressChunked_loop chunkDecompSize data rest (res ++ chunkData)
        | o => Aborted o
        end
  end.

Definition decompressChunked (f : NFlCFile) : result (list byte) :=
  decompressChunked_loop CHUNK_SIZE (data_ f) (chunks_ f) [].

(** [NFlCFile::decompress]: the cascade. *)
Definition decompress (f : NFlCFile) : result (list byte) :=
  match decompressSingle f with
  | Aborted o => Aborted o
  | Value r1 =>
      if negb (is_empty r1) then Value r1
      else
        match decompressChunked f with
        | Aborted o => Aborted o
        | Value r2 =>
            if negb (is_empty r2) then Value r2
            else Value (extractRaw f)
        end
  end.


(** ** What the properties of the container speak about *)

(** A stride position that holds a chunk header: the header lies inside the
    buffer and carries the signature. *)
Definition header_at (data : list byte) (off : Z) : bool :=
  (off + sizeof_NFlCChunkHeader <=? size data) && magic_at data off.

(** The descriptor the first loop of [parseChunks] builds at [off]. *)
Definition header_info (data : list byte) (off : Z) : ChunkInfo :=
  let v := read_u32 data (off + 4) in
  {| offset := off;
     dataOffset := if off =? 0 then MAIN_HEADER_SIZE
                   else off + CHUNK_HEADER_SIZE;
     dataSize := 0;
     chunkIndex := Z.land (Z.shiftr v 8) 0xFFFF;
     version := v |}.

Definition strides (a n : nat) : list Z :=
  map (fun k => Z.of_nat k * CHUNK_SIZE) (seq a n).

(** The offsets of the chunk headers of a buffer. *)
Definition chunk_headers (data : list byte) : list Z :=
  filter (header_at data) (stride_offsets (size data)).

(** What a successful [parseChunks] leaves in the object. *)
Definition parsed (f : NFlCFile) : NFlCFile :=
  let data := data_ f in
  {| data_ := data;
     chunks_ := fill_sizes (size data)
                  (map (header_info data) (chunk_headers data));
     mainCompressedSize_ := read_u32 data 0x18;
     mainDecompressedSize_ := read_u32 data 0x28;
     mainFlags1_ := read_u32 data 0x08;
     mainFlags2_ := read_u32 data 0x0C |}.

(** The payload ranges tile the buffer: each starts behind its header and
    ends where the next header starts, the last one at the end of the
    buffer. *)
Fixpoint tiled (sz : Z) (cs : list ChunkInfo) : Prop :=
  match cs with
  | [] => True
  | c :: rest =>
      let next := match rest with
                  | c' :: _ => offset c'
                  | [] => sz
                  end in
      0 <= offset c /\
      dataOffset c = (if offset c =? 0 then MAIN_HEADER_SIZE
                      else offset c + CHUNK_HEADER_SIZE) /\
      dataOffset c <= next /\ next <= sz /\
      (rest <> [] -> offset c + CHUNK_SIZE <= next) /\
      dataSize c = next - dataOffset c /\
      tiled sz rest
  end.

(** The payload of a chunk: the bytes between its header and the next. *)
Definition payload (data : list byte) (c : ChunkInfo) : list byte :=
  slice data (dataOffset c) (dataSize c).

(** What one chunk adds to the output of [decompressChunked]: its decoded
    bytes when the decoder returns [OK] with a positive length, its raw
    payload when the decoder returns anything else. *)
Definition chunk_output (cap : Z) (data : list byte) (c : ChunkInfo)
    : result (list byte) :=
  match LZO1X.decompress (payload data c) cap with
  | LZO1X.Returned LZO1X.OK n w =>
      if (0 <? n)%nat then Value (firstn n w) else Value (payload data c)
  | LZO1X.Returned _ _ _ => Value (payload data c)
  | o => Aborted o
  end.

(** The chunk outputs in table order, one after the other. *)
Fixpoint assemble (cap : Z) (data : list byte) (cs : list ChunkInfo)
    : result (list byte) :=
  match cs with
  | [] => Value []
  | c :: rest =>
      match chunk_output cap data c with
      | Aborted o => Aborted o
      | Value v =>
          match assemble cap data rest with
          | Aborted o => Aborted o
          | Value r => Value (v ++ r)
          end
      end
  end.

(** A stride position as the table holds it. *)
Definition stride_ok (sz off : Z) : Prop :=
  (exists k, 0 <= k /\ off = k * CHUNK_SIZE) /\
  off + sizeof_NFlCChunkHeader <= sz /\
  (off = 0 -> MAIN_HEADER_SIZE <= sz).

(** A payload range inside a buffer of [sz] bytes. *)
Definition in_bounds (sz : Z) (c : ChunkInfo) : Prop :=
  0 <= dataOffset c /\ 0 <= dataSize c /\ dataOffset c + dataSize c <= sz.

End NFlC.

(** ** Containers used in the examples *)

(** A main header: the signature, [compressedSize] 19 at 0x18 and
    [decompressedSize] 15 at 0x28, every other field zero. *)
Definition sample_main_header : list byte :=
  [x6e; x46; x6c; x43] ++ repeat x00 20
  ++ [x13; x00; x00; x00] ++ repeat x00 12
  ++ [x0f; x00; x00; x00] ++ repeat x00 20.

(** A chunk header: the signature and three zero fields. *)
Definition sample_chunk_header : list byte :=
  [x6e; x46; x6c; x43] ++ repeat x00 12.

(** One chunk: the main header and the literal-run stream. *)
Definition small_container : list byte :=
  sample_main_header ++ literal_stream.

(** Three chunks: the literal-run stream padded to the stride, a payload
    that is no LZO1X stream (a far match with nothing to refer to) padded to
    the stride, and the stream with a near match. *)
Definition three_chunk_container : list byte :=
  sample_main_header ++ literal_stream
  ++ repeat x00 (Z.to_nat (32768 - 64 - 19))
  ++ sample_chunk_header ++ [x10; x01; x04; x00]
  ++ repeat x00 (Z.to_nat (32768 - 16 - 4))
  ++ sample_chunk_header ++ stream_M2.

(** The object [load] starts from. *)
Definition unloaded (bytes : list byte) : NFlC.NFlCFile :=
  {| NFlC.data_ := bytes; NFlC.chunks_ := [];
     NFlC.mainCompressedSize_ := 0; NFlC.mainDecompressedSize_ := 0;
     NFlC.mainFlags1_ := 0; NFlC.mainFlags2_ := 0 |}.

(** Two full strides, a header at the start of each, zero payloads. *)
Definition two_chunk_container : list byte :=
  sample_main_header ++ repeat x00 (Z.to_nat (32768 - 64))
  ++ sample_chunk_header ++ repeat x00 (Z.to_nat (32768 - 16)).

(** ** A single-block reference container

    Not part of the repository: the main header with the two size fields
    filled in, followed by a literal-only stream. *)

Definition le32 (z : Z) : list byte :=
  [byte_of (z mod 256); byte_of (z / 256 mod 256);
   byte_of (z / 256 / 256 mod 256); byte_of (z / 256 / 256 / 256 mod 256)].

Definition main_header (compressedSize decompressedSize : Z) : list byte :=
  [x6e; x46; x6c; x43] ++ repeat x00 20
  ++ le32 compressedSize ++ repeat x00 12
  ++ le32 decompressedSize ++ repeat x00 20.

Definition single_block_container (text : list byte) : list byte :=
  let stream := encode_stored text in
  main_header (Z.of_nat (length stream)) (Z.of_nat (length text)) ++ stream.

(** ** A chunked reference container

    Not part of the repository: every stride holds a header, a literal-only
    stream and zero bytes up to the stride length.  The main header declares
    no single block. *)

Definition stride_block (hdr text : list byte) : list byte :=
  let stream := encode_stored text in
  hdr ++ (stream
          ++ repeat x00 (Z.to_nat (NFlC.CHUNK_SIZE - NFlC.size hdr
                                   - NFlC.size stream))).

Definition chunked_container (first : list byte) (others : list (list byte))
    : list byte :=
  stride_block (main_header 0 0) first
  ++ concat (map (stride_block sample_chunk_header) others).

(** * Properties of the decoder *)

Import LZO1X.


Lemma bind_Ok {A B : Type} (m : exec A) (k : A -> exec B) (b : B) :
  bind m k = Ok b -> exists a, m = Ok a /\ k a = Ok b.
Proof. destruct m as [a|o]; simpl; intros H; [eauto | discriminate]. Qed.

Lemma Ok_inj {A : Type} (a b : A) : @Ok A a = Ok b -> a = b.
Proof. congruence. Qed.

Ltac exec_inv :=
  repeat match goal with
  | H : bind _ _ = Ok _ |- _ =>
      apply bind_Ok in H; destruct H as (? & ? & H)
  | H : fail _ _ = Ok _ |- _ => discriminate H
  | H : Stop _ = Ok _ |- _ => discriminate H
  | H : Ok _ = Ok _ |- _ => apply Ok_inj in H
  | H : (_, _) = (_, _) |- _ => apply pair_equal_spec in H; destruct H as [? ?]
  | H : ?x = _ |- _ => is_var x; subst x
  | H : _ = ?x |- _ => is_var x; subst x
  | H : (let '(_, _) := ?p in _) = Ok _ |- _ => destruct p
  | H : (if ?c then _ else _) = Ok _ |- _ => destruct c eqn:?
  end.

Section DecoderFacts.

Variable src : list byte.
Variable maxDstLen : Z.

Lemma read_src_Ok i b :
  read_src src i = Ok b -> (i < length src)%nat /\ nth_error src i = Some b.
Proof.
  unfold read_src. destruct (nth_error src i) eqn:E; intros H; [|discriminate].
  inversion H; subst. split; [|reflexivity].
  apply nth_error_Some. congruence.
Qed.

Lemma zero_run_Ok wrap rest : forall i acc o v j,
  zero_run src wrap rest i acc o = Ok (v, j) -> (i <= j)%nat.
Proof.
  induction rest as [|b rest IH]; simpl; intros i acc o v j H; [discriminate|].
  exec_inv.
  - apply IH in H. lia.
  - lia.
Qed.

Lemma extended_length_Ok wrap bias low i o v j :
  extended_length src wrap bias low i o = Ok (v, j) -> (i <= j)%nat.
Proof.
  unfold extended_length. intros H. exec_inv; [|lia].
  match goal with E : zero_run _ _ _ _ _ _ = Ok _ |- _ =>
    apply zero_run_Ok in E end. lia.
Qed.

Lemma lit_copy_Ok rest : forall t i o i' o',
  lit_copy maxDstLen rest t i o = Ok (i', o') -> (i < i')%nat.
Proof.
  induction rest as [|b rest IH]; simpl; intros t i o i' o' H; [discriminate|].
  exec_inv.
  - apply IH in H. lia.
  - lia.
Qed.

Lemma lit1_Ok i o i' o' :
  lit1 src maxDstLen i o = Ok (i', o') -> i' = S i /\ (i < length src)%nat.
Proof.
  unfold lit1. intros H. exec_inv.
  match goal with E : read_src _ _ = Ok _ |- _ => apply read_src_Ok in E end.
  tauto.
Qed.

Lemma resolve_match_Ok t i o mPos mLen i' :
  resolve_match src t i o = Ok (mPos, mLen, i') ->
  (i < i' <= length src)%nat.
Proof.
  unfold resolve_match, resolve_M1, resolve_M2, resolve_M3, resolve_M4.
  intros H. exec_inv;
    repeat match goal with
    | E : read_src _ _ = Ok _ |- _ => apply read_src_Ok in E; destruct E as [E _]
    | E : extended_length _ _ _ _ _ _ = Ok _ |- _ => apply extended_length_Ok in E
    end; lia.
Qed.

Lemma resolve_M1_direct_Ok t i o mPos mLen i' :
  resolve_M1_direct src t i o = Ok (mPos, mLen, i') ->
  i' = S i /\ (i < length src)%nat.
Proof.
  unfold resolve_M1_direct. intros H. exec_inv.
  match goal with E : read_src _ _ = Ok _ |- _ => apply read_src_Ok in E end.
  tauto.
Qed.

Lemma commit_match_Ok m o s' :
  commit_match maxDstLen m o = Ok s' ->
  pc s' = L_match_done /\ ip s' = snd m.
Proof.
  unfold commit_match. destruct m as [[mPos mLen] i']. intros H.
  exec_inv. simpl. auto.
Qed.

Lemma literal_run_Ok t i o s' :
  literal_run src maxDstLen t i o = Ok s' ->
  pc s' = L_first_literal_run /\ (i < ip s')%nat.
Proof.
  unfold literal_run. intros H. exec_inv. simpl.
  match goal with E : lit_copy _ _ _ _ _ = Ok _ |- _ => apply lit_copy_Ok in E end.
  auto.
Qed.

Lemma step_decreases s s' :
  step src maxDstLen s = Ok s' -> (measure src s' < measure src s)%nat.
Proof.
  unfold step, measure. destruct s as [l i o]; simpl.
  destruct l; intros H; exec_inv; simpl;
    repeat match goal with
    | E : read_src _ _ = Ok _ |- _ => apply read_src_Ok in E; destruct E as [E _]
    | E : extended_length _ _ _ _ _ _ = Ok _ |- _ => apply extended_length_Ok in E
    | E : literal_run _ _ _ _ _ = Ok _ |- _ =>
        apply literal_run_Ok in E; destruct E as [-> E]
    | E : commit_match _ ?m _ = Ok _ |- _ =>
        apply commit_match_Ok in E; destruct E as [-> ->]
    | E : resolve_match _ _ _ _ = Ok ?m |- _ =>
        destruct m as [[? ?] ?]; apply resolve_match_Ok in E
    | E : resolve_M1_direct _ _ _ _ = Ok ?m |- _ =>
        destruct m as [[? ?] ?]; apply resolve_M1_direct_Ok in E; destruct E as [-> E]
    | E : lit1 _ _ _ _ = Ok _ |- _ => apply lit1_Ok in E; destruct E as [-> E]
    | E : (_ <? _)%nat = false |- _ => apply Nat.ltb_ge in E
    end; simpl; try lia.
Qed.


(** No component ever produces [Exhausted]: that marker belongs to [run]. *)
Ltac stop_inv :=
  repeat match goal with
  | H : Ok _ = Stop _ |- _ => discriminate H
  | H : fail _ _ = Stop Exhausted |- _ => discriminate H
  | H : Stop (Returned _ _ _) = Stop Exhausted |- _ => discriminate H
  | H : Stop (Faulted _) = Stop Exhausted |- _ => discriminate H
  | H : Stop ?o = Stop Exhausted |- _ => inversion H; subst; clear H
  | H : (let '(_, _) := ?p in _) = Stop Exhausted |- _ => destruct p
  | H : (if ?c then _ else _) = Stop Exhausted |- _ => destruct c eqn:?
  | H : bind ?m _ = Stop Exhausted |- _ => destruct m eqn:?; simpl in H
  end.

Lemma read_src_genuine i : read_src src i <> Stop Exhausted.
Proof. unfold read_src. destruct (nth_error src i); discriminate. Qed.

Lemma read_dst_genuine o i : read_dst o i <> Stop Exhausted.
Proof. unfold read_dst. destruct (nth_error o i); discriminate. Qed.

Lemma write_dst_genuine o b : write_dst maxDstLen o b <> Stop Exhausted.
Proof. unfold write_dst. destruct (op o <? maxDstLen); discriminate. Qed.

Ltac genuine_leaf :=
  match goal with
  | E : read_src _ _ = Stop Exhausted |- _ => now apply read_src_genuine in E
  | E : read_dst _ _ = Stop Exhausted |- _ => now apply read_dst_genuine in E
  | E : write_dst _ _ _ = Stop Exhausted |- _ => now apply write_dst_genuine in E
  end.

Lemma zero_run_genuine wrap rest : forall i acc o,
  zero_run src wrap rest i acc o <> Stop Exhausted.
Proof.
  induction rest as [|b rest IH]; simpl; intros i acc o H; [discriminate|].
  stop_inv. now apply IH in H.
Qed.

Lemma lit_copy_genuine rest : forall t i o,
  lit_copy maxDstLen rest t i o <> Stop Exhausted.
Proof.
  induction rest as [|b rest IH]; simpl; intros t i o H; [discriminate|].
  stop_inv.
  - now apply IH in H.
  - genuine_leaf.
Qed.

Lemma match_copy_genuine n : forall mSrc o,
  match_copy maxDstLen n mSrc o <> Stop Exhausted.
Proof.
  induction n as [|n IH]; simpl; intros mSrc o H; [discriminate|].
  stop_inv.
  - now apply IH in H.
  - genuine_leaf.
  - genuine_leaf.
Qed.

Ltac genuine_loop :=
  match goal with
  | E : zero_run _ _ _ _ _ _ = Stop Exhausted |- _ => now apply zero_run_genuine in E
  | E : lit_copy _ _ _ _ _ = Stop Exhausted |- _ => now apply lit_copy_genuine in E
  | E : match_copy _ _ _ _ = Stop Exhausted |- _ => now apply match_copy_genuine in E
  end.

Lemma step_genuine s : step src maxDstLen s <> Stop Exhausted.
Proof.
  unfold step, literal_run, commit_match, resolve_M1_direct, resolve_match,
    resolve_M1, resolve_M2, resolve_M3, resolve_M4, extended_length, lit1.
  destruct s as [l i o]; simpl. destruct l; intros H; stop_inv;
    first [genuine_leaf | genuine_loop].
Qed.

Lemma run_completes : forall fuel s,
  (measure src s < fuel)%nat -> run src maxDstLen fuel s <> Exhausted.
Proof.
  induction fuel as [|fuel IH]; intros s Hm; [lia|].
  simpl. destruct (step src maxDstLen s) as [s'|o] eqn:E.
  - apply IH. apply step_decreases in E. lia.
  - intros ->. now apply step_genuine in E.
Qed.

Theorem decompress_completes : decompress src maxDstLen <> Exhausted.
Proof.
  unfold decompress. apply run_completes. unfold measure, initial. simpl. lia.
Qed.

Lemma steps_measure k s s' :
  steps src maxDstLen k s s' -> (measure src s' + k <= measure src s)%nat.
Proof.
  induction 1 as [s|k s s1 s' E _ IH]; [lia|].
  apply step_decreases in E. lia.
Qed.

Lemma steps_run k s s' o :
  steps src maxDstLen k s s' -> step src maxDstLen s' = Stop o ->
  forall fuel, (k < fuel)%nat -> run src maxDstLen fuel s = o.
Proof.
  induction 1 as [s|k s s1 s' E _ IH]; intros Hs fuel Hk;
    (destruct fuel as [|fuel]; [lia|]); simpl.
  - now rewrite Hs.
  - rewrite E. apply IH; [assumption|lia].
Qed.

(** A call that reaches [s] and stops there returns what that step says. *)
Lemma reachable_stop s o :
  reachable src maxDstLen s -> step src maxDstLen s = Stop o -> decompress src maxDstLen = o.
Proof.
  intros [k Hk] Hs. unfold decompress.
  apply (steps_run k initial s o Hk Hs).
  apply steps_measure in Hk. unfold measure, initial in Hk. simpl in Hk. lia.
Qed.

End DecoderFacts.

#[local] Arguments Z.of_nat : simpl never.
#[local] Arguments Z.shiftl : simpl never.
#[local] Arguments Z.shiftr : simpl never.
#[local] Arguments Z.land : simpl never.

(** *** Wrap-around arithmetic *)

Lemma wrap64_sub_l a b : wrap64 (wrap64 a - b) = wrap64 (a - b).
Proof. unfold wrap64. apply Zminus_mod_idemp_l. Qed.

Lemma wrap64_small x : 0 <= x < 18446744073709551616 -> wrap64 x = x.
Proof. unfold wrap64. apply Z.mod_small. Qed.

Lemma wrap64_range x : 0 <= wrap64 x < 18446744073709551616.
Proof. unfold wrap64. apply Z.mod_pos_bound. lia. Qed.

(** A cursor minus a distance: the wrapped value is below the cursor exactly
    when the distance does not reach before the start of the output. *)
Lemma wrapped_position p d :
  0 <= p < 9223372036854775808 -> 1 <= d <= 65536 ->
  (d <= p -> wrap64 (p - d) = p - d) /\
  (p < d -> p <= wrap64 (p - d)).
Proof.
  intros Hp Hd. split; intros H.
  - apply wrap64_small. lia.
  - unfold wrap64.
    replace (p - d) with ((p - d + 18446744073709551616) + (-1) * 18446744073709551616) by lia.
    rewrite Z.mod_add by lia. rewrite Z.mod_small; lia.
Qed.

Lemma land_3_range x : 0 <= Z.land x 3 <= 3.
Proof.
  change (Z.land x 3) with (Z.land x (Z.ones 2)).
  rewrite Z.land_ones by lia. change (2 ^ 2) with 4.
  pose proof (Z.mod_pos_bound x 4). lia.
Qed.

Lemma land_range x k : 0 <= k -> 0 <= Z.land x (Z.ones k) < 2 ^ k.
Proof. intros Hk. rewrite Z.land_ones by lia. apply Z.mod_pos_bound. lia. Qed.

Lemma shiftr_range x n : 0 <= x -> 0 <= n -> 0 <= Z.shiftr x n <= x.
Proof.
  intros Hx Hn. rewrite Z.shiftr_div_pow2 by lia. split.
  - apply Z.div_pos; lia.
  - apply Z.div_le_upper_bound; [lia|]. 
    assert (1 <= 2 ^ n) by lia. nia.
Qed.

Lemma shiftl_u8 b n : 0 <= n -> 0 <= Z.shiftl (u8 b) n <= 255 * 2 ^ n.
Proof.
  intros Hn. rewrite Z.shiftl_mul_pow2 by lia.
  pose proof (u8_range b). assert (0 < 2 ^ n) by lia. nia.
Qed.

Lemma land8_shift t : 0 <= Z.shiftl (Z.land t 8) 11 <= 16384.
Proof.
  rewrite Z.shiftl_mul_pow2 by lia.
  assert (0 <= Z.land t 8 <= 8).
  { destruct (Z.testbit t 3) eqn:E.
    - assert (Z.land t 8 = 8); [|lia].
      apply Z.bits_inj'. intros n Hn. rewrite Z.land_spec.
      change 8 with (2 ^ 3). rewrite Z.pow2_bits_eqb by lia.
      destruct (Z.eqb_spec 3 n); subst; [now rewrite E|now rewrite andb_false_r].
    - assert (Z.land t 8 = 0); [|lia].
      apply Z.bits_inj'. intros n Hn. rewrite Z.land_spec, Z.bits_0.
      change 8 with (2 ^ 3). rewrite Z.pow2_bits_eqb by lia.
      destruct (Z.eqb_spec 3 n); subst; [now rewrite E|now rewrite andb_false_r]. }
  lia.
Qed.

Section MatchFacts.

Variable src : list byte.
Variable maxDstLen : Z.

Ltac read_facts :=
  repeat match goal with
  | E : read_src _ _ = Ok _ |- _ => apply read_src_Ok in E; destruct E as [? E]
  end.

Lemma resolve_M2_shape t i o mPos mLen i' :
  resolve_M2 src t i o = Ok (mPos, mLen, i') ->
  exists b, nth_error src i = Some b /\ i' = S i /\
    mPos = wrap64 (op o - (1 + Z.land (Z.shiftr t 2) 7 + Z.shiftl (u8 b) 3)).
Proof.
  unfold resolve_M2. intros H. exec_inv. read_facts.
  eexists; repeat split; [eassumption|].
  rewrite_strat (bottomup wrap64_sub_l). f_equal. lia.
Qed.

Lemma resolve_M1_shape t i o mPos mLen i' :
  resolve_M1 src t i o = Ok (mPos, mLen, i') ->
  exists b, nth_error src i = Some b /\ i' = S i /\ mLen = 2 /\
    mPos = wrap64 (op o - (1 + Z.shiftr t 2 + Z.shiftl (u8 b) 2)).
Proof.
  unfold resolve_M1. intros H. exec_inv. read_facts.
  eexists; repeat split; [eassumption|].
  rewrite_strat (bottomup wrap64_sub_l). f_equal. lia.
Qed.

Lemma resolve_M1_direct_shape t i o mPos mLen i' :
  resolve_M1_direct src t i o = Ok (mPos, mLen, i') ->
  exists b, nth_error src i = Some b /\ i' = S i /\ mLen = 3 /\
    mPos = wrap64 (op o - (1 + 2048 + Z.shiftr t 2 + Z.shiftl (u8 b) 2)).
Proof.
  unfold resolve_M1_direct. intros H. exec_inv. read_facts.
  eexists; repeat split; [eassumption|].
  rewrite_strat (bottomup wrap64_sub_l). f_equal. lia.
Qed.

Lemma resolve_M3_shape t i o mPos mLen i' :
  resolve_M3 src t i o = Ok (mPos, mLen, i') ->
  exists i1 b0 b1, (i <= i1)%nat /\ i' = S (S i1) /\
    nth_error src i1 = Some b0 /\ nth_error src (S i1) = Some b1 /\
    mPos = wrap64 (op o - (1 + (Z.shiftr (u8 b0) 2 + Z.shiftl (u8 b1) 6))).
Proof.
  unfold resolve_M3. intros H. exec_inv. read_facts.
  match goal with E : extended_length _ _ _ _ _ _ = Ok _ |- _ =>
    apply extended_length_Ok in E end.
  do 3 eexists; repeat split; [eassumption| eassumption | eassumption |].
  rewrite_strat (bottomup wrap64_sub_l). f_equal. lia.
Qed.

Lemma resolve_M4_shape t i o mPos mLen i' :
  resolve_M4 src t i o = Ok (mPos, mLen, i') ->
  exists i1 b0 b1, (i <= i1)%nat /\ i' = S (S i1) /\
    nth_error src i1 = Some b0 /\ nth_error src (S i1) = Some b1 /\
    wrap64 (op o - (Z.shiftl (Z.land t 8) 11
                    + (Z.shiftr (u8 b0) 2 + Z.shiftl (u8 b1) 6))) <> op o /\
    mPos = wrap64 (op o - (Z.shiftl (Z.land t 8) 11
                           + (Z.shiftr (u8 b0) 2 + Z.shiftl (u8 b1) 6)
                           + 16384)).
Proof.
  unfold resolve_M4. intros H. exec_inv. read_facts.
  match goal with E : extended_length _ _ _ _ _ _ = Ok _ |- _ =>
    apply extended_length_Ok in E end.
  match goal with E : (_ =? _) = false |- _ => apply Z.eqb_neq in E; rename E into Hne end.
  rewrite_strat (bottomup wrap64_sub_l) in Hne.
  do 3 eexists; repeat split; [eassumption| eassumption | eassumption | |].
  - intros E. apply Hne. rewrite <- E at 2. f_equal. lia.
  - rewrite_strat (bottomup wrap64_sub_l). f_equal. lia.
Qed.


(** *** Invariants of reachable states *)

Lemma write_dst_Ok o b o' :
  write_dst maxDstLen o b = Ok o' -> o' = o ++ [b] /\ op o < maxDstLen.
Proof.
  unfold write_dst. destruct (Z.ltb_spec (op o) maxDstLen) as [Hlt|Hge];
    intros H; [|discriminate].
  apply Ok_inj in H. auto.
Qed.

Lemma op_app o b : op (o ++ [b]) = op o + 1.
Proof. unfold op. rewrite length_app. simpl. lia. Qed.

Lemma lit_copy_room rest : forall t i o i' o',
  lit_copy maxDstLen rest t i o = Ok (i', o') -> op o' <= maxDstLen.
Proof.
  induction rest as [|b rest IH]; simpl; intros t i o i' o' H; [discriminate|].
  exec_inv.
  - eapply IH; eassumption.
  - match goal with E : write_dst _ _ _ = Ok _ |- _ =>
      apply write_dst_Ok in E; destruct E as [-> E] end.
    rewrite op_app. lia.
Qed.

Lemma match_copy_room n : forall mSrc o o',
  match_copy maxDstLen n mSrc o = Ok o' ->
  op o <= maxDstLen -> op o' <= maxDstLen.
Proof.
  induction n as [|n IH]; simpl; intros mSrc o o' H Ho.
  - apply Ok_inj in H. now subst.
  - exec_inv.
    match goal with E : write_dst _ _ _ = Ok _ |- _ =>
      apply write_dst_Ok in E; destruct E as [-> E] end.
    eapply IH; [eassumption|]. rewrite op_app. lia.
Qed.

Lemma lit1_room i o i' o' :
  lit1 src maxDstLen i o = Ok (i', o') -> op o' <= maxDstLen.
Proof.
  unfold lit1. intros H. exec_inv.
  match goal with E : write_dst _ _ _ = Ok _ |- _ =>
    apply write_dst_Ok in E; destruct E as [-> E] end.
  rewrite op_app. lia.
Qed.

Lemma commit_match_room m o s' :
  commit_match maxDstLen m o = Ok s' -> op o <= maxDstLen ->
  op (out s') <= maxDstLen.
Proof.
  unfold commit_match. destruct m as [[mPos mLen] i']. intros H Ho.
  exec_inv. simpl. eapply match_copy_room; eassumption.
Qed.

Lemma literal_run_room t i o s' :
  literal_run src maxDstLen t i o = Ok s' -> op (out s') <= maxDstLen.
Proof.
  unfold literal_run. intros H. exec_inv. simpl.
  eapply lit_copy_room; eassumption.
Qed.

Lemma step_room s s' :
  step src maxDstLen s = Ok s' -> op (out s) <= maxDstLen ->
  op (out s') <= maxDstLen.
Proof.
  unfold step. destruct s as [l i o]; simpl.
  destruct l; intros H Ho; exec_inv; simpl;
    repeat match goal with
    | E : literal_run _ _ _ _ _ = Ok _ |- _ => apply literal_run_room in E
    | E : commit_match _ _ _ = Ok _ |- _ =>
        apply commit_match_room in E; [|assumption]
    | E : lit1 _ _ _ _ = Ok _ |- _ => apply lit1_room in E
    end; try assumption.
Qed.

Lemma step_control s s' :
  control_inv src s -> step src maxDstLen s = Ok s' -> control_inv src s'.
Proof.
  unfold step, control_inv. destruct s as [l i o]; cbn [pc ip out].
  destruct l; intros Hinv H; exec_inv; cbn [pc ip out];
    repeat match goal with
    | E : read_src _ _ = Ok _ |- _ => apply read_src_Ok in E; destruct E as [? E]
    | E : literal_run _ _ _ _ _ = Ok _ |- _ =>
        apply literal_run_Ok in E; destruct E as [-> E]
    | E : commit_match _ ?m _ = Ok _ |- _ =>
        apply commit_match_Ok in E; destruct E as [-> ->]
    | E : resolve_match _ _ _ _ = Ok ?m |- _ =>
        destruct m as [[? ?] ?]; apply resolve_match_Ok in E
    | E : resolve_M1_direct _ _ _ _ = Ok ?m |- _ =>
        destruct m as [[? ?] ?]; apply resolve_M1_direct_Ok in E;
        destruct E as [-> E]
    | E : lit1 _ _ _ _ = Ok _ |- _ => apply lit1_Ok in E; destruct E as [-> E]
    | E : (_ <? _)%nat = false |- _ => apply Nat.ltb_ge in E
    | E : (_ <? _) = true |- _ => apply Z.ltb_lt in E
    | E : (_ <? _) = false |- _ => apply Z.ltb_ge in E
    | E : (_ =? _) = false |- _ => apply Z.eqb_neq in E
    | E : (_ =? _) = true |- _ => apply Z.eqb_eq in E
    end; cbn [pc ip out snd]; try exact I.
  all: try (intros Hge).
  all: try (apply Hinv; lia).
  all: try solve
    [ eexists; split; [lia|]; split; [|reflexivity];
      match goal with
      | Hn : nth_error src ?j = Some _ |- nth_error src ?k = Some _ =>
          replace k with j by lia; exact Hn
      end ].
  all: try (destruct Hinv as (b & ? & ? & ?); cbn [fst snd] in *; lia).
  all: try lia.
  all: try (pose proof (land_3_range (u8 x)); lia).
  pose proof (u8_range x). unfold wrap32 in *.
  rewrite Z.mod_small in * by lia. lia.
Qed.

Lemma reachable_inv s :
  0 <= maxDstLen -> reachable src maxDstLen s -> state_inv src maxDstLen s.
Proof.
  intros Hm [k Hk].
  assert (Hgen : forall k s0 s1, steps src maxDstLen k s0 s1 ->
                   state_inv src maxDstLen s0 -> state_inv src maxDstLen s1).
  { clear. induction 1 as [s|k s s1 s' E _ IH]; [auto|].
    intros [Hc Ho]. apply IH. split.
    - eapply step_control; eassumption.
    - eapply step_room; eassumption. }
  apply (Hgen k initial s Hk). split; simpl; [exact I|].
  unfold op. simpl. lia.
Qed.

Lemma match_site_step s m :
  match_site src s m -> step src maxDstLen s = commit_match maxDstLen m (out s).
Proof.
  intros [t i o m' E | i o b m' Hb Ht E]; unfold step; simpl.
  - now rewrite E.
  - assert (Hi : (i < length src)%nat) by (apply nth_error_Some; congruence).
    unfold srcLen. destruct (Z.leb_spec (Z.of_nat (length src)) (Z.of_nat i)); [lia|].
    unfold read_src at 1. rewrite Hb. simpl.
    destruct (Z.ltb_spec (u8 b) 16); [|lia]. now rewrite E.
Qed.

(** The resolved position is the write cursor minus a positive distance,
    reduced modulo 2^64. *)
Lemma match_site_distance s m :
  control_inv src s -> match_site src s m ->
  exists d, 1 <= d <= 65536 /\ fst (fst m) = wrap64 (op (out s) - d).
Proof.
  intros Hinv Hsite. revert Hinv.
  destruct Hsite as [t i o [[mPos mLen] i'] E | i o b [[mPos mLen] i'] Hb Ht E];
    intros Hinv; simpl.
  - unfold control_inv in Hinv. simpl in Hinv.
    destruct Hinv as (c & _ & _ & Hc).
    pose proof (u8_range c) as Ht. rewrite Hc in Ht. clear Hc.
    unfold resolve_match in E.
    destruct (Z.leb_spec 64 t); [|destruct (Z.leb_spec 32 t); [|destruct (Z.leb_spec 16 t)]].
    + apply resolve_M2_shape in E. destruct E as (b & _ & _ & ->).
      eexists; split; [|reflexivity].
      pose proof (land_range (Z.shiftr t 2) 3). change (Z.ones 3) with 7 in *.
      pose proof (shiftl_u8 b 3). change (2 ^ 3) with 8 in *. lia.
    + apply resolve_M3_shape in E. destruct E as (i1 & b0 & b1 & _ & _ & _ & _ & ->).
      eexists; split; [|reflexivity].
      pose proof (shiftr_range (u8 b0) 2). pose proof (u8_range b0).
      pose proof (shiftl_u8 b1 6). change (2 ^ 6) with 64 in *. lia.
    + apply resolve_M4_shape in E.
      destruct E as (i1 & b0 & b1 & _ & _ & _ & _ & _ & ->).
      eexists; split; [|reflexivity].
      pose proof (shiftr_range (u8 b0) 2). pose proof (u8_range b0).
      pose proof (shiftl_u8 b1 6). change (2 ^ 6) with 64 in *.
      pose proof (land8_shift t). lia.
    + apply resolve_M1_shape in E. destruct E as (b & _ & _ & _ & ->).
      eexists; split; [|reflexivity].
      pose proof (shiftr_range t 2).
      pose proof (shiftl_u8 b 2). change (2 ^ 2) with 4 in *. lia.
  - apply resolve_M1_direct_shape in E. destruct E as (c & _ & _ & _ & ->).
    eexists; split; [|reflexivity].
    pose proof (u8_range b). pose proof (shiftr_range (u8 b) 2).
    pose proof (shiftl_u8 c 2). change (2 ^ 2) with 4 in *. lia.
Qed.

(** C5.  At a match of a running call, in every encoding but the end
    marker: when the resolved position is not below the write cursor (an
    unsigned comparison) the call returns [LOOKBEHIND_OVERRUN] with nothing
    written for that match.  The position is the cursor minus a distance
    [d >= 1] modulo 2^64; a distance that reaches before the start of the
    output wraps to a position the check refuses, and a match that is
    carried out has the unwrapped position, inside the output. *)
Theorem lookbehind_overrun_returns s m :
  0 <= maxDstLen < 9223372036854775808 ->
  reachable src maxDstLen s ->
  match_site src s m ->
  (op (out s) <= fst (fst m) ->
     decompress src maxDstLen = Returned LOOKBEHIND_OVERRUN 0 (out s)) /\
  (exists d, 1 <= d /\ fst (fst m) = wrap64 (op (out s) - d) /\
     (op (out s) - d < 0 ->
        decompress src maxDstLen = Returned LOOKBEHIND_OVERRUN 0 (out s)) /\
     (forall s', step src maxDstLen s = Ok s' ->
        fst (fst m) = op (out s) - d /\ 0 <= fst (fst m) < op (out s))).
Proof.
  intros Hm Hr Hsite.
  assert (Hstop : op (out s) <= fst (fst m) ->
            decompress src maxDstLen = Returned LOOKBEHIND_OVERRUN 0 (out s)).
  { intros Hge. apply (reachable_stop src maxDstLen s); [assumption|].
    rewrite (match_site_step s m Hsite).
    unfold commit_match. destruct m as [[mPos mLen] i']. simpl in Hge.
    destruct (Z.leb_spec (op (out s)) mPos); [reflexivity|lia]. }
  split; [exact Hstop|].
  destruct (reachable_inv s (proj1 Hm) Hr) as [Hc Ho].
  destruct (match_site_distance s m Hc Hsite) as (d & Hd & Hpos).
  assert (Hop : 0 <= op (out s)) by (unfold op; lia).
  destruct (wrapped_position (op (out s)) d) as [Hin Hout]; [lia|lia|].
  exists d. split; [lia|]. split; [exact Hpos|]. split.
  - intros Hneg. apply Hstop. rewrite Hpos. apply Hout. lia.
  - intros s' Hs'. rewrite (match_site_step s m Hsite) in Hs'.
    unfold commit_match in Hs'. destruct m as [[mPos mLen] i']. simpl in *.
    destruct (Z.leb_spec (op (out s)) mPos) as [Hle|Hlt]; [discriminate|].
    destruct (Z_lt_le_dec (op (out s)) d) as [Hd'|Hd'].
    + specialize (Hout Hd'). lia.
    + specialize (Hin Hd'). lia.
Qed.


(** *** The far match *)

(** C4.  The position of a far match (control byte 16 to 31) that is not the
    end marker: the write cursor minus [(t & 8) << 11], minus the distance
    [(b0 >> 2) + (b1 << 6)] read from the two bytes behind the length, minus
    0x4000, modulo 2^64; [b0] and [b1] are the last two bytes consumed.  A
    position that passes the look-behind check is that value itself. *)
Theorem M4_match_position t i o mPos mLen i' :
  16 <= t < 32 ->
  op o < 9223372036854775808 ->
  resolve_match src t i o = Ok (mPos, mLen, i') ->
  exists b0 b1,
    (2 <= i')%nat /\
    nth_error src (i' - 2) = Some b0 /\ nth_error src (i' - 1) = Some b1 /\
    let pos := op o - Z.shiftl (Z.land t 8) 11
               - (Z.shiftr (u8 b0) 2 + Z.shiftl (u8 b1) 6) - 16384 in
    mPos = wrap64 pos /\ (mPos < op o -> mPos = pos).
Proof.
  intros Ht Hop E. unfold resolve_match in E.
  destruct (Z.leb_spec 64 t); [lia|]. destruct (Z.leb_spec 32 t); [lia|].
  destruct (Z.leb_spec 16 t); [|lia].
  apply resolve_M4_shape in E.
  destruct E as (i1 & b0 & b1 & _ & -> & Hb0 & Hb1 & _ & ->).
  exists b0, b1. split; [lia|].
  replace (S (S i1) - 2)%nat with i1 by lia.
  replace (S (S i1) - 1)%nat with (S i1) by lia.
  split; [assumption|]. split; [assumption|]. cbv zeta.
  pose proof (shiftr_range (u8 b0) 2). pose proof (u8_range b0).
  pose proof (shiftl_u8 b1 6) as Hs. change (2 ^ 6) with 64 in Hs.
  pose proof (land8_shift t).
  set (d := Z.shiftl (Z.land t 8) 11
            + (Z.shiftr (u8 b0) 2 + Z.shiftl (u8 b1) 6) + 16384).
  assert (Hop0 : 0 <= op o) by (unfold op; lia).
  destruct (wrapped_position (op o) d) as [Hin Hout]; [lia|subst d; lia|].
  replace (op o - Z.shiftl (Z.land t 8) 11
           - (Z.shiftr (u8 b0) 2 + Z.shiftl (u8 b1) 6) - 16384)
    with (op o - d) by (subst d; lia).
  split; [reflexivity|]. intros Hlt.
  destruct (Z_lt_le_dec (op o) d) as [Hd|Hd]; [specialize (Hout Hd); lia|].
  now apply Hin.
Qed.

(** *** Trailing literals *)

Lemma skipn_nth_error {A : Type} (l : list A) : forall i a,
  nth_error l i = Some a -> skipn i l = a :: skipn (S i) l.
Proof.
  induction l as [|x l IH]; intros [|i] a H; simpl in *; try discriminate.
  - now inversion H.
  - now apply IH.
Qed.

Lemma nth_error_in_range {A : Type} (l : list A) i j a :
  nth_error l j = Some a -> (i <= j)%nat -> exists b, nth_error l i = Some b.
Proof.
  intros H Hij. destruct (nth_error l i) eqn:E; [eauto|].
  apply nth_error_None in E.
  assert (j < length l)%nat by (apply nth_error_Some; congruence). lia.
Qed.

Lemma lit1_value i o b :
  nth_error src i = Some b -> op o < maxDstLen ->
  lit1 src maxDstLen i o = Ok (S i, o ++ [b]).
Proof.
  intros Hb Ho. unfold lit1, read_src, write_dst. rewrite Hb. simpl.
  destruct (Z.ltb_spec (op o) maxDstLen); [reflexivity|lia].
Qed.

Lemma match_next_step n i o c :
  1 <= n <= 3 -> op o + n <= maxDstLen ->
  nth_error src (i + Z.to_nat n) = Some c ->
  step src maxDstLen (mkState (L_match_next n) i o) =
  Ok (mkState (L_match (u8 c)) (S (i + Z.to_nat n))
        (o ++ firstn (Z.to_nat n) (skipn i src))).
Proof.
  intros Hn Hroom Hc.
  assert (Hlen : (i + Z.to_nat n < length src)%nat)
    by (apply nth_error_Some; congruence).
  unfold step. simpl.
  destruct (Z.ltb_spec maxDstLen (op o + n)); [lia|].
  unfold srcLen. destruct (Z.ltb_spec (Z.of_nat (length src)) (Z.of_nat i + n)); [lia|].
  destruct (nth_error_in_range src i _ c Hc ltac:(lia)) as [b0 Hb0].
  rewrite (lit1_value i o b0 Hb0) by lia. simpl.
  rewrite (skipn_nth_error src i b0 Hb0).
  assert (Hcases : n = 1 \/ n = 2 \/ n = 3) by lia.
  destruct Hcases as [-> | [-> | ->]].
  - change (Z.to_nat 1) with 1%nat in *.
    replace (i + 1)%nat with (S i) in * by lia. simpl.
    destruct (Z.leb_spec (Z.of_nat (length src)) (Z.of_nat (S i))); [lia|].
    unfold read_src. rewrite Hc. reflexivity.
  - change (Z.to_nat 2) with 2%nat in *.
    replace (i + 2)%nat with (S (S i)) in * by lia.
    destruct (nth_error_in_range src (S i) _ c Hc ltac:(lia)) as [b1 Hb1].
    rewrite (skipn_nth_error src (S i) b1 Hb1). simpl.
    rewrite (lit1_value (S i) (o ++ [b0]) b1 Hb1) by (rewrite op_app; lia).
    simpl.
    destruct (Z.leb_spec (Z.of_nat (length src)) (Z.of_nat (S (S i)))); [lia|].
    unfold read_src. rewrite Hc. simpl. rewrite <- app_assoc. reflexivity.
  - change (Z.to_nat 3) with 3%nat in *.
    replace (i + 3)%nat with (S (S (S i))) in * by lia.
    destruct (nth_error_in_range src (S i) _ c Hc ltac:(lia)) as [b1 Hb1].
    destruct (nth_error_in_range src (S (S i)) _ c Hc ltac:(lia)) as [b2 Hb2].
    rewrite (skipn_nth_error src (S i) b1 Hb1).
    rewrite (skipn_nth_error src (S (S i)) b2 Hb2). simpl.
    rewrite (lit1_value (S i) (o ++ [b0]) b1 Hb1) by (rewrite op_app; lia).
    simpl.
    rewrite (lit1_value (S (S i)) ((o ++ [b0]) ++ [b1]) b2 Hb2)
      by (rewrite !op_app; lia).
    simpl.
    destruct (Z.leb_spec (Z.of_nat (length src)) (Z.of_nat (S (S (S i))))); [lia|].
    unfold read_src. rewrite Hc. simpl. rewrite <- !app_assoc. reflexivity.
Qed.


Lemma match_done_step i o b :
  (2 <= i)%nat -> nth_error src (i - 2) = Some b ->
  step src maxDstLen (mkState L_match_done i o) =
  Ok (mkState (if Z.land (u8 b) 3 =? 0 then L_top (Z.land (u8 b) 3)
               else L_match_next (Z.land (u8 b) 3)) i o).
Proof.
  intros Hi Hb. unfold step. simpl.
  destruct (Nat.ltb_spec i 2); [lia|].
  unfold read_src. rewrite Hb. simpl.
  destruct (Z.land (u8 b) 3 =? 0); reflexivity.
Qed.

(** C3.  At [match_done] of a running call the number of trailing literals
    is [ip[-2] & 3], between 0 and 3.  When it is not 0 the code goes to
    [match_next], copies that many input bytes and reads the next control
    byte, which it dispatches in the match loop.  [ip[-2]] is the first of
    the two distance bytes after a match with control byte 16 to 63, and the
    control byte itself after the other matches. *)
Theorem trailing_literal_count s :
  0 <= maxDstLen ->
  reachable src maxDstLen s ->
  pc s = L_match_done ->
  (exists b,
     (2 <= ip s)%nat /\ nth_error src (ip s - 2) = Some b /\
     let n := Z.land (u8 b) 3 in
     0 <= n <= 3 /\
     (n <> 0 ->
        step src maxDstLen s = Ok (mkState (L_match_next n) (ip s) (out s)) /\
        forall c, op (out s) + n <= maxDstLen ->
          nth_error src (ip s + Z.to_nat n) = Some c ->
          step src maxDstLen (mkState (L_match_next n) (ip s) (out s)) =
          Ok (mkState (L_match (u8 c)) (S (ip s + Z.to_nat n))
                (out s ++ firstn (Z.to_nat n) (skipn (ip s) src)))))
  /\
  (forall s0 m,
     reachable src maxDstLen s0 -> match_site src s0 m ->
     step src maxDstLen s0 = Ok s ->
     match pc s0 with
     | L_match t =>
         if (16 <=? t) && (t <? 64)
         then exists b0 b1,
                nth_error src (ip s - 2) = Some b0 /\
                nth_error src (ip s - 1) = Some b1 /\
                fst (fst m) =
                wrap64 (op (out s0)
                        - ((if 32 <=? t then 1
                            else Z.shiftl (Z.land t 8) 11 + 16384)
                           + (Z.shiftr (u8 b0) 2 + Z.shiftl (u8 b1) 6)))
         else exists b, nth_error src (ip s - 2) = Some b /\ u8 b = t
     | _ =>
         exists b, nth_error src (ip s - 2) = Some b /\
                   nth_error src (ip s0) = Some b /\ u8 b < 16
     end).
Proof.
  intros Hm Hr Hpc. split.
  - destruct (reachable_inv s Hm Hr) as [Hc _].
    unfold control_inv in Hc. rewrite Hpc in Hc.
    destruct (nth_error src (ip s - 2)) as [b|] eqn:Hb;
      [|apply nth_error_None in Hb; lia].
    exists b. split; [lia|]. split; [reflexivity|]. cbv zeta.
    pose proof (land_3_range (u8 b)) as Hn. split; [exact Hn|].
    intros Hnz. destruct s as [l i o]. simpl in *. subst l. split.
    + rewrite (match_done_step i o b) by (assumption || lia).
      destruct (Z.eqb_spec (Z.land (u8 b) 3) 0); [contradiction|reflexivity].
    + intros c Hroom Hcb. apply match_next_step; [lia|assumption|assumption].
  - intros s0 m Hr0 Hsite Hstep.
    destruct (reachable_inv s0 Hm Hr0) as [Hc0 _].
    rewrite (match_site_step s0 m Hsite) in Hstep.
    apply commit_match_Ok in Hstep. destruct Hstep as [_ Hip].
    revert Hc0 Hip.
    destruct Hsite as [t i o [[mPos mLen] i'] E | i o b [[mPos mLen] i'] Hb Ht E];
      intros Hc0 Hip; simpl in *.
    + unfold control_inv in Hc0. simpl in Hc0.
      destruct Hc0 as (c & Hi & Hcb & Hct).
      unfold resolve_match in E.
      destruct (Z.leb_spec 64 t);
        [|destruct (Z.leb_spec 32 t); [|destruct (Z.leb_spec 16 t)]].
      * destruct (Z.leb_spec 16 t); [|lia]. destruct (Z.ltb_spec t 64); [lia|].
        simpl. apply resolve_M2_shape in E. destruct E as (b & _ & -> & _).
        exists c. rewrite Hip. replace (S i - 2)%nat with (i - 1)%nat by lia.
        auto.
      * destruct (Z.leb_spec 16 t); [|lia]. destruct (Z.ltb_spec t 64); [|lia].
        simpl. apply resolve_M3_shape in E.
        destruct E as (i1 & b0 & b1 & _ & -> & Hb0 & Hb1 & ->).
        exists b0, b1. rewrite Hip.
        replace (S (S i1) - 2)%nat with i1 by lia.
        replace (S (S i1) - 1)%nat with (S i1) by lia. auto.
      * destruct (Z.ltb_spec t 64); [|lia].
        simpl. apply resolve_M4_shape in E.
        destruct E as (i1 & b0 & b1 & _ & -> & Hb0 & Hb1 & _ & ->).
        exists b0, b1. rewrite Hip.
        replace (S (S i1) - 2)%nat with i1 by lia.
        replace (S (S i1) - 1)%nat with (S i1) by lia.
        split; [assumption|]. split; [assumption|]. f_equal. lia.
      * destruct (Z.leb_spec 16 t); [lia|].
        simpl. apply resolve_M1_shape in E. destruct E as (b & _ & -> & _).
        exists c. rewrite Hip. replace (S i - 2)%nat with (i - 1)%nat by lia.
        auto.
    + apply resolve_M1_direct_shape in E. destruct E as (c & _ & -> & _).
      exists b. rewrite Hip. replace (S (S i) - 2)%nat with i by lia. auto.
Qed.

End MatchFacts.

(** C1.  The zero-run loop evaluates [*ip == 0] with no bounds check in
    front of its first iteration.  On the one-byte inputs 0x00 and 0x10, for
    every capacity, and on a literal run followed by the control byte 0x20,
    the decoder reads the byte at [src + srcLen]; it does not return
    [INPUT_OVERRUN]. *)
Theorem unchecked_extension_read (maxDstLen : Z) :
  decompress [x00] maxDstLen = Faulted SrcReadOutOfBounds /\
  decompress [x10] maxDstLen = Faulted SrcReadOutOfBounds /\
  decompress [x15; x41; x42; x43; x44; x20] 64 = Faulted SrcReadOutOfBounds.
Proof. repeat split; reflexivity. Qed.

Lemma trailing_count_counterexample :
  let o := [x41; x42; x43; x44; x44; x44; x44; x44] in
  reachable stream_M2 64 (mkState L_match_done 7 o) /\
  spec_trailing_count stream_M2 7 = Some 0 /\
  step stream_M2 64 (mkState L_match_done 7 o) = Ok (mkState (L_match_next 1) 7 o) /\
  decompress stream_M2 64 = Returned OK 9 (o ++ [x58]).
Proof.
  cbv zeta. split; [|repeat split; reflexivity].
  exists 3%nat.
  eapply steps_more; [reflexivity|].
  eapply steps_more; [reflexivity|].
  eapply steps_more; [reflexivity|].
  apply steps_here.
Qed.

(** *** Copies and concrete runs *)

Section Copies.

Variable src : list byte.
Variable maxDstLen : Z.

Lemma run_step_Ok fuel s s' :
  step src maxDstLen s = Ok s' ->
  run src maxDstLen (S fuel) s = run src maxDstLen fuel s'.
Proof. intros H. simpl. now rewrite H. Qed.

Lemma run_step_Stop fuel s o :
  step src maxDstLen s = Stop o -> run src maxDstLen (S fuel) s = o.
Proof. intros H. simpl. now rewrite H. Qed.

Lemma wrap32_small x : 0 <= x < 4294967296 -> wrap32 x = x.
Proof. unfold wrap32. apply Z.mod_small. Qed.

(** A literal copy with room on both sides copies exactly [t] bytes. *)
Lemma lit_copy_exact rest : forall t i o,
  1 <= t < 4294967296 -> t <= Z.of_nat (length rest) ->
  op o + t <= maxDstLen ->
  lit_copy maxDstLen rest t i o =
  Ok ((i + Z.to_nat t)%nat, o ++ firstn (Z.to_nat t) rest).
Proof.
  induction rest as [|b rest IH]; intros t i o Ht Hlen Hroom.
  - simpl in Hlen. lia.
  - simpl lit_copy. unfold write_dst.
    destruct (Z.ltb_spec (op o) maxDstLen); [|lia]. simpl bind.
    rewrite wrap32_small by lia.
    replace (Z.to_nat t) with (S (Z.to_nat (t - 1))) by lia.
    destruct (Z.ltb_spec 0 (t - 1)).
    + rewrite IH; [|lia|simpl length in Hlen; lia|rewrite op_app; lia].
      simpl firstn. rewrite <- app_assoc. simpl app.
      f_equal. f_equal. lia.
    + replace (t - 1) with 0 by lia. simpl. f_equal. f_equal. lia.
Qed.

Lemma literal_run_exact t i o :
  1 <= t < 4294967296 -> op o + t <= maxDstLen ->
  Z.of_nat i + t <= srcLen src ->
  literal_run src maxDstLen t i o =
  Ok (mkState L_first_literal_run (i + Z.to_nat t)
        (o ++ firstn (Z.to_nat t) (skipn i src))).
Proof.
  intros Ht Hroom Hlen. unfold literal_run.
  destruct (Z.ltb_spec maxDstLen (op o + t)); [lia|].
  destruct (Z.ltb_spec (srcLen src) (Z.of_nat i + t)); [lia|].
  rewrite lit_copy_exact; [reflexivity|lia| |lia].
  rewrite length_skipn. unfold srcLen in *. lia.
Qed.

(** When the 32-bit literal count has wrapped to 0 the [do ... while] runs
    2^32 times with no check left in front of it: it writes past any
    destination shorter than the rest of the source. *)
Lemma lit_copy_overrun rest : forall t i o,
  0 <= t < 4294967296 ->
  op o <= maxDstLen ->
  maxDstLen - op o < Z.of_nat (length rest) ->
  maxDstLen - op o < (if t =? 0 then 4294967296 else t) ->
  lit_copy maxDstLen rest t i o = Stop (Faulted DstWriteOutOfBounds).
Proof.
  induction rest as [|b rest IH]; intros t i o Ht Ho Hlen Hcnt.
  - simpl in Hlen. lia.
  - simpl lit_copy. unfold write_dst.
    destruct (Z.ltb_spec (op o) maxDstLen); [|reflexivity]. simpl bind.
    assert (Hw : wrap32 (t - 1) = if t =? 0 then 4294967295 else t - 1).
    { destruct (Z.eqb_spec t 0) as [->|]; [reflexivity|].
      apply wrap32_small. lia. }
    rewrite Hw.
    destruct (Z.eqb_spec t 0) as [->|Hnz].
    + simpl (0 <? _). cbv iota. apply IH.
      * lia.
      * rewrite op_app. lia.
      * rewrite op_app. simpl length in Hlen. lia.
      * rewrite op_app. simpl. lia.
    + destruct (Z.ltb_spec 0 (t - 1)); [|lia].
      apply IH.
      * lia.
      * rewrite op_app. lia.
      * rewrite op_app. simpl length in Hlen. lia.
      * rewrite op_app. destruct (Z.eqb_spec (t - 1) 0); lia.
Qed.

End Copies.

Lemma zero_run_zeros src o b rest' : forall k i acc,
  u8 b <> 0 ->
  0 <= acc -> acc + 255 * Z.of_nat k < 4294967296 ->
  Z.of_nat (i + k) < srcLen src ->
  zero_run src wrap32 (repeat x00 k ++ b :: rest') i acc o =
  Ok (acc + 255 * Z.of_nat k, (i + k)%nat).
Proof.
  induction k as [|k IH]; intros i acc Hb Hacc Hsum Hlen.
  - simpl. destruct (Z.eqb_spec (u8 b) 0); [contradiction|].
    f_equal. f_equal; lia.
  - simpl repeat. simpl app. simpl zero_run.
    change (u8 x00 =? 0) with true. cbv iota.
    destruct (Z.leb_spec (srcLen src) (Z.of_nat (S i))); [lia|].
    rewrite wrap32_small by lia.
    rewrite IH by (assumption || lia).
    f_equal. f_equal; lia.
Qed.

Lemma skipn_repeat_app {A : Type} (a b : A) (l : list A) k :
  skipn (S k) (repeat a k ++ b :: l) = l.
Proof. induction k as [|k IH]; simpl; auto. Qed.

Lemma nth_error_repeat_app {A : Type} (a b : A) (l : list A) k :
  nth_error (repeat a k ++ b :: l) k = Some b.
Proof. induction k as [|k IH]; simpl; auto. Qed.

(** The literal-run count is a [uint32_t]: after 16843008 zero extension
    bytes and the extension byte 0xEE, [t + 3] is 2^32 and wraps to 0, both
    overrun checks pass, and the copy loop runs unchecked. *)
Lemma literal_count_wraps (k : nat) (payload : list byte) (m : Z) :
  Z.of_nat k = 16843008 ->
  0 <= m < Z.of_nat (length payload) -> m < 4294967296 ->
  decompress (x00 :: repeat x00 k ++ xee :: payload) m =
  Faulted DstWriteOutOfBounds.
Proof.
  intros Hk Hm Hm32.
  set (src := x00 :: repeat x00 k ++ xee :: payload).
  assert (Hlen : srcLen src = Z.of_nat k + 2 + Z.of_nat (length payload)).
  { unfold srcLen, src. simpl length. rewrite length_app, repeat_length.
    simpl length. lia. }
  assert (H1 : step src m initial = Ok (mkState (L_top 0) 1 [])).
  { unfold step, initial. simpl pc. simpl ip. simpl out.
    destruct (Z.eqb_spec (srcLen src) 0); [lia|].
    destruct (Z.leb_spec (srcLen src) (Z.of_nat 0)); [lia|].
    reflexivity. }
  assert (H2 : step src m (mkState (L_top 0) 1 []) =
               Stop (Faulted DstWriteOutOfBounds)).
  { unfold step. simpl pc. simpl ip. simpl out.
    change (0 <? 16) with true. cbv iota.
    unfold extended_length. change (0 =? 0) with true. cbv iota.
    change (skipn 1 src) with (repeat x00 k ++ xee :: payload).
    rewrite zero_run_zeros; [|discriminate|lia|lia|lia].
    cbn [bind].
    assert (Hr : read_src src (1 + k) = Ok xee).
    { unfold read_src, src. simpl nth_error.
      now rewrite nth_error_repeat_app. }
    rewrite Hr. cbn [bind].
    assert (Ht : wrap32 (wrap32 (0 + 255 * Z.of_nat k + (15 + u8 xee)) + 3) = 0).
    { rewrite Hk. reflexivity. }
    rewrite Ht. unfold literal_run.
    change (op []) with 0.
    destruct (Z.ltb_spec m (0 + 0)); [lia|].
    destruct (Z.ltb_spec (srcLen src) (Z.of_nat (S (1 + k)) + 0)); [lia|].
    assert (Hs : skipn (S (1 + k)) src = payload).
    { unfold src. change (S (1 + k)) with (S (S k)).
      change (skipn (S (S k)) (x00 :: repeat x00 k ++ xee :: payload))
        with (skipn (S k) (repeat x00 k ++ xee :: payload)).
      apply skipn_repeat_app. }
    rewrite Hs.
    rewrite lit_copy_overrun; [reflexivity|lia| | |];
      change (op []) with 0; simpl; lia. }
  unfold decompress.
  rewrite (run_step_Ok src m _ _ _ H1).
  replace (4 * length src)%nat with (S (4 * length src - 1))
    by (unfold srcLen in Hlen; lia).
  apply run_step_Stop. exact H2.
Qed.

(** C2.  A literal run whose 32-bit length wraps to 0: control byte 0,
    16843009 zero bytes and the byte 0xEE give [t + 3 = 2^32].  Both checks
    pass with [t = 0], the [do ... while (--t > 0)] copy runs 2^32 times, and
    with a capacity of 65536 and 65537 bytes of input left it writes at
    [dst + 65536]. *)
Theorem literal_length_wraparound_overruns_dst :
  decompress (x00 :: repeat x00 (Z.to_nat 16843008)
                ++ xee :: repeat x41 (Z.to_nat 65537)) 65536 =
  Faulted DstWriteOutOfBounds.
Proof.
  apply literal_count_wraps.
  - lia.
  - rewrite repeat_length. lia.
  - lia.
Qed.

(** C6.  The 19-byte stream 0x20, "ABCDEFGHIJKLMNO", 0x11 0x00 0x00 decodes
    with [OK] to the 15 bytes of the text in every destination of capacity
    15 or more. *)
Theorem literal_run_scenario (maxDstLen : Z) :
  15 <= maxDstLen ->
  decompress literal_stream maxDstLen = Returned OK 15 literal_text.
Proof.
  intros Hm.
  assert (H1 : step literal_stream maxDstLen initial =
               Ok (mkState L_first_literal_run 16 literal_text)).
  { change (step literal_stream maxDstLen initial)
      with (literal_run literal_stream maxDstLen 15 1 []).
    rewrite literal_run_exact; [reflexivity|lia| |].
    - change (op []) with 0. lia.
    - change (srcLen literal_stream) with 19. lia. }
  unfold decompress.
  change (S (4 * length literal_stream)) with 77%nat.
  rewrite (run_step_Ok _ _ _ _ _ H1).
  rewrite (run_step_Ok _ _ _ _ (mkState (L_match 17) 17 literal_text));
    [|reflexivity].
  apply run_step_Stop. reflexivity.
Qed.

Lemma literal_run_scenario_witness :
  15 <= 15 /\ decompress literal_stream 15 = Returned OK 15 literal_text.
Proof. split; [lia | apply (literal_run_scenario 15); lia]. Defined.

Example end_marker_only : decompress [x11; x00; x00] 0 = Returned OK 0 [].
Proof. reflexivity. Qed.

(** A destination one byte short is refused before anything is written. *)
Example literal_run_scenario_short :
  decompress literal_stream 14 = Returned OUTPUT_OVERRUN 0 [].
Proof. reflexivity. Qed.

Lemma M4_position_counterexample :
  let o := [x41; x42; x43; x44] in
  reachable stream_M4 64 (mkState (L_match 17) 6 o) /\
  nth_error stream_M4 6 = Some x04 /\ nth_error stream_M4 7 = Some x00 /\
  spec_M4_position (op o) 17 (u8 x04) (u8 x00) = 3 /\
  resolve_match stream_M4 17 6 o = Ok (18446744073709535235, 3, 8%nat) /\
  decompress stream_M4 64 = Returned LOOKBEHIND_OVERRUN 0 o /\
  resolve_match [x11; x04; x00] 17 1 (repeat x41 (Z.to_nat 20000)) =
    Ok (3615, 3, 3%nat) /\
  spec_M4_position 20000 17 (u8 x04) (u8 x00) = 19999.
Proof.
  cbv zeta. split; [|repeat split; vm_compute; reflexivity].
  exists 2%nat.
  eapply steps_more; [reflexivity|].
  eapply steps_more; [reflexivity|].
  apply steps_here.
Qed.

Lemma M4_match_position_witness :
  let src := [x11; x04; x00] in
  let o := repeat x41 (Z.to_nat 20000) in
  16 <= 17 < 32 /\
  op o < 9223372036854775808 /\
  resolve_match src 17 1 o = Ok (3615, 3, 3%nat) /\
  exists b0 b1,
    (2 <= 3)%nat /\
    nth_error src (3 - 2) = Some b0 /\ nth_error src (3 - 1) = Some b1 /\
    let pos := op o - Z.shiftl (Z.land 17 8) 11
               - (Z.shiftr (u8 b0) 2 + Z.shiftl (u8 b1) 6) - 16384 in
    3615 = wrap64 pos /\ (3615 < op o -> 3615 = pos).
Proof.
  cbv zeta.
  split; [lia|]. split; [vm_compute; reflexivity|].
  split; [vm_compute; reflexivity|].
  apply (M4_match_position [x11; x04; x00] 17 1
           (repeat x41 (Z.to_nat 20000)) 3615 3 3%nat).
  - lia.
  - vm_compute. reflexivity.
  - vm_compute. reflexivity.
Defined.

Lemma stream_M4_reaches_match :
  reachable stream_M4 64 (mkState (L_match 17) 6 [x41; x42; x43; x44]).
Proof.
  exists 2%nat.
  eapply steps_more; [reflexivity|].
  eapply steps_more; [reflexivity|].
  apply steps_here.
Defined.

Lemma lookbehind_overrun_returns_witness :
  let o := [x41; x42; x43; x44] in
  let s := mkState (L_match 17) 6 o in
  let m := (18446744073709535235, 3, 8%nat) in
  0 <= 64 < 9223372036854775808 /\
  reachable stream_M4 64 s /\
  match_site stream_M4 s m /\
  (op (out s) <= fst (fst m) ->
     decompress stream_M4 64 = Returned LOOKBEHIND_OVERRUN 0 (out s)) /\
  (exists d, 1 <= d /\ fst (fst m) = wrap64 (op (out s) - d) /\
     (op (out s) - d < 0 ->
        decompress stream_M4 64 = Returned LOOKBEHIND_OVERRUN 0 (out s)) /\
     (forall s', step stream_M4 64 s = Ok s' ->
        fst (fst m) = op (out s) - d /\ 0 <= fst (fst m) < op (out s))).
Proof.
  cbv zeta.
  assert (Hsite : match_site stream_M4
                    (mkState (L_match 17) 6 [x41; x42; x43; x44])
                    (18446744073709535235, 3, 8%nat))
    by (apply site_loop; reflexivity).
  split; [lia|]. split; [exact stream_M4_reaches_match|].
  split; [exact Hsite|].
  apply (lookbehind_overrun_returns stream_M4 64 _ _
           ltac:(lia) stream_M4_reaches_match Hsite).
Defined.

Lemma stream_M2_reaches_match_done :
  reachable stream_M2 64
    (mkState L_match_done 7 [x41; x42; x43; x44; x44; x44; x44; x44]).
Proof.
  exists 3%nat.
  eapply steps_more; [reflexivity|].
  eapply steps_more; [reflexivity|].
  eapply steps_more; [reflexivity|].
  apply steps_here.
Defined.

Lemma trailing_literal_count_witness :
  let src := stream_M2 in
  let s := mkState L_match_done 7 [x41; x42; x43; x44; x44; x44; x44; x44] in
  0 <= 64 /\
  reachable src 64 s /\
  pc s = L_match_done /\
  (exists b,
     (2 <= ip s)%nat /\ nth_error src (ip s - 2) = Some b /\
     let n := Z.land (u8 b) 3 in
     0 <= n <= 3 /\
     (n <> 0 ->
        step src 64 s = Ok (mkState (L_match_next n) (ip s) (out s)) /\
        forall c, op (out s) + n <= 64 ->
          nth_error src (ip s + Z.to_nat n) = Some c ->
          step src 64 (mkState (L_match_next n) (ip s) (out s)) =
          Ok (mkState (L_match (u8 c)) (S (ip s + Z.to_nat n))
                (out s ++ firstn (Z.to_nat n) (skipn (ip s) src)))))
  /\
  (forall s0 m,
     reachable src 64 s0 -> match_site src s0 m ->
     step src 64 s0 = Ok s ->
     match pc s0 with
     | L_match t =>
         if (16 <=? t) && (t <? 64)
         then exists b0 b1,
                nth_error src (ip s - 2) = Some b0 /\
                nth_error src (ip s - 1) = Some b1 /\
                fst (fst m) =
                wrap64 (op (out s0)
                        - ((if 32 <=? t then 1
                            else Z.shiftl (Z.land t 8) 11 + 16384)
                           + (Z.shiftr (u8 b0) 2 + Z.shiftl (u8 b1) 6)))
         else exists b, nth_error src (ip s - 2) = Some b /\ u8 b = t
     | _ =>
         exists b, nth_error src (ip s - 2) = Some b /\
                   nth_error src (ip s0) = Some b /\ u8 b < 16
     end).
Proof.
  cbv zeta.
  split; [lia|]. split; [exact stream_M2_reaches_match_done|].
  split; [reflexivity|].
  apply (trailing_literal_count stream_M2 64
           (mkState L_match_done 7 [x41; x42; x43; x44; x44; x44; x44; x44])
           ltac:(lia) stream_M2_reaches_match_done eq_refl).
Defined.

(** With no trailing literal the code leaves the inner loop with [t = 0] and
    the outer loop takes that 0 for a literal-run control byte: the bytes
    that follow are consumed as a run length, not as a fresh control byte.
    A match followed directly by the end marker is therefore not decoded. *)
Example zero_trailing_count_reenters_literal_run :
  let src := [x15; x41; x42; x43; x44; x40; x00; x11; x00; x00] in
  let o := [x41; x42; x43; x44; x44; x44; x44; x44] in
  step src 64 (mkState L_match_done 7 o) = Ok (mkState (L_top 0) 7 o) /\
  decompress src 64 = Returned INPUT_OVERRUN 0 o.
Proof. split; reflexivity. Qed.

(** * Where a call stops, and with what *)

Lemma bind_Stop {A B : Type} (m : exec A) (k : A -> exec B) (o : outcome) :
  bind m k = Stop o -> m = Stop o \/ exists a, m = Ok a /\ k a = Stop o.
Proof. destruct m as [a|o']; simpl; intros H; [eauto | left; congruence]. Qed.

Lemma Stop_inj {A : Type} (o o' : outcome) : @Stop A o = Stop o' -> o = o'.
Proof. congruence. Qed.

Section Stops.

Variable src : list byte.
Variable maxDstLen : Z.

Lemma run_stops : forall fuel s o,
  run src maxDstLen fuel s = o -> o <> Exhausted ->
  exists k s', steps src maxDstLen k s s' /\ step src maxDstLen s' = Stop o.
Proof.
  induction fuel as [|fuel IH]; intros s o Hrun Hne; simpl in Hrun.
  - congruence.
  - destruct (step src maxDstLen s) as [s1|o1] eqn:E.
    + destruct (IH s1 o Hrun Hne) as (k & s' & Hk & Hs).
      exists (S k), s'. split; [|assumption].
      eapply steps_more; eassumption.
    + subst o1. exists 0%nat, s. split; [apply steps_here|assumption].
Qed.

(** Every call ends at a reachable state whose step returns the result. *)
Lemma decompress_stops_at :
  exists s, reachable src maxDstLen s /\
            step src maxDstLen s = Stop (decompress src maxDstLen).
Proof.
  destruct (run_stops (S (4 * length src)) initial (decompress src maxDstLen)
              eq_refl (decompress_completes src maxDstLen))
    as (k & s & Hk & Hs).
  exists s. split; [exists k; assumption|assumption].
Qed.

(** [skipn] and [nth_error] *)
Lemma skipn_cons_inv {A : Type} (l : list A) : forall i a rest,
  skipn i l = a :: rest -> nth_error l i = Some a /\ skipn (S i) l = rest.
Proof.
  induction l as [|x l IH]; intros [|i] a rest H; simpl in *; try discriminate.
  - inversion H; subst. auto.
  - apply IH in H. exact H.
Qed.

Lemma skipn_nil_inv {A : Type} (l : list A) i :
  skipn i l = [] -> (length l <= i)%nat.
Proof.
  intros H. pose proof (length_skipn i l) as Hl. rewrite H in Hl.
  simpl in Hl. lia.
Qed.

(** The zero-run loop started on the unread suffix: it stops on input
    overrun, or faults when there is no byte at all at the cursor; when it
    goes on, it stands on a non-zero byte and has added 255 per zero byte. *)
Lemma zero_run_spec (wrap : Z -> Z) (B : Z) o :
  (forall x, 0 <= x < B -> wrap x = x) ->
  forall n i acc,
    (length src - i <= n)%nat ->
    0 <= acc -> acc + 255 * Z.of_nat (length src - i) < B ->
    match zero_run src wrap (skipn i src) i acc o with
    | Ok (v, j) =>
        (i <= j)%nat /\ v = acc + 255 * Z.of_nat (j - i) /\
        exists b, nth_error src j = Some b /\ u8 b <> 0
    | Stop oo =>
        oo = Returned INPUT_OVERRUN 0 o \/
        (oo = Faulted SrcReadOutOfBounds /\ (length src <= i)%nat)
    end.
Proof.
  intros Hwrap. induction n as [|n IH]; intros i acc Hn Hacc Hsum.
  - rewrite skipn_all2 by lia. simpl. right. split; [reflexivity|lia].
  - destruct (skipn i src) as [|b rest] eqn:Hs.
    + simpl. right. split; [reflexivity|]. now apply skipn_nil_inv.
    + apply skipn_cons_inv in Hs. destruct Hs as [Hb Hrest].
      assert (Hi : (i < length src)%nat) by (apply nth_error_Some; congruence).
      cbn [zero_run]. destruct (Z.eqb_spec (u8 b) 0) as [Hz|Hnz].
      * destruct (Z.leb_spec (srcLen src) (Z.of_nat (S i))).
        { left. reflexivity. }
        rewrite <- Hrest. rewrite Hwrap by lia.
        specialize (IH (S i) (acc + 255)).
        destruct (zero_run src wrap (skipn (S i) src) (S i) (acc + 255) o)
          as [[v j]|oo].
        -- destruct IH as (Hij & Hv & Hex); [lia|lia|lia|].
           split; [lia|]. split; [|exact Hex]. rewrite Hv. lia.
        -- destruct IH as [IH|[IH Hlen]]; [lia|lia|lia|auto|].
           unfold srcLen in *. lia.
      * split; [lia|]. split; [rewrite Nat.sub_diag; lia|]. eauto.
Qed.


Ltac stop_split H :=
  repeat match type of H with
  | bind ?m _ = Stop _ =>
      let E := fresh "E" in destruct m eqn:E; cbn [bind] in H
  | (if ?c then _ else _) = Stop _ => destruct c eqn:?
  | (let '(_, _) := ?p in _) = Stop _ => destruct p
  end.

Ltac stops_leaf :=
  unfold stops_with, fail in *;
  match goal with
  | H : Stop _ = Stop _ |- _ => apply Stop_inj in H; subst; tauto
  | H : Ok _ = Stop _ |- _ => discriminate H
  end.

Lemma read_src_Stop i oo o :
  read_src src i = Stop oo -> stops_with o oo.
Proof.
  unfold read_src. destruct (nth_error src i); intros H; stops_leaf.
Qed.

Lemma write_dst_Stop w b oo o :
  write_dst maxDstLen w b = Stop oo -> stops_with o oo.
Proof.
  unfold write_dst. destruct (op w <? maxDstLen); intros H; stops_leaf.
Qed.

Lemma zero_run_Stop wrap rest : forall i acc o oo,
  zero_run src wrap rest i acc o = Stop oo -> stops_with o oo.
Proof.
  induction rest as [|b rest IH]; cbn [zero_run]; intros i acc o oo H.
  - stops_leaf.
  - stop_split H; try stops_leaf. eapply IH; eassumption.
Qed.

Lemma extended_length_Stop wrap bias low i o oo :
  extended_length src wrap bias low i o = Stop oo -> stops_with o oo.
Proof.
  unfold extended_length. intros H. stop_split H; try stops_leaf.
  - apply Stop_inj in H. subst. eapply read_src_Stop; eassumption.
  - apply Stop_inj in H. subst. eapply zero_run_Stop; eassumption.
Qed.

Lemma lit_copy_Stop rest : forall t i w oo o,
  lit_copy maxDstLen rest t i w = Stop oo -> stops_with o oo.
Proof.
  induction rest as [|b rest IH]; cbn [lit_copy]; intros t i w oo o H.
  - stops_leaf.
  - stop_split H; try stops_leaf.
    + eapply IH; eassumption.
    + apply Stop_inj in H. subst. eapply write_dst_Stop; eassumption.
Qed.

Lemma lit1_Stop i w oo o :
  lit1 src maxDstLen i w = Stop oo -> stops_with o oo.
Proof.
  unfold lit1. intros H. stop_split H; try stops_leaf.
  - apply Stop_inj in H. subst. eapply write_dst_Stop; eassumption.
  - apply Stop_inj in H. subst. eapply read_src_Stop; eassumption.
Qed.

(** A match copy that starts inside the written prefix stays inside it: the
    source cursor follows the write cursor at the same distance. *)
Lemma match_copy_Stop n : forall mSrc w oo,
  (mSrc < length w)%nat ->
  match_copy maxDstLen n mSrc w = Stop oo -> oo = Faulted DstWriteOutOfBounds.
Proof.
  induction n as [|n IH]; cbn [match_copy]; intros mSrc w oo Hlt H.
  - discriminate.
  - unfold read_dst in H.
    destruct (nth_error w mSrc) as [b|] eqn:Hb;
      [|apply nth_error_None in Hb; lia].
    cbn [bind] in H. unfold write_dst in H.
    destruct (op w <? maxDstLen); cbn [bind] in H.
    + eapply IH; [|exact H]. rewrite length_app. simpl. lia.
    + now apply Stop_inj in H.
Qed.


Ltac stops_sub :=
  match goal with
  | H : Stop _ = Stop _ |- _ => apply Stop_inj in H; subst
  end;
  match goal with
  | E : read_src _ _ = Stop _ |- _ => eapply read_src_Stop; exact E
  | E : extended_length _ _ _ _ _ _ = Stop _ |- _ =>
      eapply extended_length_Stop; exact E
  | E : lit_copy _ _ _ _ _ = Stop _ |- _ => eapply lit_copy_Stop; exact E
  | E : lit1 _ _ _ _ = Stop _ |- _ => eapply lit1_Stop; exact E
  end.

Lemma resolve_match_Stop t i o oo :
  resolve_match src t i o = Stop oo -> stops_with o oo.
Proof.
  unfold resolve_match, resolve_M1, resolve_M2, resolve_M3, resolve_M4.
  intros H. stop_split H; first [stops_leaf | stops_sub].
Qed.

Lemma resolve_M1_direct_Stop t i o oo :
  resolve_M1_direct src t i o = Stop oo -> stops_with o oo.
Proof.
  unfold resolve_M1_direct.
  intros H. stop_split H; first [stops_leaf | stops_sub].
Qed.

Lemma resolve_match_nonneg t i o mPos mLen i' :
  resolve_match src t i o = Ok (mPos, mLen, i') -> 0 <= mPos.
Proof.
  unfold resolve_match. intros H.
  destruct (64 <=? t); [|destruct (32 <=? t); [|destruct (16 <=? t)]].
  - apply resolve_M2_shape in H. destruct H as (b & _ & _ & ->).
    apply wrap64_range.
  - apply resolve_M3_shape in H.
    destruct H as (i1 & b0 & b1 & _ & _ & _ & _ & ->). apply wrap64_range.
  - apply resolve_M4_shape in H.
    destruct H as (i1 & b0 & b1 & _ & _ & _ & _ & _ & ->). apply wrap64_range.
  - apply resolve_M1_shape in H. destruct H as (b & _ & _ & _ & ->).
    apply wrap64_range.
Qed.

Lemma resolve_M1_direct_nonneg t i o mPos mLen i' :
  resolve_M1_direct src t i o = Ok (mPos, mLen, i') -> 0 <= mPos.
Proof.
  intros H. apply resolve_M1_direct_shape in H.
  destruct H as (b & _ & _ & _ & ->). apply wrap64_range.
Qed.

Lemma commit_match_Stop mPos mLen i' o oo :
  0 <= mPos ->
  commit_match maxDstLen (mPos, mLen, i') o = Stop oo -> stops_with o oo.
Proof.
  unfold commit_match. intros Hpos H.
  destruct (Z.leb_spec (op o) mPos); [stops_leaf|].
  destruct (maxDstLen <? op o + mLen); [stops_leaf|].
  destruct (match_copy maxDstLen (do_while_count mLen) (Z.to_nat mPos) o)
    as [o'|o1] eqn:E; cbn [bind] in H; [discriminate|].
  apply Stop_inj in H. subst o1.
  apply match_copy_Stop in E; [|unfold op in *; lia].
  unfold stops_with. tauto.
Qed.

Lemma literal_run_Stop t i o oo :
  literal_run src maxDstLen t i o = Stop oo -> stops_with o oo.
Proof.
  unfold literal_run. intros H. stop_split H; first [stops_leaf | stops_sub].
Qed.

(** What a call can return, read at the step where it stops. *)
Lemma step_Stop s oo :
  step src maxDstLen s = Stop oo ->
  (exists w, stops_with w oo /\
             (op (out s) <= maxDstLen -> op w <= maxDstLen)) \/
  (oo = Returned INVALID_DATA 0 (out s) /\ src = [] /\ pc s = L_start).
Proof.
  unfold step. destruct s as [l i o]; cbn [pc ip out]. intros H.
  destruct l.
  - destruct (Z.eqb_spec (srcLen src) 0) as [Hz|Hnz].
    + right. apply Stop_inj in H. subst. repeat split.
      unfold srcLen in Hz. destruct src; [reflexivity|simpl in Hz; lia].
    + left. exists o. split; [|tauto].
      stop_split H; first [stops_leaf | stops_sub
                          | apply Stop_inj in H; subst;
                            eapply literal_run_Stop; eassumption
                          | eapply literal_run_Stop; eassumption ].
  - left. exists o. split; [|tauto].
    stop_split H; first [stops_leaf | stops_sub
                        | eapply literal_run_Stop; eassumption ].
  - left. exists o. split; [|tauto].
    destruct (srcLen src <=? Z.of_nat i); [stops_leaf|].
    destruct (read_src src i) as [b|o1] eqn:Eb; cbn [bind] in H;
      [|stops_sub].
    destruct (u8 b <? 16); [|discriminate].
    destruct (resolve_M1_direct src (u8 b) (S i) o)
      as [[[mPos mLen] i']|o1] eqn:Er; cbn [bind] in H.
    + eapply commit_match_Stop; [|eassumption].
      eapply resolve_M1_direct_nonneg; eassumption.
    + apply Stop_inj in H. subst.
      eapply resolve_M1_direct_Stop; eassumption.
  - left. exists o. split; [|tauto].
    destruct (resolve_match src t i o)
      as [[[mPos mLen] i']|o1] eqn:Er; cbn [bind] in H.
    + eapply commit_match_Stop; [|eassumption].
      eapply resolve_match_nonneg; eassumption.
    + apply Stop_inj in H. subst. eapply resolve_match_Stop; eassumption.
  - left. exists o. split; [|tauto].
    stop_split H; first [stops_leaf | stops_sub].
  - left.
    destruct (maxDstLen <? op o + t); [exists o; split; [stops_leaf|tauto]|].
    destruct (srcLen src <? Z.of_nat i + t);
      [exists o; split; [stops_leaf|tauto]|].
    destruct (lit1 src maxDstLen i o) as [[i1 o1]|o1] eqn:E1; cbn [bind] in H;
      [|exists o; split; [stops_sub|tauto]].
    pose proof (lit1_room _ _ _ _ _ _ E1) as Ho1.
    destruct (1 <? t).
    + destruct (lit1 src maxDstLen i1 o1) as [[i2 o2]|o2] eqn:E2;
        cbn [bind] in H; [|exists o; split; [stops_sub|tauto]].
      pose proof (lit1_room _ _ _ _ _ _ E2) as Ho2.
      destruct (2 <? t).
      * destruct (lit1 src maxDstLen i2 o2) as [[i3 o3]|o3] eqn:E3;
          cbn [bind] in H; [|exists o; split; [stops_sub|tauto]].
        pose proof (lit1_room _ _ _ _ _ _ E3) as Ho3.
        exists o3. split; [|intros _; exact Ho3].
        stop_split H; first [stops_leaf | stops_sub].
      * cbn [bind] in H. exists o2. split; [|intros _; exact Ho2].
        stop_split H; first [stops_leaf | stops_sub].
    + cbn [bind] in H. exists o1. split; [|intros _; exact Ho1].
      stop_split H; first [stops_leaf | stops_sub].
Qed.


Lemma decompress_stops_with :
  (exists w, decompress src maxDstLen <> Exhausted /\
             stops_with w (decompress src maxDstLen) /\
             (0 <= maxDstLen -> op w <= maxDstLen)) \/
  (decompress src maxDstLen = Returned INVALID_DATA 0 [] /\ src = []).
Proof.
  destruct decompress_stops_at as (s & Hr & Hs).
  destruct (step_Stop s _ Hs) as [(w & Hw & Hroom)|(Ho & Hsrc & Hpc)].
  - left. exists w. split; [apply decompress_completes|]. split; [assumption|].
    intros Hm. apply Hroom. now apply (reachable_inv src maxDstLen s Hm Hr).
  - right. split; [|assumption]. subst src. reflexivity.
Qed.

Lemma result_accounting r n w :
  0 <= maxDstLen ->
  decompress src maxDstLen = Returned r n w ->
  Z.of_nat (length w) <= maxDstLen /\
  (r = OK -> n = length w) /\
  (r <> OK -> n = 0%nat).
Proof.
  intros Hm H.
  destruct decompress_stops_with as [(w' & _ & Hw & Hroom)|[Hinv _]].
  - rewrite H in Hw. specialize (Hroom Hm). unfold stops_with in Hw.
    destruct Hw as [Hw|[Hw|[Hw|[Hw|[Hw|Hw]]]]]; try discriminate;
      inversion Hw; subst; (split; [exact Hroom|]); split; congruence.
  - rewrite H in Hinv. inversion Hinv; subst.
    split; [simpl; lia|]. split; congruence.
Qed.


(** X2.  No call reads the destination outside what it has written: a match
    copy starts below the write cursor (the look-behind check) and its
    source stays below it while both advance. *)
Theorem decompress_reads_only_written_output :
  decompress src maxDstLen <> Faulted DstReadOutOfBounds.
Proof.
  destruct decompress_stops_with as [(w' & _ & Hw & _)|[Hinv _]].
  - unfold stops_with in Hw. intros E. rewrite E in Hw.
    destruct Hw as [Hw|[Hw|[Hw|[Hw|[Hw|Hw]]]]]; discriminate.
  - rewrite Hinv. discriminate.
Qed.


(** ** Faults on inputs of at most 16 MiB *)

Lemma step_top_inv s s' :
  control_inv src s -> step src maxDstLen s = Ok s' -> top_inv src s'.
Proof.
  unfold step, control_inv, top_inv. destruct s as [l i o]; cbn [pc ip out].
  destruct l; intros Hinv H; exec_inv; cbn [pc ip out];
    repeat match goal with
    | E : read_src _ _ = Ok _ |- _ => apply read_src_Ok in E; destruct E as [? E]
    | E : literal_run _ _ _ _ _ = Ok _ |- _ =>
        apply literal_run_Ok in E; destruct E as [-> E]
    | E : commit_match _ ?m _ = Ok ?s1 |- _ =>
        apply commit_match_Ok in E; destruct E as [E _]; rewrite E
    end; try exact I.
  - pose proof (u8_range x). lia.
  - pose proof (land_3_range (u8 x)). lia.
Qed.

Lemma reachable_top_inv s : reachable src maxDstLen s -> top_inv src s.
Proof.
  intros [k Hk].
  assert (Hgen : forall k s0 s1, steps src maxDstLen k s0 s1 ->
                   control_inv src s0 /\ top_inv src s0 ->
                   control_inv src s1 /\ top_inv src s1).
  { clear. induction 1 as [s|k s s1 s' E _ IH]; [auto|].
    intros [Hc Ht]. apply IH. split.
    - eapply step_control; eassumption.
    - eapply step_top_inv; eassumption. }
  apply (Hgen k initial s Hk). split; exact I.
Qed.


Lemma read_src_value i b :
  nth_error src i = Some b -> read_src src i = Ok b.
Proof. intros H. unfold read_src. now rewrite H. Qed.

Lemma read_src_in_range i :
  (i < length src)%nat -> exists b, read_src src i = Ok b.
Proof.
  intros H. unfold read_src. destruct (nth_error src i) eqn:E; [eauto|].
  apply nth_error_None in E. lia.
Qed.

(** The extended length field: when the accumulated length cannot wrap, the
    result is at least 1, and the only fault is the unchecked first read of
    the zero-run at the end of the input. *)
Lemma extended_length_spec (wrap : Z -> Z) (B bias low : Z) i o :
  (forall x, 0 <= x < B -> wrap x = x) ->
  0 <= low -> 0 <= bias ->
  255 * srcLen src + bias + 255 < B ->
  match extended_length src wrap bias low i o with
  | Ok (v, j) =>
      (i <= j)%nat /\ 1 <= v <= low + 255 * srcLen src + bias + 255
  | Stop oo =>
      oo = Returned INPUT_OVERRUN 0 o \/
      (oo = Faulted SrcReadOutOfBounds /\ (length src <= i)%nat /\ low = 0)
  end.
Proof.
  intros Hwrap Hlow Hbias HB. unfold extended_length, srcLen in *.
  destruct (Z.eqb_spec low 0) as [Hz|Hnz]; [|split; lia].
  pose proof (zero_run_spec wrap B o Hwrap (length src - i) i 0
                (le_n _) (Z.le_refl 0)) as Hz0.
  destruct (zero_run src wrap (skipn i src) i 0 o) as [[acc j]|oo];
    cbn [bind].
  - destruct Hz0 as (Hij & Hacc & b & Hb & Hbnz); [lia|].
    rewrite (read_src_value j b Hb). cbn [bind].
    assert (Hj : (j < length src)%nat) by (apply nth_error_Some; congruence).
    pose proof (u8_range b).
    rewrite Hwrap by lia. split; [lia|]. lia.
  - destruct Hz0 as [Hz0|[Hz0 Hlen]]; [lia|auto|]. right. auto.
Qed.

Lemma literal_run_no_fault t i o f :
  1 <= t < 4294967296 ->
  literal_run src maxDstLen t i o <> Stop (Faulted f).
Proof.
  intros Ht H.
  destruct (Z.ltb_spec maxDstLen (op o + t)) as [Hm|Hm].
  - unfold literal_run in H.
    destruct (Z.ltb_spec maxDstLen (op o + t)); [discriminate|lia].
  - destruct (Z.ltb_spec (srcLen src) (Z.of_nat i + t)) as [Hs|Hs].
    + unfold literal_run in H.
      destruct (Z.ltb_spec maxDstLen (op o + t)); [discriminate|].
      destruct (Z.ltb_spec (srcLen src) (Z.of_nat i + t)); [discriminate|lia].
    + rewrite literal_run_exact in H by assumption. discriminate.
Qed.

Lemma match_copy_total n : forall mSrc w,
  (mSrc < length w)%nat -> op w + Z.of_nat n <= maxDstLen ->
  exists w', match_copy maxDstLen n mSrc w = Ok w'.
Proof.
  induction n as [|n IH]; cbn [match_copy]; intros mSrc w Hlt Hroom.
  - eauto.
  - unfold read_dst.
    destruct (nth_error w mSrc) as [b|] eqn:Hb;
      [|apply nth_error_None in Hb; lia].
    cbn [bind]. unfold write_dst.
    destruct (Z.ltb_spec (op w) maxDstLen); [|lia]. cbn [bind].
    apply IH.
    + rewrite length_app. simpl. lia.
    + rewrite op_app. lia.
Qed.

Lemma commit_match_no_fault mPos mLen i' o f :
  0 <= mPos -> 1 <= mLen < 18446744073709551616 ->
  commit_match maxDstLen (mPos, mLen, i') o <> Stop (Faulted f).
Proof.
  intros Hpos Hlen H. unfold commit_match in H.
  destruct (Z.leb_spec (op o) mPos); [discriminate|].
  destruct (Z.ltb_spec maxDstLen (op o + mLen)); [discriminate|].
  destruct (match_copy_total (do_while_count mLen) (Z.to_nat mPos) o)
    as [w' Hw'].
  - unfold op in *. lia.
  - unfold do_while_count. destruct (Z.eqb_spec mLen 0); lia.
  - rewrite Hw' in H. discriminate.
Qed.

Section Short.

Hypothesis Hshort : srcLen src <= 16777216.

Lemma wrap64_id x : 0 <= x < 18446744073709551616 -> wrap64 x = x.
Proof. apply wrap64_small. Qed.

Lemma resolve_match_short t i o :
  0 <= t < 256 ->
  match resolve_match src t i o with
  | Ok (mPos, mLen, i') => 1 <= mLen < 18446744073709551616
  | Stop oo =>
      forall f, oo = Faulted f ->
        f = SrcReadOutOfBounds /\ (length src <= i)%nat /\
        ((32 <= t < 64 /\ Z.land t 31 = 0) \/
         (16 <= t < 32 /\ Z.land t 7 = 0))
  end.
Proof.
  intros Ht. unfold resolve_match.
  assert (Hlen0 : 0 <= srcLen src) by (unfold srcLen; lia).
  destruct (Z.leb_spec 64 t); [|destruct (Z.leb_spec 32 t);
                                 [|destruct (Z.leb_spec 16 t)]].
  - unfold resolve_M2.
    destruct (Z.leb_spec (srcLen src) (Z.of_nat i)); [discriminate|].
    destruct (read_src_in_range i) as [b Hb]; [unfold srcLen in *; lia|].
    rewrite Hb. cbn [bind].
    assert (2 <= Z.shiftr t 5 <= 7).
    { rewrite Z.shiftr_div_pow2 by lia. change (2 ^ 5) with 32.
      split; [apply Z.div_le_lower_bound; lia|].
      apply Z.lt_succ_r. apply Z.div_lt_upper_bound; lia. }
    rewrite !wrap32_small by (rewrite ?wrap32_small by lia; lia).
    rewrite wrap64_small by lia. lia.
  - unfold resolve_M3.
    pose proof (extended_length_spec wrap64 18446744073709551616 31
                  (Z.land t 31) i o wrap64_id) as Hext.
    pose proof (land_range t 5 ltac:(lia)) as Hl.
    change (Z.ones 5) with 31 in Hl. change (2 ^ 5) with 32 in Hl.
    destruct (extended_length src wrap64 31 (Z.land t 31) i o)
      as [[v j]|oo]; cbn [bind].
    + destruct Hext as [Hij Hv]; [lia|lia|lia|].
      destruct (Z.ltb_spec (srcLen src) (Z.of_nat j + 2)); [discriminate|].
      destruct (read_src_in_range j) as [b0 Hb0]; [unfold srcLen in *; lia|].
      destruct (read_src_in_range (S j)) as [b1 Hb1];
        [unfold srcLen in *; lia|].
      rewrite Hb0, Hb1. cbn [bind]. rewrite wrap64_small by lia. lia.
    + intros f ->. destruct Hext as [Hext|(Hext & Hlen & Hz)];
        [lia|lia|lia|discriminate|].
      inversion Hext; subst. split; [reflexivity|]. split; [assumption|].
      left. split; [lia|assumption].
  - unfold resolve_M4.
    pose proof (extended_length_spec wrap64 18446744073709551616 7
                  (Z.land t 7) i o wrap64_id) as Hext.
    pose proof (land_range t 3 ltac:(lia)) as Hl.
    change (Z.ones 3) with 7 in Hl. change (2 ^ 3) with 8 in Hl.
    destruct (extended_length src wrap64 7 (Z.land t 7) i o)
      as [[v j]|oo]; cbn [bind].
    + destruct Hext as [Hij Hv]; [lia|lia|lia|].
      destruct (Z.ltb_spec (srcLen src) (Z.of_nat j + 2)); [discriminate|].
      destruct (read_src_in_range j) as [b0 Hb0]; [unfold srcLen in *; lia|].
      destruct (read_src_in_range (S j)) as [b1 Hb1];
        [unfold srcLen in *; lia|].
      rewrite Hb0, Hb1. cbn [bind].
      match goal with |- context [if ?c then _ else _] => destruct c end;
        [discriminate|].
      rewrite wrap64_small by lia. lia.
    + intros f ->. destruct Hext as [Hext|(Hext & Hlen & Hz)];
        [lia|lia|lia|discriminate|].
      inversion Hext; subst. split; [reflexivity|]. split; [assumption|].
      right. split; [lia|assumption].
  - unfold resolve_M1.
    destruct (Z.leb_spec (srcLen src) (Z.of_nat i)); [discriminate|].
    destruct (read_src_in_range i) as [b Hb]; [unfold srcLen in *; lia|].
    rewrite Hb. cbn [bind]. lia.
Qed.


Lemma lit1_total i o :
  (i < length src)%nat -> op o < maxDstLen ->
  exists b, lit1 src maxDstLen i o = Ok (S i, o ++ [b]).
Proof.
  intros Hi Ho. destruct (nth_error src i) as [b|] eqn:Hb;
    [|apply nth_error_None in Hb; lia].
  exists b. now apply lit1_value.
Qed.

Lemma step_fault s f :
  control_inv src s -> top_inv src s -> op (out s) <= maxDstLen ->
  step src maxDstLen s = Stop (Faulted f) ->
  f = SrcReadOutOfBounds /\ ip s = length src /\ extension_point s.
Proof.
  unfold step, control_inv, top_inv, extension_point.
  destruct s as [l i o]; cbn [pc ip out]. intros Hc Ht Ho H.
  assert (Hlen0 : 0 <= srcLen src) by (unfold srcLen; lia).
  destruct l.
  - (* L_start *)
    destruct (srcLen src =? 0); [discriminate|].
    destruct (Z.leb_spec (srcLen src) (Z.of_nat i)); [discriminate|].
    destruct (read_src_in_range i) as [b Hb]; [unfold srcLen in *; lia|].
    rewrite Hb in H. cbn [bind] in H. pose proof (u8_range b).
    destruct (Z.ltb_spec 17 (u8 b)); [|discriminate].
    rewrite wrap32_small in H by lia.
    destruct (u8 b - 17 <? 4); [discriminate|].
    exfalso. revert H. apply literal_run_no_fault. lia.
  - (* L_top *)
    destruct Ht as [Ht Hi].
    destruct (Z.ltb_spec t 16); [|discriminate].
    pose proof (extended_length_spec wrap32 4294967296 15 t i o wrap32_small)
      as Hext.
    destruct (extended_length src wrap32 15 t i o) as [[v j]|oo];
      cbn [bind] in H.
    + destruct Hext as [_ Hv]; [lia|lia|lia|].
      exfalso. revert H. apply literal_run_no_fault.
      rewrite wrap32_small by lia. lia.
    + apply Stop_inj in H. subst oo.
      destruct Hext as [Hext|(Hext & Hlen & Hz)]; [lia|lia|lia|discriminate|].
      inversion Hext; subst. split; [reflexivity|]. split; [lia|].
      left. reflexivity.
  - (* L_first_literal_run *)
    destruct (Z.leb_spec (srcLen src) (Z.of_nat i)); [discriminate|].
    destruct (read_src_in_range i) as [b Hb]; [unfold srcLen in *; lia|].
    rewrite Hb in H. cbn [bind] in H.
    destruct (u8 b <? 16); [|discriminate].
    unfold resolve_M1_direct in H.
    destruct (Z.leb_spec (srcLen src) (Z.of_nat (S i))); [discriminate|].
    destruct (read_src_in_range (S i)) as [c Hcb]; [unfold srcLen in *; lia|].
    rewrite Hcb in H. cbn [bind] in H.
    exfalso. revert H. apply commit_match_no_fault; [apply wrap64_range|lia].
  - (* L_match *)
    destruct Hc as (b & Hi & Hb & Hbt).
    pose proof (u8_range b) as Hr. rewrite Hbt in Hr.
    assert (Hile : (i <= length src)%nat).
    { assert (i - 1 < length src)%nat by (apply nth_error_Some; congruence).
      lia. }
    pose proof (resolve_match_short t i o Hr) as Hres.
    destruct (resolve_match src t i o) as [[[mPos mLen] i']|oo] eqn:Er;
      cbn [bind] in H.
    + exfalso. revert H. apply commit_match_no_fault; [|assumption].
      eapply resolve_match_nonneg; eassumption.
    + apply Stop_inj in H. subst oo.
      destruct (Hres f eq_refl) as (Hf & Hlen & Hsite).
      split; [assumption|]. split; [lia|]. right. exists t. auto.
  - (* L_match_done *)
    destruct (Nat.ltb_spec i 2); [lia|].
    destruct (read_src_in_range (i - 2)) as [b Hb]; [lia|].
    rewrite Hb in H. cbn [bind] in H.
    destruct (Z.land (u8 b) 3 =? 0); discriminate.
  - (* L_match_next *)
    destruct (Z.ltb_spec maxDstLen (op o + t)); [discriminate|].
    destruct (Z.ltb_spec (srcLen src) (Z.of_nat i + t)); [discriminate|].
    unfold srcLen in *.
    destruct (lit1_total i o) as [b0 E0]; [lia|lia|].
    rewrite E0 in H. cbn [bind] in H.
    destruct (Z.ltb_spec 1 t).
    + destruct (lit1_total (S i) (o ++ [b0])) as [b1 E1];
        [lia|rewrite op_app; lia|].
      rewrite E1 in H. cbn [bind] in H.
      destruct (Z.ltb_spec 2 t).
      * destruct (lit1_total (S (S i)) ((o ++ [b0]) ++ [b1])) as [b2 E2];
          [lia|rewrite !op_app; lia|].
        rewrite E2 in H. cbn [bind] in H.
        destruct (Z.leb_spec (Z.of_nat (length src)) (Z.of_nat (S (S (S i)))));
          [discriminate|].
        destruct (read_src_in_range (S (S (S i)))) as [c Hcb]; [lia|].
        rewrite Hcb in H. discriminate.
      * cbn [bind] in H.
        destruct (Z.leb_spec (Z.of_nat (length src)) (Z.of_nat (S (S i))));
          [discriminate|].
        destruct (read_src_in_range (S (S i))) as [c Hcb]; [lia|].
        rewrite Hcb in H. discriminate.
    + cbn [bind] in H.
      destruct (Z.leb_spec (Z.of_nat (length src)) (Z.of_nat (S i)));
        [discriminate|].
      destruct (read_src_in_range (S i)) as [c Hcb]; [lia|].
      rewrite Hcb in H. discriminate.
Qed.

End Short.

(** At an extension point with the cursor at the end of the input the
    zero-run reads the byte behind the input: no check stands before the
    first evaluation of its loop condition. *)
Lemma extension_point_faults s :
  ip s = length src -> extension_point s ->
  step src maxDstLen s = Stop (Faulted SrcReadOutOfBounds).
Proof.
  destruct s as [l i o]; cbn [ip]. intros Hi Hp. subst i.
  assert (Hext : forall wrap bias,
            extended_length src wrap bias 0 (length src) o =
            Stop (Faulted SrcReadOutOfBounds)).
  { intros wrap bias. unfold extended_length. cbn [Z.eqb].
    rewrite skipn_all. reflexivity. }
  unfold step. cbn [pc ip out].
  destruct Hp as [Hp|(t & Hp & [[Ht Hz]|[Ht Hz]])]; cbn [pc] in Hp; subst l.
  - cbn [Z.ltb Z.compare]. now rewrite Hext.
  - unfold resolve_match.
    destruct (Z.leb_spec 64 t); [lia|]. destruct (Z.leb_spec 32 t); [|lia].
    unfold resolve_M3. rewrite Hz. now rewrite Hext.
  - unfold resolve_match.
    destruct (Z.leb_spec 64 t); [lia|]. destruct (Z.leb_spec 32 t); [lia|].
    destruct (Z.leb_spec 16 t); [|lia].
    unfold resolve_M4. rewrite Hz. now rewrite Hext.
Qed.



(** X3.  On an input of at most 16 MiB and with a capacity that is not
    negative, no call writes outside [dst, dst + maxDstLen): no length field
    can wrap on such an input, so every copy is covered by the capacity
    check in front of it. *)
Theorem short_input_write_safe :
  srcLen src <= 16777216 -> 0 <= maxDstLen ->
  decompress src maxDstLen <> Faulted DstWriteOutOfBounds.
Proof.
  intros Hshort Hm.
  destruct decompress_stops_at as (s & Hr & Hs). intros E. rewrite E in Hs.
  destruct (reachable_inv src maxDstLen s Hm Hr) as [Hc Ho].
  destruct (step_fault Hshort s _ Hc (reachable_top_inv s Hr) Ho Hs)
    as [Hf _].
  discriminate.
Qed.

(** X4.  On such an input the only out-of-bounds access is the source read
    of a zero-run entered with the cursor at the end of the input: a call
    faults exactly when it reaches, with [ip = srcLen], a literal run with
    control byte 0 or a long match with an empty length field. *)
Theorem source_overread_characterised :
  srcLen src <= 16777216 -> 0 <= maxDstLen ->
  forall f, decompress src maxDstLen = Faulted f <->
            f = SrcReadOutOfBounds /\
            exists s, reachable src maxDstLen s /\ ip s = length src /\
                      extension_point s.
Proof.
  intros Hshort Hm f. split.
  - intros E. destruct decompress_stops_at as (s & Hr & Hs).
    rewrite E in Hs.
    destruct (reachable_inv src maxDstLen s Hm Hr) as [Hc Ho].
    destruct (step_fault Hshort s _ Hc (reachable_top_inv s Hr) Ho Hs)
      as (Hf & Hi & Hp).
    split; [assumption|]. exists s. auto.
  - intros (-> & s & Hr & Hi & Hp).
    apply (reachable_stop src maxDstLen s); [assumption|].
    now apply extension_point_faults.
Qed.

End Stops.

(** X5.  Every call of [decompress] ends: it returns a result, or it performs
    an out-of-bounds access.  The fuel of [run] is never used up, whatever
    the input and the capacity. *)
Theorem decompress_always_stops (src : list byte) (maxDstLen : Z) :
  (exists r n w, decompress src maxDstLen = Returned r n w) \/
  (exists f, decompress src maxDstLen = Faulted f).
Proof.
  pose proof (decompress_completes src maxDstLen) as H.
  destruct (decompress src maxDstLen) as [r n w|f|];
    [left; eauto|right; eauto|contradiction].
Qed.


(** * Padding after the end marker and spare capacity *)

Section Padding.

Variable src extra : list byte.
Variable maxDstLen maxDstLen' : Z.
Hypothesis Hcap : maxDstLen <= maxDstLen'.

Let src' : list byte := src ++ extra.

Lemma srcLen_app : srcLen src <= srcLen src'.
Proof. unfold srcLen, src'. rewrite length_app. lia. Qed.

Lemma read_src_app i b : read_src src i = Ok b -> read_src src' i = Ok b.
Proof.
  intros H. apply read_src_Ok in H. destruct H as [Hi Hb].
  unfold read_src, src'. rewrite nth_error_app1 by assumption. now rewrite Hb.
Qed.

Lemma write_dst_cap o b o' :
  write_dst maxDstLen o b = Ok o' -> write_dst maxDstLen' o b = Ok o'.
Proof.
  unfold write_dst. destruct (Z.ltb_spec (op o) maxDstLen); [|discriminate].
  destruct (Z.ltb_spec (op o) maxDstLen'); [auto|lia].
Qed.

Lemma zero_run_app wrap rest : forall i acc o r,
  zero_run src wrap rest i acc o = Ok r ->
  zero_run src' wrap (rest ++ extra) i acc o = Ok r.
Proof.
  pose proof srcLen_app as Hsl.
  induction rest as [|b rest IH]; intros i acc o r Hr; [discriminate|].
  cbn [zero_run app] in *. destruct (u8 b =? 0); [|assumption].
  destruct (Z.leb_spec (srcLen src) (Z.of_nat (S i))); [discriminate|].
  destruct (Z.leb_spec (srcLen src') (Z.of_nat (S i))); [lia|].
  now apply IH.
Qed.

Lemma skipn_src_app i :
  (i <= length src)%nat -> skipn i src' = skipn i src ++ extra.
Proof.
  intros Hi. unfold src'. rewrite skipn_app.
  replace (i - length src)%nat with 0%nat by lia. reflexivity.
Qed.

Lemma zero_run_skipn wrap i acc o r :
  zero_run src wrap (skipn i src) i acc o = Ok r ->
  zero_run src' wrap (skipn i src') i acc o = Ok r.
Proof.
  intros H. destruct (le_lt_dec i (length src)) as [Hi|Hi].
  - rewrite skipn_src_app by assumption. now apply zero_run_app.
  - rewrite skipn_all2 in H by lia. discriminate.
Qed.

Lemma extended_length_app wrap bias low i o r :
  extended_length src wrap bias low i o = Ok r ->
  extended_length src' wrap bias low i o = Ok r.
Proof.
  unfold extended_length. intros H. destruct (low =? 0); [|assumption].
  exec_inv.
  match goal with E : zero_run _ _ _ _ _ _ = Ok _ |- _ =>
    rewrite (zero_run_skipn _ _ _ _ _ E) end.
  cbn [bind].
  match goal with E : read_src _ _ = Ok _ |- _ =>
    rewrite (read_src_app _ _ E) end.
  reflexivity.
Qed.

Lemma lit_copy_app rest : forall t i o r,
  lit_copy maxDstLen rest t i o = Ok r ->
  lit_copy maxDstLen' (rest ++ extra) t i o = Ok r.
Proof.
  induction rest as [|b rest IH]; intros t i o r Hr; [discriminate|].
  cbn [lit_copy app] in *.
  destruct (write_dst maxDstLen o b) as [o'|] eqn:Ew; [|discriminate].
  rewrite (write_dst_cap _ _ _ Ew). cbn [bind] in *.
  destruct (0 <? wrap32 (t - 1)); [now apply IH|assumption].
Qed.

Lemma literal_run_app t i o s' :
  literal_run src maxDstLen t i o = Ok s' ->
  literal_run src' maxDstLen' t i o = Ok s'.
Proof.
  pose proof srcLen_app as Hsl.
  unfold literal_run. intros H.
  destruct (Z.ltb_spec maxDstLen (op o + t)); [discriminate|].
  destruct (Z.ltb_spec maxDstLen' (op o + t)); [lia|].
  destruct (Z.ltb_spec (srcLen src) (Z.of_nat i + t)); [discriminate|].
  destruct (Z.ltb_spec (srcLen src') (Z.of_nat i + t)); [lia|].
  destruct (lit_copy maxDstLen (skipn i src) t i o) as [r|] eqn:E;
    [|discriminate].
  destruct (le_lt_dec i (length src)) as [Hi|Hi].
  - rewrite skipn_src_app by assumption.
    rewrite (lit_copy_app _ _ _ _ _ E). exact H.
  - rewrite skipn_all2 in E by lia. discriminate.
Qed.

Lemma match_copy_cap n : forall mSrc o o',
  match_copy maxDstLen n mSrc o = Ok o' ->
  match_copy maxDstLen' n mSrc o = Ok o'.
Proof.
  induction n as [|n IH]; intros mSrc o o' H; [assumption|].
  cbn [match_copy] in *.
  destruct (read_dst o mSrc) as [b|]; [|discriminate]. cbn [bind] in *.
  destruct (write_dst maxDstLen o b) as [o1|] eqn:Ew; [|discriminate].
  rewrite (write_dst_cap _ _ _ Ew). cbn [bind] in *. now apply IH.
Qed.

Lemma commit_match_cap m o s' :
  commit_match maxDstLen m o = Ok s' -> commit_match maxDstLen' m o = Ok s'.
Proof.
  unfold commit_match. destruct m as [[mPos mLen] i']. intros H.
  destruct (op o <=? mPos); [discriminate|].
  destruct (Z.ltb_spec maxDstLen (op o + mLen)); [discriminate|].
  destruct (Z.ltb_spec maxDstLen' (op o + mLen)); [lia|].
  destruct (match_copy maxDstLen (do_while_count mLen) (Z.to_nat mPos) o)
    as [o1|] eqn:E; [|discriminate].
  rewrite (match_copy_cap _ _ _ _ E). exact H.
Qed.

Lemma lit1_app i o r :
  lit1 src maxDstLen i o = Ok r -> lit1 src' maxDstLen' i o = Ok r.
Proof.
  unfold lit1. intros H.
  destruct (read_src src i) as [b|] eqn:Eb; [|discriminate].
  rewrite (read_src_app _ _ Eb). cbn [bind] in *.
  destruct (write_dst maxDstLen o b) as [o1|] eqn:Ew; [|discriminate].
  rewrite (write_dst_cap _ _ _ Ew). exact H.
Qed.

Lemma zero_run_not_OK wrap rest : forall i acc o n w,
  zero_run src wrap rest i acc o <> Stop (Returned OK n w).
Proof.
  induction rest as [|b rest IH]; cbn [zero_run]; intros i acc o n w H;
    [discriminate|].
  destruct (u8 b =? 0); [|discriminate].
  destruct (srcLen src <=? Z.of_nat (S i)); [discriminate|].
  now apply IH in H.
Qed.

Lemma extended_length_not_OK wrap bias low i o n w :
  extended_length src wrap bias low i o <> Stop (Returned OK n w).
Proof.
  unfold extended_length. intros H. destruct (low =? 0); [|discriminate].
  destruct (zero_run src wrap (skipn i src) i 0 o) as [[acc j]|oo] eqn:E;
    cbn [bind] in H.
  - unfold read_src in H. destruct (nth_error src j); discriminate.
  - apply Stop_inj in H. subst. now apply zero_run_not_OK in E.
Qed.

Lemma carries_over_fail {A : Type} r o :
  r <> OK -> ~ carries_over (@fail A r o).
Proof.
  intros Hr [[a H]|(n & w & H)]; [discriminate|].
  unfold fail in H. congruence.
Qed.

Lemma read_src_after_check i :
  Z.of_nat i < srcLen src -> exists b, read_src src i = Ok b.
Proof. intros H. apply read_src_in_range. unfold srcLen in H. lia. Qed.

Lemma resolve_match_app t i o :
  carries_over (resolve_match src t i o) ->
  resolve_match src' t i o = resolve_match src t i o.
Proof.
  pose proof srcLen_app as Hsl.
  unfold resolve_match, resolve_M1, resolve_M2, resolve_M3, resolve_M4.
  intros H.
  destruct (64 <=? t); [|destruct (32 <=? t); [|destruct (16 <=? t)]].
  - destruct (Z.leb_spec (srcLen src) (Z.of_nat i));
      [now apply carries_over_fail in H|].
    destruct (Z.leb_spec (srcLen src') (Z.of_nat i)); [lia|].
    destruct (read_src_after_check i) as [b Eb]; [lia|].
    now rewrite Eb, (read_src_app _ _ Eb).
  - destruct (extended_length src wrap64 31 (Z.land t 31) i o)
      as [[v j]|oo] eqn:Ee.
    + rewrite (extended_length_app _ _ _ _ _ _ Ee). cbn [bind] in *.
      destruct (Z.ltb_spec (srcLen src) (Z.of_nat j + 2));
        [now apply carries_over_fail in H|].
      destruct (Z.ltb_spec (srcLen src') (Z.of_nat j + 2)); [lia|].
      destruct (read_src_after_check j) as [b0 E0]; [lia|].
      destruct (read_src_after_check (S j)) as [b1 E1]; [lia|].
      now rewrite E0, E1, (read_src_app _ _ E0), (read_src_app _ _ E1).
    + cbn [bind] in H. destruct H as [[a H]|(n & w & H)]; [discriminate|].
      apply Stop_inj in H. subst. now apply extended_length_not_OK in Ee.
  - destruct (extended_length src wrap64 7 (Z.land t 7) i o)
      as [[v j]|oo] eqn:Ee.
    + rewrite (extended_length_app _ _ _ _ _ _ Ee). cbn [bind] in *.
      destruct (Z.ltb_spec (srcLen src) (Z.of_nat j + 2));
        [now apply carries_over_fail in H|].
      destruct (Z.ltb_spec (srcLen src') (Z.of_nat j + 2)); [lia|].
      destruct (read_src_after_check j) as [b0 E0]; [lia|].
      destruct (read_src_after_check (S j)) as [b1 E1]; [lia|].
      now rewrite E0, E1, (read_src_app _ _ E0), (read_src_app _ _ E1).
    + cbn [bind] in H. destruct H as [[a H]|(n & w & H)]; [discriminate|].
      apply Stop_inj in H. subst. now apply extended_length_not_OK in Ee.
  - destruct (Z.leb_spec (srcLen src) (Z.of_nat i));
      [now apply carries_over_fail in H|].
    destruct (Z.leb_spec (srcLen src') (Z.of_nat i)); [lia|].
    destruct (read_src_after_check i) as [b Eb]; [lia|].
    now rewrite Eb, (read_src_app _ _ Eb).
Qed.


(** Only the end marker returns [OK]. *)
Ltac ok_inv :=
  repeat match goal with
  | H : Ok _ = Stop _ |- _ => discriminate H
  | H : fail _ _ = Stop (Returned OK _ _) |- _ => discriminate H
  | H : Stop (Returned INVALID_DATA _ _) = Stop (Returned OK _ _) |- _ =>
      discriminate H
  | H : Stop (Faulted _) = Stop (Returned OK _ _) |- _ => discriminate H
  | H : Stop ?o = Stop (Returned OK _ _) |- _ =>
      is_var o; apply Stop_inj in H; subst o
  | H : (let '(_, _) := ?p in _) = Stop (Returned OK _ _) |- _ => destruct p
  | H : (if ?c then _ else _) = Stop (Returned OK _ _) |- _ =>
      destruct c eqn:?
  | H : bind ?m _ = Stop (Returned OK _ _) |- _ =>
      destruct m eqn:?; cbn [bind] in H
  end.

Lemma read_src_not_OK i n w : read_src src i <> Stop (Returned OK n w).
Proof. unfold read_src. destruct (nth_error src i); discriminate. Qed.

Lemma read_dst_not_OK o i n w : read_dst o i <> Stop (Returned OK n w).
Proof. unfold read_dst. destruct (nth_error o i); discriminate. Qed.

Lemma write_dst_not_OK o b n w :
  write_dst maxDstLen o b <> Stop (Returned OK n w).
Proof. unfold write_dst. destruct (op o <? maxDstLen); discriminate. Qed.

Ltac ok_leaf :=
  match goal with
  | E : read_src _ _ = Stop (Returned OK _ _) |- _ =>
      now apply read_src_not_OK in E
  | E : read_dst _ _ = Stop (Returned OK _ _) |- _ =>
      now apply read_dst_not_OK in E
  | E : write_dst _ _ _ = Stop (Returned OK _ _) |- _ =>
      now apply write_dst_not_OK in E
  | E : zero_run _ _ _ _ _ _ = Stop (Returned OK _ _) |- _ =>
      now apply zero_run_not_OK in E
  end.

Lemma lit_copy_not_OK rest : forall t i o n w,
  lit_copy maxDstLen rest t i o <> Stop (Returned OK n w).
Proof.
  induction rest as [|b rest IH]; cbn [lit_copy]; intros t i o n w H;
    [discriminate|].
  ok_inv; try ok_leaf. now apply IH in H.
Qed.

Lemma match_copy_not_OK k : forall mSrc o n w,
  match_copy maxDstLen k mSrc o <> Stop (Returned OK n w).
Proof.
  induction k as [|k IH]; cbn [match_copy]; intros mSrc o n w H;
    [discriminate|].
  ok_inv; try ok_leaf. now apply IH in H.
Qed.

Ltac ok_loop :=
  match goal with
  | E : lit_copy _ _ _ _ _ = Stop (Returned OK _ _) |- _ =>
      now apply lit_copy_not_OK in E
  | E : match_copy _ _ _ _ = Stop (Returned OK _ _) |- _ =>
      now apply match_copy_not_OK in E
  end.

Lemma literal_run_not_OK t i o n w :
  literal_run src maxDstLen t i o <> Stop (Returned OK n w).
Proof.
  unfold literal_run. intros H. ok_inv; first [ok_leaf | ok_loop].
Qed.

Lemma commit_match_not_OK m o n w :
  commit_match maxDstLen m o <> Stop (Returned OK n w).
Proof.
  unfold commit_match. destruct m as [[mPos mLen] i']. intros H.
  ok_inv; first [ok_leaf | ok_loop].
Qed.

Lemma lit1_not_OK i o n w :
  lit1 src maxDstLen i o <> Stop (Returned OK n w).
Proof. unfold lit1. intros H. ok_inv; ok_leaf. Qed.

Lemma resolve_M1_direct_not_OK t i o n w :
  resolve_M1_direct src t i o <> Stop (Returned OK n w).
Proof. unfold resolve_M1_direct. intros H. ok_inv; ok_leaf. Qed.

(** [OK] is returned from one place: the end marker met in the match loop. *)
Lemma step_OK s n w :
  step src maxDstLen s = Stop (Returned OK n w) ->
  exists t, pc s = L_match t /\
            resolve_match src t (ip s) (out s) = Stop (Returned OK n w).
Proof.
  unfold step. destruct s as [l i o]; cbn [pc ip out]. intros H.
  destruct l.
  - exfalso. ok_inv; try ok_leaf. all: now apply literal_run_not_OK in H.
  - exfalso. ok_inv.
    + now apply literal_run_not_OK in H.
    + unfold extended_length in *. ok_inv; ok_leaf.
  - exfalso. ok_inv; try ok_leaf.
    + now apply commit_match_not_OK in H.
    + match goal with E : resolve_M1_direct _ _ _ _ = _ |- _ =>
        now apply resolve_M1_direct_not_OK in E end.
  - exists t. split; [reflexivity|].
    destruct (resolve_match src t i o) as [m|oo]; cbn [bind] in H.
    + now apply commit_match_not_OK in H.
    + apply Stop_inj in H. now subst oo.
  - exfalso. ok_inv; ok_leaf.
  - exfalso. unfold lit1 in H. ok_inv; ok_leaf.
Qed.

Lemma step_app_Ok s s' :
  step src maxDstLen s = Ok s' -> step src' maxDstLen' s = Ok s'.
Proof.
  pose proof srcLen_app as Hsl.
  unfold step. destruct s as [l i o]; cbn [pc ip out]. intros H.
  destruct l.
  - destruct (Z.eqb_spec (srcLen src) 0); [discriminate|].
    destruct (Z.eqb_spec (srcLen src') 0); [unfold srcLen in *; lia|].
    destruct (Z.leb_spec (srcLen src) (Z.of_nat i)); [discriminate|].
    destruct (Z.leb_spec (srcLen src') (Z.of_nat i)); [lia|].
    destruct (read_src src i) as [b|] eqn:Eb; [|discriminate].
    rewrite (read_src_app _ _ Eb). cbn [bind] in *.
    destruct (17 <? u8 b); [|assumption].
    destruct (wrap32 (u8 b - 17) <? 4); [assumption|].
    now apply literal_run_app.
  - destruct (t <? 16); [|assumption].
    destruct (extended_length src wrap32 15 t i o) as [[v j]|] eqn:Ee;
      [|discriminate].
    rewrite (extended_length_app _ _ _ _ _ _ Ee). cbn [bind] in *.
    now apply literal_run_app.
  - destruct (Z.leb_spec (srcLen src) (Z.of_nat i)); [discriminate|].
    destruct (Z.leb_spec (srcLen src') (Z.of_nat i)); [lia|].
    destruct (read_src src i) as [b|] eqn:Eb; [|discriminate].
    rewrite (read_src_app _ _ Eb). cbn [bind] in *.
    destruct (u8 b <? 16); [|assumption].
    unfold resolve_M1_direct in *.
    destruct (Z.leb_spec (srcLen src) (Z.of_nat (S i))); [discriminate|].
    destruct (Z.leb_spec (srcLen src') (Z.of_nat (S i))); [lia|].
    destruct (read_src src (S i)) as [c|] eqn:Ec; [|discriminate].
    rewrite (read_src_app _ _ Ec). cbn [bind] in *.
    now apply commit_match_cap.
  - destruct (resolve_match src t i o) as [m|] eqn:Er; [|discriminate].
    rewrite resolve_match_app by (rewrite Er; left; eauto).
    rewrite Er. cbn [bind] in *. now apply commit_match_cap.
  - destruct (i <? 2)%nat; [discriminate|].
    destruct (read_src src (i - 2)) as [b|] eqn:Eb; [|discriminate].
    rewrite (read_src_app _ _ Eb). exact H.
  - destruct (Z.ltb_spec maxDstLen (op o + t)); [discriminate|].
    destruct (Z.ltb_spec maxDstLen' (op o + t)); [lia|].
    destruct (Z.ltb_spec (srcLen src) (Z.of_nat i + t)); [discriminate|].
    destruct (Z.ltb_spec (srcLen src') (Z.of_nat i + t)); [lia|].
    destruct (lit1 src maxDstLen i o) as [[i1 o1]|] eqn:E1; [|discriminate].
    rewrite (lit1_app _ _ _ E1). cbn [bind] in *.
    assert (Htail : forall i2 o2,
      (if srcLen src <=? Z.of_nat i2 then fail INPUT_OVERRUN o2
       else b <- read_src src i2 ;;
            Ok (mkState (L_match (u8 b)) (S i2) o2)) = Ok s' ->
      (if srcLen src' <=? Z.of_nat i2 then fail INPUT_OVERRUN o2
       else b <- read_src src' i2 ;;
            Ok (mkState (L_match (u8 b)) (S i2) o2)) = Ok s').
    { intros i2 o2 Ht.
      destruct (Z.leb_spec (srcLen src) (Z.of_nat i2)); [discriminate|].
      destruct (Z.leb_spec (srcLen src') (Z.of_nat i2)); [lia|].
      destruct (read_src src i2) as [b|] eqn:Eb; [|discriminate].
      now rewrite (read_src_app _ _ Eb). }
    destruct (1 <? t).
    + destruct (lit1 src maxDstLen i1 o1) as [[i2 o2]|] eqn:E2;
        [|discriminate].
      rewrite (lit1_app _ _ _ E2). cbn [bind] in *.
      destruct (2 <? t).
      * destruct (lit1 src maxDstLen i2 o2) as [[i3 o3]|] eqn:E3;
          [|discriminate].
        rewrite (lit1_app _ _ _ E3). cbn [bind] in *. now apply Htail.
      * cbn [bind] in *. now apply Htail.
    + cbn [bind] in *. now apply Htail.
Qed.

Lemma step_app_OK s n w :
  step src maxDstLen s = Stop (Returned OK n w) ->
  step src' maxDstLen' s = Stop (Returned OK n w).
Proof.
  intros H. destruct (step_OK s n w H) as (t & Hpc & Hres).
  destruct s as [l i o]. cbn [pc ip out] in *. subst l.
  unfold step. cbn [pc ip out].
  rewrite resolve_match_app by (rewrite Hres; right; eauto).
  rewrite Hres. reflexivity.
Qed.

Lemma steps_app k s s' :
  steps src maxDstLen k s s' -> steps src' maxDstLen' k s s'.
Proof.
  induction 1 as [s|k s s1 s' E _ IH]; [apply steps_here|].
  eapply steps_more; [|exact IH]. now apply step_app_Ok.
Qed.

End Padding.

Lemma decompress_app_OK
    (src extra : list byte) (maxDstLen maxDstLen' : Z) (n : nat)
    (w : list byte) :
  maxDstLen <= maxDstLen' ->
  decompress src maxDstLen = Returned OK n w ->
  decompress (src ++ extra) maxDstLen' = Returned OK n w.
Proof.
  intros Hcap H.
  destruct (decompress_stops_at src maxDstLen) as (s & [k Hk] & Hs).
  rewrite H in Hs.
  apply (reachable_stop (src ++ extra) maxDstLen' s).
  - exists k. now apply (steps_app src extra maxDstLen maxDstLen' Hcap).
  - eapply step_app_OK. eassumption.
Qed.

(** X7.  A stream that decodes with [OK] decodes to the same bytes when
    anything is appended to it and when the capacity grows: the decoder
    returns at the end marker and never looks at what follows it. *)
Theorem decode_ignores_padding_and_spare_capacity
    (src extra : list byte) (maxDstLen maxDstLen' : Z) (n : nat)
    (w : list byte) :
  maxDstLen <= maxDstLen' ->
  decompress src maxDstLen = Returned OK n w ->
  decompress (src ++ extra) maxDstLen' = Returned OK n w.
Proof. apply decompress_app_OK. Qed.

(** * Literal-only streams *)

Lemma u8_byte_of z : 0 <= z < 256 -> u8 (byte_of z) = z.
Proof.
  intros Hz. unfold byte_of, u8.
  destruct (Byte.of_N (Z.to_N z)) as [b|] eqn:E.
  - apply Byte.to_of_N in E. rewrite E. lia.
  - apply Byte.of_N_None_iff in E. lia.
Qed.

Section Stored.

Variable maxDstLen : Z.

(** The end marker met in the match loop. *)
Lemma end_marker_at_match src i o :
  nth_error src i = Some x00 -> nth_error src (S i) = Some x00 ->
  op o < 18446744073709551616 ->
  step src maxDstLen (mkState (L_match 17) i o) =
  Stop (Returned OK (length o) o).
Proof.
  intros H0 H1 Ho.
  assert (Hlen : (S i < length src)%nat) by (apply nth_error_Some; congruence).
  unfold step. cbn [pc ip out]. unfold resolve_match.
  change (64 <=? 17) with false. change (32 <=? 17) with false.
  change (16 <=? 17) with true. cbv iota.
  unfold resolve_M4, extended_length.
  change (Z.land 17 7 =? 0) with false. cbv iota. cbn [bind].
  unfold srcLen.
  destruct (Z.ltb_spec (Z.of_nat (length src)) (Z.of_nat i + 2)); [lia|].
  unfold read_src. rewrite H0, H1. cbn [bind].
  change (Z.shiftl (Z.land 17 8) 11) with 0.
  change (Z.shiftr (u8 x00) 2 + Z.shiftl (u8 x00) 6) with 0.
  rewrite !Z.sub_0_r.
  assert (Hw : wrap64 (op o) = op o)
    by (apply wrap64_small; unfold op in *; lia).
  rewrite !Hw. rewrite Z.eqb_refl. reflexivity.
Qed.

(** The end marker met right after a literal run. *)
Lemma end_marker_after_literals src i o :
  nth_error src i = Some x11 ->
  step src maxDstLen (mkState L_first_literal_run i o) =
  Ok (mkState (L_match 17) (S i) o).
Proof.
  intros H0.
  assert (Hlen : (i < length src)%nat) by (apply nth_error_Some; congruence).
  unfold step. cbn [pc ip out]. unfold srcLen.
  destruct (Z.leb_spec (Z.of_nat (length src)) (Z.of_nat i)); [lia|].
  unfold read_src. rewrite H0. reflexivity.
Qed.

Lemma nth_error_after {A : Type} (l1 l2 : list A) k :
  nth_error (l1 ++ l2) (length l1 + k) = nth_error l2 k.
Proof.
  rewrite nth_error_app2 by lia. f_equal. lia.
Qed.

Lemma firstn_exact {A : Type} (l1 l2 : list A) :
  firstn (length l1) (l1 ++ l2) = l1.
Proof.
  rewrite firstn_app, Nat.sub_diag, firstn_all. simpl. apply app_nil_r.
Qed.


Lemma reach1 src s1 :
  step src maxDstLen initial = Ok s1 -> reachable src maxDstLen s1.
Proof.
  intros H. exists 1%nat. eapply steps_more; [exact H|apply steps_here].
Qed.

Lemma reach_next src s s' :
  reachable src maxDstLen s -> step src maxDstLen s = Ok s' ->
  reachable src maxDstLen s'.
Proof.
  intros [k Hk] H. exists (S k).
  assert (Hgen : forall k a b, steps src maxDstLen k a b ->
                   steps src maxDstLen (S k) a s' \/ True ->
                   step src maxDstLen b = Ok s' ->
                   steps src maxDstLen (S k) a s').
  { clear. induction 1 as [a|k a a1 b E _ IH]; intros _ Hb.
    - eapply steps_more; [exact Hb|apply steps_here].
    - eapply steps_more; [exact E|]. apply IH; [right; exact I|exact Hb]. }
  apply (Hgen k initial s Hk); [right; exact I|exact H].
Qed.

(** One to three literals announced by the first byte. *)
Lemma stored_tiny c text :
  1 <= Z.of_nat (length text) <= 3 ->
  u8 c = 17 + Z.of_nat (length text) ->
  Z.of_nat (length text) <= maxDstLen ->
  decompress (c :: text ++ end_marker) maxDstLen =
  Returned OK (length text) text.
Proof.
  intros HL Hc Hm.
  set (src := c :: text ++ end_marker).
  assert (Hmark : forall k, nth_error src (S ((length text) + k)) = nth_error end_marker k).
  { intros k. unfold src. cbn [nth_error]. apply nth_error_after. }
  assert (H1 : step src maxDstLen initial =
               Ok (mkState (L_match_next (Z.of_nat (length text))) 1 [])).
  { unfold step, initial. cbn [pc ip out]. unfold srcLen.
    change (length src) with (S (length (text ++ end_marker))).
    destruct (Z.eqb_spec (Z.of_nat (S (length (text ++ end_marker)))) 0);
      [lia|].
    destruct (Z.leb_spec (Z.of_nat (S (length (text ++ end_marker))))
                         (Z.of_nat 0)); [lia|].
    unfold read_src, src. cbn [nth_error bind]. rewrite Hc.
    destruct (Z.ltb_spec 17 (17 + Z.of_nat (length text))); [|lia].
    replace (17 + Z.of_nat (length text) - 17) with (Z.of_nat (length text)) by lia.
    rewrite wrap32_small by lia.
    destruct (Z.ltb_spec (Z.of_nat (length text)) 4); [reflexivity|lia]. }
  assert (H2 : step src maxDstLen (mkState (L_match_next (Z.of_nat (length text))) 1 []) =
               Ok (mkState (L_match 17) (S (S (length text))) text)).
  { rewrite (match_next_step src maxDstLen (Z.of_nat (length text)) 1 [] x11).
    - rewrite Nat2Z.id. unfold src. cbn [skipn]. rewrite firstn_exact. reflexivity.
    - lia.
    - change (op []) with 0. lia.
    - rewrite Nat2Z.id. change (1 + (length text))%nat with (S (length text)).
      replace (S (length text)) with (S ((length text) + 0)) by lia. now rewrite Hmark. }
  apply (reachable_stop src maxDstLen (mkState (L_match 17) (S (S (length text))) text)).
  - eapply reach_next; [apply reach1; exact H1|exact H2].
  - apply end_marker_at_match.
    + replace (S (S (length text))) with (S ((length text) + 1)) by lia. now rewrite Hmark.
    + replace (S (S (S (length text)))) with (S ((length text) + 2)) by lia. now rewrite Hmark.
    + unfold op. lia.
Qed.

(** Four to 238 literals announced by the first byte. *)
Lemma stored_short c text :
  4 <= Z.of_nat (length text) <= 238 ->
  u8 c = 17 + Z.of_nat (length text) ->
  Z.of_nat (length text) <= maxDstLen ->
  decompress (c :: text ++ end_marker) maxDstLen =
  Returned OK (length text) text.
Proof.
  intros HL Hc Hm.
  set (src := c :: text ++ end_marker).
  assert (Hmark : forall k, nth_error src (S ((length text) + k)) = nth_error end_marker k).
  { intros k. unfold src. cbn [nth_error]. apply nth_error_after. }
  assert (Hlen : srcLen src = Z.of_nat (length text) + 4).
  { unfold srcLen, src. cbn [length]. rewrite length_app.
    simpl length. lia. }
  assert (H1 : step src maxDstLen initial =
               Ok (mkState L_first_literal_run (S (length text)) text)).
  { unfold step, initial. cbn [pc ip out].
    destruct (Z.eqb_spec (srcLen src) 0); [lia|].
    destruct (Z.leb_spec (srcLen src) (Z.of_nat 0)); [lia|].
    unfold read_src, src. cbn [nth_error bind]. rewrite Hc.
    destruct (Z.ltb_spec 17 (17 + Z.of_nat (length text))); [|lia].
    replace (17 + Z.of_nat (length text) - 17) with (Z.of_nat (length text)) by lia.
    rewrite wrap32_small by lia.
    destruct (Z.ltb_spec (Z.of_nat (length text)) 4); [lia|].
    fold src. rewrite literal_run_exact.
    - rewrite Nat2Z.id. unfold src. cbn [skipn]. rewrite firstn_exact. reflexivity.
    - lia.
    - change (op []) with 0. lia.
    - lia. }
  assert (H2 : step src maxDstLen (mkState L_first_literal_run (S (length text)) text) =
               Ok (mkState (L_match 17) (S (S (length text))) text)).
  { apply end_marker_after_literals.
    replace (S (length text)) with (S ((length text) + 0)) by lia. now rewrite Hmark. }
  apply (reachable_stop src maxDstLen (mkState (L_match 17) (S (S (length text))) text)).
  - eapply reach_next; [apply reach1; exact H1|exact H2].
  - apply end_marker_at_match.
    + replace (S (S (length text))) with (S ((length text) + 1)) by lia. now rewrite Hmark.
    + replace (S (S (S (length text)))) with (S ((length text) + 2)) by lia. now rewrite Hmark.
    + unfold op. lia.
Qed.


(** A literal run whose length is extended by [k] zero bytes and the byte
    [b]. *)
Lemma stored_long (k : nat) b text :
  u8 b <> 0 ->
  Z.of_nat (length text) = 255 * Z.of_nat k + u8 b + 18 ->
  Z.of_nat (length text) < 4294967296 ->
  Z.of_nat (length text) <= maxDstLen ->
  decompress (x00 :: repeat x00 k ++ b :: text ++ end_marker) maxDstLen =
  Returned OK (length text) text.
Proof.
  intros Hb HL H32 Hm. pose proof (u8_range b) as Hbr.
  set (src := x00 :: repeat x00 k ++ b :: text ++ end_marker).
  assert (Hskip : skipn (S (S k)) src = text ++ end_marker).
  { unfold src. cbn [skipn]. apply skipn_repeat_app. }
  assert (Hmark : forall j, nth_error src (S (S k) + (length text + j)) =
                            nth_error end_marker j).
  { intros j. rewrite <- nth_error_skipn, Hskip. apply nth_error_after. }
  assert (Hlen : srcLen src = Z.of_nat k + 2 + Z.of_nat (length text) + 3).
  { unfold srcLen, src. cbn [length].
    rewrite length_app, repeat_length. cbn [length]. rewrite length_app.
    simpl length. lia. }
  assert (H1 : step src maxDstLen initial = Ok (mkState (L_top 0) 1 [])).
  { unfold step, initial. cbn [pc ip out].
    destruct (Z.eqb_spec (srcLen src) 0); [lia|].
    destruct (Z.leb_spec (srcLen src) (Z.of_nat 0)); [lia|].
    reflexivity. }
  assert (H2 : step src maxDstLen (mkState (L_top 0) 1 []) =
               Ok (mkState L_first_literal_run (S (S k) + length text) text)).
  { unfold step. cbn [pc ip out].
    change (0 <? 16) with true. cbv iota.
    unfold extended_length. change (0 =? 0) with true. cbv iota.
    change (skipn 1 src) with (repeat x00 k ++ b :: text ++ end_marker).
    rewrite zero_run_zeros; [|assumption|lia|lia|lia].
    cbn [bind].
    assert (Hr : read_src src (1 + k) = Ok b).
    { unfold read_src, src. cbn [nth_error Nat.add].
      now rewrite nth_error_repeat_app. }
    rewrite Hr. cbn [bind].
    rewrite (wrap32_small (0 + 255 * Z.of_nat k + (15 + u8 b))) by lia.
    rewrite wrap32_small by lia.
    replace (0 + 255 * Z.of_nat k + (15 + u8 b) + 3)
      with (Z.of_nat (length text)) by lia.
    change (S (1 + k)) with (S (S k)).
    rewrite literal_run_exact.
    - rewrite Nat2Z.id, Hskip, firstn_exact. reflexivity.
    - lia.
    - change (op []) with 0. lia.
    - lia. }
  assert (H3 : step src maxDstLen
                 (mkState L_first_literal_run (S (S k) + length text) text) =
               Ok (mkState (L_match 17) (S (S (S k) + length text)) text)).
  { apply end_marker_after_literals.
    replace (S (S k) + length text)%nat
      with (S (S k) + (length text + 0))%nat by lia.
    now rewrite Hmark. }
  apply (reachable_stop src maxDstLen
           (mkState (L_match 17) (S (S (S k) + length text)) text)).
  - eapply reach_next; [|exact H3].
    eapply reach_next; [apply reach1; exact H1|exact H2].
  - apply end_marker_at_match.
    + replace (S (S (S k) + length text))
        with (S (S k) + (length text + 1))%nat by lia.
      now rewrite Hmark.
    + replace (S (S (S (S k) + length text)))
        with (S (S k) + (length text + 2))%nat by lia.
      now rewrite Hmark.
    + unfold op. lia.
Qed.

End Stored.

Lemma stored_decodes (text : list byte) (maxDstLen : Z) :
  Z.of_nat (length text) < 4294967296 ->
  Z.of_nat (length text) <= maxDstLen ->
  decompress (encode_stored text) maxDstLen = Returned OK (length text) text.
Proof.
  intros H32 Hm. unfold encode_stored. cbv zeta.
  destruct (Z.eqb_spec (Z.of_nat (length text)) 0) as [Hz|Hnz].
  - destruct text; [reflexivity|simpl in Hz; lia].
  - destruct (Z.leb_spec (Z.of_nat (length text)) 238).
    + destruct (Z_lt_le_dec (Z.of_nat (length text)) 4).
      * apply stored_tiny; [lia|apply u8_byte_of; lia|assumption].
      * apply stored_short; [lia|apply u8_byte_of; lia|assumption].
    + set (L := Z.of_nat (length text)) in *.
      pose proof (Z.div_mod (L - 19) 255 ltac:(lia)) as Hdm.
      pose proof (Z.mod_pos_bound (L - 19) 255 ltac:(lia)) as Hmod.
      assert (Hk : 0 <= (L - 19) / 255) by (apply Z.div_pos; lia).
      apply stored_long.
      * rewrite u8_byte_of by lia. lia.
      * rewrite u8_byte_of by lia. rewrite Z2Nat.id by lia. fold L. lia.
      * assumption.
      * assumption.
Qed.

(** X8.  Round trip through the literal-only encoder: a text shorter than
    2^32 bytes, encoded as one literal run and the end marker, decodes to
    itself with [OK] in every destination that holds it. *)
Theorem stored_round_trip (text : list byte) (maxDstLen : Z) :
  Z.of_nat (length text) < 4294967296 ->
  Z.of_nat (length text) <= maxDstLen ->
  decompress (encode_stored text) maxDstLen = Returned OK (length text) text.
Proof. apply stored_decodes. Qed.

(** * Literal-only streams and a destination that is too small *)

Section StoredShort.

Variable maxDstLen : Z.

Lemma reach0 src : reachable src maxDstLen initial.
Proof. exists 0%nat. apply steps_here. Qed.

Lemma tiny_refused c text :
  1 <= Z.of_nat (length text) <= 3 ->
  u8 c = 17 + Z.of_nat (length text) ->
  maxDstLen < Z.of_nat (length text) ->
  decompress (c :: text ++ end_marker) maxDstLen =
  Returned OUTPUT_OVERRUN 0 [].
Proof.
  intros HL Hc Hm.
  set (src := c :: text ++ end_marker).
  assert (H1 : step src maxDstLen initial =
               Ok (mkState (L_match_next (Z.of_nat (length text))) 1 [])).
  { unfold step, initial. cbn [pc ip out]. unfold srcLen.
    change (length src) with (S (length (text ++ end_marker))).
    destruct (Z.eqb_spec (Z.of_nat (S (length (text ++ end_marker)))) 0);
      [lia|].
    destruct (Z.leb_spec (Z.of_nat (S (length (text ++ end_marker))))
                         (Z.of_nat 0)); [lia|].
    unfold read_src, src. cbn [nth_error bind]. rewrite Hc.
    destruct (Z.ltb_spec 17 (17 + Z.of_nat (length text))); [|lia].
    replace (17 + Z.of_nat (length text) - 17)
      with (Z.of_nat (length text)) by lia.
    rewrite wrap32_small by lia.
    destruct (Z.ltb_spec (Z.of_nat (length text)) 4); [reflexivity|lia]. }
  apply (reachable_stop src maxDstLen _ _ (reach1 maxDstLen src _ H1)).
  unfold step. cbn [pc ip out]. change (op []) with 0.
  destruct (Z.ltb_spec maxDstLen (0 + Z.of_nat (length text))); [|lia].
  reflexivity.
Qed.

Lemma short_refused c text :
  4 <= Z.of_nat (length text) <= 238 ->
  u8 c = 17 + Z.of_nat (length text) ->
  maxDstLen < Z.of_nat (length text) ->
  decompress (c :: text ++ end_marker) maxDstLen =
  Returned OUTPUT_OVERRUN 0 [].
Proof.
  intros HL Hc Hm.
  set (src := c :: text ++ end_marker).
  apply (reachable_stop src maxDstLen _ _ (reach0 src)).
  unfold step, initial. cbn [pc ip out]. unfold srcLen.
  change (length src) with (S (length (text ++ end_marker))).
  destruct (Z.eqb_spec (Z.of_nat (S (length (text ++ end_marker)))) 0);
    [lia|].
  destruct (Z.leb_spec (Z.of_nat (S (length (text ++ end_marker))))
                       (Z.of_nat 0)); [lia|].
  unfold read_src, src. cbn [nth_error bind]. rewrite Hc.
  destruct (Z.ltb_spec 17 (17 + Z.of_nat (length text))); [|lia].
  replace (17 + Z.of_nat (length text) - 17)
    with (Z.of_nat (length text)) by lia.
  rewrite wrap32_small by lia.
  destruct (Z.ltb_spec (Z.of_nat (length text)) 4); [lia|].
  unfold literal_run. change (op []) with 0.
  destruct (Z.ltb_spec maxDstLen (0 + Z.of_nat (length text))); [|lia].
  reflexivity.
Qed.

Lemma long_refused (k : nat) b text :
  u8 b <> 0 ->
  Z.of_nat (length text) = 255 * Z.of_nat k + u8 b + 18 ->
  Z.of_nat (length text) < 4294967296 ->
  maxDstLen < Z.of_nat (length text) ->
  decompress (x00 :: repeat x00 k ++ b :: text ++ end_marker) maxDstLen =
  Returned OUTPUT_OVERRUN 0 [].
Proof.
  intros Hb HL H32 Hm. pose proof (u8_range b) as Hbr.
  set (src := x00 :: repeat x00 k ++ b :: text ++ end_marker).
  assert (Hlen : srcLen src = Z.of_nat k + 2 + Z.of_nat (length text) + 3).
  { unfold srcLen, src. cbn [length].
    rewrite length_app, repeat_length. cbn [length]. rewrite length_app.
    simpl length. lia. }
  assert (H1 : step src maxDstLen initial = Ok (mkState (L_top 0) 1 [])).
  { unfold step, initial. cbn [pc ip out].
    destruct (Z.eqb_spec (srcLen src) 0); [lia|].
    destruct (Z.leb_spec (srcLen src) (Z.of_nat 0)); [lia|].
    reflexivity. }
  apply (reachable_stop src maxDstLen _ _ (reach1 maxDstLen src _ H1)).
  unfold step. cbn [pc ip out].
  change (0 <? 16) with true. cbv iota.
  unfold extended_length. change (0 =? 0) with true. cbv iota.
  change (skipn 1 src) with (repeat x00 k ++ b :: text ++ end_marker).
  rewrite zero_run_zeros; [|assumption|lia|lia|lia].
  cbn [bind].
  assert (Hr : read_src src (1 + k) = Ok b).
  { unfold read_src, src. cbn [nth_error Nat.add].
    now rewrite nth_error_repeat_app. }
  rewrite Hr. cbn [bind].
  rewrite (wrap32_small (0 + 255 * Z.of_nat k + (15 + u8 b))) by lia.
  rewrite wrap32_small by lia.
  replace (0 + 255 * Z.of_nat k + (15 + u8 b) + 3)
    with (Z.of_nat (length text)) by lia.
  unfold literal_run. change (op []) with 0.
  destruct (Z.ltb_spec maxDstLen (0 + Z.of_nat (length text))); [|lia].
  reflexivity.
Qed.

End StoredShort.

(** X9.  The same stream in a destination that is too small, be it by one
    byte: [OUTPUT_OVERRUN] is returned and nothing has been written. *)
Theorem stored_refused_when_too_small (text : list byte) (maxDstLen : Z) :
  Z.of_nat (length text) < 4294967296 ->
  0 <= maxDstLen < Z.of_nat (length text) ->
  decompress (encode_stored text) maxDstLen = Returned OUTPUT_OVERRUN 0 [].
Proof.
  intros H32 [Hm0 Hm]. unfold encode_stored. cbv zeta.
  destruct (Z.eqb_spec (Z.of_nat (length text)) 0) as [Hz|Hnz].
  - lia.
  - destruct (Z.leb_spec (Z.of_nat (length text)) 238).
    + destruct (Z_lt_le_dec (Z.of_nat (length text)) 4).
      * apply tiny_refused; [lia|apply u8_byte_of; lia|assumption].
      * apply short_refused; [lia|apply u8_byte_of; lia|assumption].
    + set (L := Z.of_nat (length text)) in *.
      pose proof (Z.div_mod (L - 19) 255 ltac:(lia)) as Hdm.
      pose proof (Z.mod_pos_bound (L - 19) 255 ltac:(lia)) as Hmod.
      assert (Hk : 0 <= (L - 19) / 255) by (apply Z.div_pos; lia).
      apply long_refused.
      * rewrite u8_byte_of by lia. lia.
      * rewrite u8_byte_of by lia. rewrite Z2Nat.id by lia. fold L. lia.
      * assumption.
      * assumption.
Qed.

Lemma stored_refused_when_too_small_witness :
  Z.of_nat (length literal_text) < 4294967296 /\
  0 <= 14 < Z.of_nat (length literal_text) /\
  decompress (encode_stored literal_text) 14 = Returned OUTPUT_OVERRUN 0 [].
Proof.
  split; [vm_compute; reflexivity|].
  split; [split; vm_compute; [discriminate|reflexivity]|].
  apply (stored_refused_when_too_small literal_text 14);
    [vm_compute; reflexivity
    |split; vm_compute; [discriminate|reflexivity]].
Defined.

(** * Tokens *)

(** X10.  A literal run announced at the top of the outer loop by a control
    byte [t] from 1 to 15 has [t + 3] bytes.  The capacity is checked first,
    then the input; with both in range exactly the next [t + 3] input bytes
    are appended and control passes to [first_literal_run]. *)
Theorem literal_token_copies (src : list byte) (maxDstLen : Z)
    (t : Z) (i : nat) (o : list byte) :
  1 <= t < 16 ->
  step src maxDstLen (mkState (L_top t) i o) =
  if maxDstLen <? op o + (t + 3) then Stop (Returned OUTPUT_OVERRUN 0 o)
  else if srcLen src <? Z.of_nat i + (t + 3)
       then Stop (Returned INPUT_OVERRUN 0 o)
       else Ok (mkState L_first_literal_run (i + Z.to_nat (t + 3))
                  (o ++ firstn (Z.to_nat (t + 3)) (skipn i src))).
Proof.
  intros Ht. unfold step. cbn [pc ip out].
  destruct (Z.ltb_spec t 16); [|lia].
  unfold extended_length. destruct (Z.eqb_spec t 0); [lia|]. cbn [bind].
  rewrite wrap32_small by lia.
  destruct (Z.ltb_spec maxDstLen (op o + (t + 3))) as [Hm|Hm].
  - unfold literal_run.
    destruct (Z.ltb_spec maxDstLen (op o + (t + 3))); [reflexivity|lia].
  - destruct (Z.ltb_spec (srcLen src) (Z.of_nat i + (t + 3))) as [Hs|Hs].
    + unfold literal_run.
      destruct (Z.ltb_spec maxDstLen (op o + (t + 3))); [lia|].
      destruct (Z.ltb_spec (srcLen src) (Z.of_nat i + (t + 3)));
        [reflexivity|lia].
    + apply literal_run_exact; lia.
Qed.

Lemma literal_token_copies_witness :
  let src := [x02; x41; x42; x43; x44; x45; x11; x00; x00] in
  1 <= 2 < 16 /\
  step src 5 (mkState (L_top 2) 1 []) =
  if 5 <? op [] + (2 + 3) then Stop (Returned OUTPUT_OVERRUN 0 [])
  else if srcLen src <? Z.of_nat 1 + (2 + 3)
       then Stop (Returned INPUT_OVERRUN 0 [])
       else Ok (mkState L_first_literal_run (1 + Z.to_nat (2 + 3))
                  ([] ++ firstn (Z.to_nat (2 + 3)) (skipn 1 src))).
Proof.
  cbv zeta. split; [lia|].
  apply (literal_token_copies [x02; x41; x42; x43; x44; x45; x11; x00; x00]
           5 2 1 []).
  lia.
Defined.

(** The copy loop appends one byte per iteration, each read from the output
    as it stands at that moment: the byte at [mSrc + k] for iteration [k]. *)
Lemma match_copy_spec maxDstLen n : forall mSrc o o',
  match_copy maxDstLen n mSrc o = Ok o' ->
  exists ext, o' = o ++ ext /\ length ext = n /\
    forall k, (k < n)%nat ->
      (mSrc < length o)%nat /\
      nth_error o' (length o + k) = nth_error o' (mSrc + k).
Proof.
  induction n as [|n IH]; intros mSrc o o' H; cbn [match_copy] in H.
  - apply Ok_inj in H. subst o'. exists []. rewrite app_nil_r.
    split; [reflexivity|]. split; [reflexivity|]. intros k Hk. lia.
  - unfold read_dst in H.
    destruct (nth_error o mSrc) as [b|] eqn:Hb; [|discriminate].
    cbn [bind] in H. unfold write_dst in H.
    destruct (op o <? maxDstLen); [|discriminate]. cbn [bind] in H.
    destruct (IH _ _ _ H) as (ext & -> & Hlen & Hk).
    assert (Hlt : (mSrc < length o)%nat) by (apply nth_error_Some; congruence).
    exists (b :: ext). rewrite <- app_assoc. cbn [app].
    split; [reflexivity|]. split; [cbn [length]; lia|].
    intros k Hkn. split; [assumption|]. destruct k as [|k].
    + rewrite !Nat.add_0_r.
      rewrite nth_error_app2 by lia. rewrite Nat.sub_diag. cbn [nth_error].
      rewrite nth_error_app1 by lia. now rewrite Hb.
    + specialize (Hk k ltac:(lia)). rewrite length_app in Hk.
      cbn [length] in Hk. destruct Hk as [_ Hk2].
      rewrite <- app_assoc in Hk2. cbn [app] in Hk2.
      replace (length o + S k)%nat with (length o + 1 + k)%nat by lia.
      replace (mSrc + S k)%nat with (S mSrc + k)%nat by lia.
      exact Hk2.
Qed.

(** X11.  A match that is carried out, on an input of at most 16 MiB: the
    resolved position lies a distance [d >= 1] below the write cursor,
    exactly [mLen >= 1] bytes are appended within the capacity, each equal
    to the byte [d] positions before it in the output (a match longer than
    its distance repeats bytes it has just written), and control passes to
    [match_done] with the cursor behind the token. *)
Theorem match_copy_replicates (src : list byte) (maxDstLen : Z)
    (s : state) (m : Z * Z * nat) (s' : state) :
  srcLen src <= 16777216 ->
  0 <= maxDstLen < 9223372036854775808 ->
  reachable src maxDstLen s -> match_site src s m ->
  step src maxDstLen s = Ok s' ->
  pc s' = L_match_done /\ ip s' = snd m /\
  exists d ext,
    1 <= d <= op (out s) /\ fst (fst m) = op (out s) - d /\
    out s' = out s ++ ext /\ Z.of_nat (length ext) = snd (fst m) /\
    1 <= snd (fst m) /\ op (out s') <= maxDstLen /\
    forall k, (k < length ext)%nat ->
      nth_error (out s') (length (out s) + k) =
      nth_error (out s') (length (out s) + k - Z.to_nat d).
Proof.
  intros Hshort Hm Hr Hsite Hs.
  destruct (reachable_inv src maxDstLen s (proj1 Hm) Hr) as [Hc Ho].
  destruct (match_site_distance src s m Hc Hsite) as (d & Hd & Hpos).
  assert (Hlen : 1 <= snd (fst m) < 18446744073709551616).
  { revert Hc. destruct Hsite as [t i o m' E | i o b m' Hb Ht E]; intros Hc.
    - unfold control_inv in Hc. cbn [pc ip] in Hc.
      destruct Hc as (c & _ & _ & Hct).
      pose proof (u8_range c) as Htr. rewrite Hct in Htr.
      pose proof (resolve_match_short src Hshort t i o Htr) as Hrm.
      rewrite E in Hrm. destruct m' as [[mPos mLen] i']. exact Hrm.
    - destruct m' as [[mPos mLen] i'].
      apply resolve_M1_direct_shape in E.
      destruct E as (c & _ & _ & -> & _). cbn [fst snd]. lia. }
  rewrite (match_site_step src maxDstLen s m Hsite) in Hs.
  destruct m as [[mPos mLen] i']. cbn [fst snd] in *.
  unfold commit_match in Hs.
  destruct (Z.leb_spec (op (out s)) mPos) as [|Hlt]; [discriminate|].
  destruct (Z.ltb_spec maxDstLen (op (out s) + mLen)) as [|Hroom];
    [discriminate|].
  destruct (match_copy maxDstLen (do_while_count mLen) (Z.to_nat mPos) (out s))
    as [o'|] eqn:E; [|discriminate].
  cbn [bind] in Hs. apply Ok_inj in Hs. subst s'. cbn [pc ip out].
  split; [reflexivity|]. split; [reflexivity|].
  destruct (match_copy_spec _ _ _ _ _ E) as (ext & -> & Hl & Hk).
  assert (Hcnt : do_while_count mLen = Z.to_nat mLen).
  { unfold do_while_count. destruct (Z.eqb_spec mLen 0); [lia|reflexivity]. }
  rewrite Hcnt in *.
  assert (Hop : 0 <= op (out s)) by (unfold op; lia).
  destruct (wrapped_position (op (out s)) d) as [Hin Hout]; [lia|lia|].
  assert (Hdle : d <= op (out s)).
  { destruct (Z_lt_le_dec (op (out s)) d) as [Hd'|Hd']; [|assumption].
    specialize (Hout Hd'). lia. }
  specialize (Hin Hdle).
  exists d, ext. split; [lia|]. split; [lia|]. split; [reflexivity|].
  split; [lia|]. split; [lia|]. split.
  { unfold op in *. rewrite length_app. lia. }
  intros k Hlt'. destruct (Hk k ltac:(lia)) as [_ Hk2]. rewrite Hk2.
  f_equal. unfold op in *. lia.
Qed.

Lemma stream_M2_reaches_match :
  reachable stream_M2 64 (mkState (L_match 65) 6 [x41; x42; x43; x44]).
Proof.
  exists 2%nat.
  eapply steps_more; [reflexivity|].
  eapply steps_more; [reflexivity|].
  apply steps_here.
Defined.

Lemma match_copy_replicates_witness :
  let s := mkState (L_match 65) 6 [x41; x42; x43; x44] in
  let m := (3, 4, 7%nat) in
  let s' := mkState L_match_done 7
              [x41; x42; x43; x44; x44; x44; x44; x44] in
  srcLen stream_M2 <= 16777216 /\
  0 <= 64 < 9223372036854775808 /\
  reachable stream_M2 64 s /\ match_site stream_M2 s m /\
  step stream_M2 64 s = Ok s' /\
  (pc s' = L_match_done /\ ip s' = snd m /\
   exists d ext,
     1 <= d <= op (out s) /\ fst (fst m) = op (out s) - d /\
     out s' = out s ++ ext /\ Z.of_nat (length ext) = snd (fst m) /\
     1 <= snd (fst m) /\ op (out s') <= 64 /\
     forall k, (k < length ext)%nat ->
       nth_error (out s') (length (out s) + k) =
       nth_error (out s') (length (out s) + k - Z.to_nat d)).
Proof.
  cbv zeta.
  assert (Hsite : match_site stream_M2
                    (mkState (L_match 65) 6 [x41; x42; x43; x44])
                    (3, 4, 7%nat))
    by (apply site_loop; reflexivity).
  split; [vm_compute; discriminate|]. split; [lia|].
  split; [exact stream_M2_reaches_match|]. split; [exact Hsite|].
  split; [reflexivity|].
  apply (match_copy_replicates stream_M2 64 _ _ _
           ltac:(vm_compute; discriminate) ltac:(lia)
           stream_M2_reaches_match Hsite eq_refl).
Defined.

(** * Where [OK] comes from *)





(** X13.  Conversely, every such token with a control byte from 0x11 to
    0x17 that a call reaches ends it with [OK] and the bytes written so far:
    not only the marker 0x11 0x00 0x00. *)
Theorem zero_distance_returns_OK (src : list byte) (maxDstLen : Z)
    (t : Z) (i : nat) (o : list byte) (b0 b1 : byte) :
  17 <= t <= 23 ->
  nth_error src i = Some b0 -> nth_error src (S i) = Some b1 ->
  u8 b0 < 4 -> u8 b1 = 0 ->
  op o < 18446744073709551616 ->
  reachable src maxDstLen (mkState (L_match t) i o) ->
  decompress src maxDstLen = Returned OK (length o) o.
Proof.
  intros Ht H0 H1 Hb0 Hb1 Ho Hr.
  apply (reachable_stop src maxDstLen _ _ Hr).
  assert (Hlen : (S i < length src)%nat) by (apply nth_error_Some; congruence).
  unfold step. cbn [pc ip out]. unfold resolve_match.
  destruct (Z.leb_spec 64 t); [lia|]. destruct (Z.leb_spec 32 t); [lia|].
  destruct (Z.leb_spec 16 t); [|lia].
  unfold resolve_M4, extended_length.
  assert (Hl7 : Z.land t 7 <> 0 /\ Z.land t 8 = 0).
  { assert (Hc : t = 17 \/ t = 18 \/ t = 19 \/ t = 20 \/ t = 21 \/ t = 22
                 \/ t = 23) by lia.
    destruct Hc as [->|[->|[->|[->|[->|[->| ->]]]]]];
      split; vm_compute; congruence. }
  destruct Hl7 as [Hl7 Hl8].
  destruct (Z.eqb_spec (Z.land t 7) 0); [contradiction|]. cbn [bind].
  unfold srcLen.
  destruct (Z.ltb_spec (Z.of_nat (length src)) (Z.of_nat i + 2)); [lia|].
  unfold read_src. rewrite H0, H1. cbn [bind].
  rewrite Hl8, Hb1.
  pose proof (u8_range b0) as Hr0.
  assert (Hs : Z.shiftr (u8 b0) 2 = 0).
  { rewrite Z.shiftr_div_pow2 by lia. apply Z.div_small. change (2 ^ 2) with 4.
    lia. }
  rewrite Hs. change (Z.shiftl 0 11) with 0. change (Z.shiftl 0 6) with 0.
  change (0 + 0) with 0. rewrite !Z.sub_0_r.
  assert (Hw : wrap64 (op o) = op o)
    by (apply wrap64_small; unfold op in *; lia).
  rewrite !Hw. rewrite Z.eqb_refl. reflexivity.
Qed.

Lemma zero_distance_returns_OK_witness :
  let src := [x12; x41; x13; x03; x00] in
  17 <= 19 <= 23 /\
  nth_error src 3 = Some x03 /\ nth_error src 4 = Some x00 /\
  u8 x03 < 4 /\ u8 x00 = 0 /\
  op [x41] < 18446744073709551616 /\
  reachable src 8 (mkState (L_match 19) 3 [x41]) /\
  decompress src 8 = Returned OK (length [x41]) [x41].
Proof.
  cbv zeta.
  assert (Hr : reachable [x12; x41; x13; x03; x00] 8
                 (mkState (L_match 19) 3 [x41])).
  { exists 2%nat.
    eapply steps_more; [reflexivity|].
    eapply steps_more; [reflexivity|].
    apply steps_here. }
  split; [lia|]. split; [reflexivity|]. split; [reflexivity|].
  split; [vm_compute; reflexivity|]. split; [reflexivity|].
  split; [vm_compute; reflexivity|]. split; [exact Hr|].
  apply (zero_distance_returns_OK [x12; x41; x13; x03; x00] 8 19 3 [x41]
           x03 x00);
    [lia|reflexivity|reflexivity|vm_compute; reflexivity|reflexivity
    |vm_compute; reflexivity|exact Hr].
Defined.

(** * Instances of the decoder properties *)



Lemma short_input_write_safe_witness :
  srcLen stream_M2 <= 16777216 /\ 0 <= 4 /\
  decompress stream_M2 4 <> Faulted DstWriteOutOfBounds.
Proof.
  split; [vm_compute; discriminate|]. split; [lia|].
  apply (short_input_write_safe stream_M2 4); [vm_compute; discriminate|lia].
Defined.

Lemma source_overread_characterised_witness :
  srcLen [x00] <= 16777216 /\ 0 <= 16 /\
  (forall f, decompress [x00] 16 = Faulted f <->
             f = SrcReadOutOfBounds /\
             exists s, reachable [x00] 16 s /\ ip s = length [x00] /\
                       extension_point s).
Proof.
  split; [vm_compute; discriminate|]. split; [lia|].
  apply (source_overread_characterised [x00] 16); [vm_compute; discriminate|lia].
Defined.

Lemma decode_ignores_padding_and_spare_capacity_witness :
  15 <= 64 /\
  decompress literal_stream 15 = Returned OK 15 literal_text /\
  decompress (literal_stream ++ [x00; x00; xff]) 64 =
  Returned OK 15 literal_text.
Proof.
  split; [lia|]. split; [reflexivity|].
  apply (decode_ignores_padding_and_spare_capacity
           literal_stream [x00; x00; xff] 15 64 15 literal_text);
    [lia|reflexivity].
Defined.

Lemma stored_round_trip_witness :
  Z.of_nat (length literal_text) < 4294967296 /\
  Z.of_nat (length literal_text) <= 15 /\
  decompress (encode_stored literal_text) 15 =
  Returned OK (length literal_text) literal_text.
Proof.
  split; [vm_compute; reflexivity|]. split; [vm_compute; discriminate|].
  apply (stored_round_trip literal_text 15);
    [vm_compute; reflexivity|vm_compute; discriminate].
Defined.

(** * Properties of the container *)

Import NFlC.
#[local] Arguments Z.mul : simpl never.
#[local] Arguments Z.add : simpl never.


Section Parser.

Variable data : list byte.

Lemma strides_beyond n : forall a,
  size data < Z.of_nat a * CHUNK_SIZE + sizeof_NFlCChunkHeader ->
  filter (header_at data) (strides a n) = [].
Proof.
  unfold strides, CHUNK_SIZE, sizeof_NFlCChunkHeader.
  induction n as [|n IH]; intros a Ha; [reflexivity|].
  cbn [seq map filter]. unfold header_at at 1.
  unfold sizeof_NFlCChunkHeader.
  destruct (Z.leb_spec (Z.of_nat a * 32768 + 16) (size data)); [lia|].
  cbn [andb]. apply IH. lia.
Qed.

Lemma find_headers_strides n : forall a cs,
  (0 < a)%nat ->
  find_headers data (strides a n) cs =
  Some (cs ++ map (header_info data) (filter (header_at data) (strides a n))).
Proof.
  induction n as [|n IH]; intros a cs Ha.
  - cbn. now rewrite app_nil_r.
  - change (strides a (S n))
      with (Z.of_nat a * CHUNK_SIZE :: strides (S a) n).
    cbn [find_headers filter].
    unfold header_at at 1.
    destruct (Z.ltb_spec (size data)
                (Z.of_nat a * CHUNK_SIZE + sizeof_NFlCChunkHeader))
      as [Hlt|Hge].
    + destruct (Z.leb_spec (Z.of_nat a * CHUNK_SIZE + sizeof_NFlCChunkHeader)
                  (size data)); [lia|].
      cbn [andb]. rewrite strides_beyond.
      * cbn. now rewrite app_nil_r.
      * unfold CHUNK_SIZE, sizeof_NFlCChunkHeader in *. lia.
    + destruct (Z.leb_spec (Z.of_nat a * CHUNK_SIZE + sizeof_NFlCChunkHeader)
                  (size data)); [|lia].
      cbn [andb].
      assert (Hnz : (Z.of_nat a * CHUNK_SIZE =? 0) = false).
      { apply Z.eqb_neq. unfold CHUNK_SIZE. lia. }
      destruct (magic_at data (Z.of_nat a * CHUNK_SIZE)); cbn [negb].
      * rewrite IH by lia. cbn [map]. rewrite <- app_assoc. cbn [app].
        unfold header_info at 2. rewrite Hnz. reflexivity.
      * rewrite Hnz. apply IH. lia.
Qed.


Lemma stride_offsets_head :
  MAIN_HEADER_SIZE <= size data ->
  exists n, stride_offsets (size data) = 0 :: strides 1 n.
Proof.
  unfold MAIN_HEADER_SIZE, stride_offsets, strides, CHUNK_SIZE. intros Hs.
  assert (H1 : 1 <= (size data + 32768 - 1) / 32768).
  { apply Z.div_le_lower_bound; lia. }
  destruct (Z.to_nat ((size data + 32768 - 1) / 32768)) as [|n] eqn:E; [lia|].
  exists n. reflexivity.
Qed.

Lemma fill_sizes_nil sz cs : fill_sizes sz cs = [] -> cs = [].
Proof. destruct cs; [reflexivity|discriminate]. Qed.

End Parser.

(** The two loops of [parseChunks] in closed form: the table is built from
    the stride positions that hold a header, in ascending order. *)
Lemma parseChunks_closed_form (f : NFlCFile) :
  parseChunks f =
  if (MAIN_HEADER_SIZE <=? size (data_ f)) && magic_at (data_ f) 0
  then (true, parsed f)
  else (false, clear_chunks f).
Proof.
  unfold parseChunks.
  destruct (Z.ltb_spec (size (data_ f)) MAIN_HEADER_SIZE) as [Hlt|Hge].
  - destruct (Z.leb_spec MAIN_HEADER_SIZE (size (data_ f))); [lia|].
    reflexivity.
  - destruct (Z.leb_spec MAIN_HEADER_SIZE (size (data_ f))); [|lia].
    cbn [andb].
    destruct (stride_offsets_head (data_ f) Hge) as [n Hn].
    unfold parsed, chunk_headers. rewrite Hn.
    cbn [find_headers filter].
    unfold header_at at 1.
    assert (H16 : (size (data_ f) <? 0 + sizeof_NFlCChunkHeader) = false).
    { apply Z.ltb_ge. unfold sizeof_NFlCChunkHeader, MAIN_HEADER_SIZE in *.
      lia. }
    assert (H16' : (0 + sizeof_NFlCChunkHeader <=? size (data_ f)) = true).
    { apply Z.leb_le. unfold sizeof_NFlCChunkHeader, MAIN_HEADER_SIZE in *.
      lia. }
    rewrite H16, H16'. cbn [andb].
    destruct (magic_at (data_ f) 0); cbn [negb].
    + rewrite find_headers_strides by lia.
      cbn [app map Z.eqb fill_sizes]. reflexivity.
    + reflexivity.
Qed.

(** ** The chunk table *)

Lemma in_strides a n off :
  In off (strides a n) <->
  exists k, (a <= k < a + n)%nat /\ off = Z.of_nat k * CHUNK_SIZE.
Proof.
  unfold strides. rewrite in_map_iff. split.
  - intros (k & <- & Hk). apply in_seq in Hk. eauto.
  - intros (k & Hk & ->). exists k. split; [reflexivity|]. now apply in_seq.
Qed.

Lemma in_stride_offsets sz off :
  In off (stride_offsets sz) <->
  exists k, 0 <= k /\ off = k * CHUNK_SIZE /\ off < sz.
Proof.
  change (stride_offsets sz)
    with (strides 0 (Z.to_nat ((sz + CHUNK_SIZE - 1) / CHUNK_SIZE))).
  rewrite in_strides. unfold CHUNK_SIZE. split.
  - intros (k & Hk & ->). exists (Z.of_nat k). split; [lia|].
    split; [reflexivity|].
    assert (Z.of_nat k < (sz + 32768 - 1) / 32768) by lia.
    assert (Z.of_nat k + 1 <= (sz + 32768 - 1) / 32768) by lia.
    pose proof (Z.mul_div_le (sz + 32768 - 1) 32768 ltac:(lia)). lia.
  - intros (k & Hk & -> & Hlt). exists (Z.to_nat k).
    rewrite Z2Nat.id by lia. split; [|reflexivity].
    assert (k + 1 <= (sz + 32768 - 1) / 32768); [|lia].
    apply Z.div_le_lower_bound; lia.
Qed.

Lemma strides_sorted n : forall a, StronglySorted Z.lt (strides a n).
Proof.
  induction n as [|n IH]; intros a; [constructor|].
  change (strides a (S n)) with (Z.of_nat a * CHUNK_SIZE :: strides (S a) n).
  constructor; [apply IH|].
  apply Forall_forall. intros off Hin. apply in_strides in Hin.
  destruct Hin as (k & Hk & ->). unfold CHUNK_SIZE. lia.
Qed.

Lemma filter_sorted {A : Type} (R : A -> A -> Prop) (p : A -> bool) l :
  StronglySorted R l -> StronglySorted R (filter p l).
Proof.
  induction 1 as [|a l Hs IH Hall]; cbn [filter]; [constructor|].
  destruct (p a); [|assumption].
  constructor; [assumption|].
  apply Forall_forall. intros x Hx. apply filter_In in Hx.
  rewrite Forall_forall in Hall. now apply Hall.
Qed.

Lemma fill_sizes_offsets sz cs :
  map offset (fill_sizes sz cs) = map offset cs.
Proof. induction cs as [|c cs IH]; cbn; [reflexivity|now rewrite IH]. Qed.

Lemma chunk_headers_spec data off :
  In off (chunk_headers data) <->
  (exists k, 0 <= k /\ off = k * CHUNK_SIZE) /\
  off + sizeof_NFlCChunkHeader <= size data /\ magic_at data off = true.
Proof.
  unfold chunk_headers. rewrite filter_In, in_stride_offsets.
  unfold header_at. rewrite andb_true_iff, Z.leb_le.
  unfold sizeof_NFlCChunkHeader. split.
  - intros ((k & Hk & Hoff & Hlt) & Hle & Hm). eauto.
  - intros ((k & Hk & Hoff) & Hle & Hm). split; [|auto].
    exists k. repeat split; [assumption|assumption|lia].
Qed.

Lemma chunk_headers_sorted data : StronglySorted Z.lt (chunk_headers data).
Proof. apply filter_sorted. apply (strides_sorted _ 0). Qed.

Lemma stride_gap a b k kb :
  a = k * 32768 -> b = kb * 32768 -> a < b -> a + 32768 <= b.
Proof. lia. Qed.

Lemma tiled_fill data sz offs :
  sz < 18446744073709551616 ->
  StronglySorted Z.lt offs -> Forall (stride_ok sz) offs ->
  tiled sz (fill_sizes sz (map (header_info data) offs)).
Proof.
  intros Hsz Hs Hall. induction offs as [|a rest IH]; [exact I|].
  apply StronglySorted_inv in Hs. destruct Hs as [Hs Hlt].
  apply Forall_inv_tail in Hall as Hrest. apply Forall_inv in Hall as Ha.
  specialize (IH Hs Hrest).
  destruct Ha as ((k & Hk & Hak) & Ha16 & Ha0).
  cbn [map fill_sizes tiled].
  assert (Hdo : dataOffset (header_info data a) =
                if a =? 0 then MAIN_HEADER_SIZE else a + CHUNK_HEADER_SIZE)
    by reflexivity.
  assert (Hoff : offset (header_info data a) = a) by reflexivity.
  set (next := match map (header_info data) rest with
               | c' :: _ => offset c'
               | [] => sz
               end).
  assert (Hnext : (if a =? 0 then MAIN_HEADER_SIZE
                   else a + CHUNK_HEADER_SIZE) <= next /\ next <= sz).
  { unfold next. destruct rest as [|b rest']; cbn [map].
    - unfold sizeof_NFlCChunkHeader, CHUNK_HEADER_SIZE, MAIN_HEADER_SIZE in *.
      destruct (Z.eqb_spec a 0); lia.
    - change (offset (header_info data b)) with b.
      apply Forall_inv in Hlt as Hab. apply Forall_inv in Hrest as Hb.
      destruct Hb as ((kb & Hkb & Hbk) & Hb16 & _).
      unfold sizeof_NFlCChunkHeader, CHUNK_HEADER_SIZE, MAIN_HEADER_SIZE,
        CHUNK_SIZE in *.
      pose proof (stride_gap a b k kb Hak Hbk Hab) as Hgap.
      destruct (Z.eqb_spec a 0); lia. }
  assert (Hnext' : match fill_sizes sz (map (header_info data) rest) with
                   | c' :: _ => offset c'
                   | [] => sz
                   end = next).
  { unfold next. destruct rest; reflexivity. }
  rewrite Hnext'.
  cbn [set_dataSize offset dataOffset dataSize]. rewrite Hdo, Hoff.
  split; [unfold CHUNK_SIZE in *; lia|].
  split; [reflexivity|]. split; [tauto|]. split; [tauto|].
  split.
  { intros Hne. unfold next. destruct rest as [|b rest']; [contradiction|].
    cbn [map]. change (offset (header_info data b)) with b.
    apply Forall_inv in Hlt as Hab. apply Forall_inv in Hrest as Hb.
    destruct Hb as ((kb & Hkb & Hbk) & _).
    unfold CHUNK_SIZE in *. apply (stride_gap a b k kb); assumption. }
  split; [|exact IH].
  unfold wrap64. apply Z.mod_small.
  unfold sizeof_NFlCChunkHeader, CHUNK_HEADER_SIZE, MAIN_HEADER_SIZE,
    CHUNK_SIZE in *.
  revert Hnext. destruct (Z.eqb_spec a 0); intros Hnext; lia.
Qed.

Lemma chunk_headers_ok data :
  MAIN_HEADER_SIZE <= size data ->
  Forall (stride_ok (size data)) (chunk_headers data).
Proof.
  intros Hs. apply Forall_forall. intros off Hin.
  apply chunk_headers_spec in Hin. destruct Hin as (Hk & Hle & _).
  repeat split; auto.
Qed.

Lemma parse_accepted (f f' : NFlCFile) :
  parseChunks f = (true, f') ->
  MAIN_HEADER_SIZE <= size (data_ f) /\ magic_at (data_ f) 0 = true /\
  f' = parsed f.
Proof.
  rewrite parseChunks_closed_form.
  destruct (Z.leb_spec MAIN_HEADER_SIZE (size (data_ f))) as [Hge|Hlt];
    [|discriminate].
  destruct (magic_at (data_ f) 0); [|discriminate]. cbn [andb].
  intros H. inversion H. auto.
Qed.

Lemma parsed_head (f : NFlCFile) :
  MAIN_HEADER_SIZE <= size (data_ f) -> magic_at (data_ f) 0 = true ->
  exists c rest,
    chunks_ (parsed f) = c :: rest /\ offset c = 0 /\
    dataOffset c = MAIN_HEADER_SIZE.
Proof.
  intros Hge Hm. unfold parsed. cbn [chunks_].
  assert (Hin : In 0 (chunk_headers (data_ f))).
  { apply chunk_headers_spec. split; [exists 0; lia|].
    unfold sizeof_NFlCChunkHeader, MAIN_HEADER_SIZE in *. split; [lia|].
    assumption. }
  pose proof (chunk_headers_sorted (data_ f)) as Hs.
  pose proof (chunk_headers_ok (data_ f) Hge) as Hok.
  destruct (chunk_headers (data_ f)) as [|a rest]; [contradiction|].
  assert (Ha : a = 0).
  { destruct Hin as [Hin|Hin]; [assumption|].
    inversion Hs as [|? ? _ Hall]; subst.
    rewrite Forall_forall in Hall. specialize (Hall 0 Hin).
    inversion Hok as [|? ? ((k & Hk & Hak) & _) _]; subst.
    unfold CHUNK_SIZE in *. lia. }
  subst a. cbn [map fill_sizes]. eexists. eexists.
  split; [reflexivity|]. split; reflexivity.
Qed.

Lemma parsed_tiled (f : NFlCFile) :
  size (data_ f) < 18446744073709551616 ->
  MAIN_HEADER_SIZE <= size (data_ f) ->
  tiled (size (data_ f)) (chunks_ (parsed f)).
Proof.
  intros Hsz Hge. unfold parsed. cbn [chunks_].
  apply tiled_fill; [assumption|apply chunk_headers_sorted|].
  now apply chunk_headers_ok.
Qed.

(** What the reconstruction strategies rely on after a successful parse. *)
Lemma parse_facts (f f' : NFlCFile) :
  size (data_ f) < 18446744073709551616 ->
  parseChunks f = (true, f') ->
  tiled (size (data_ f)) (chunks_ f') /\ data_ f' = data_ f /\
  MAIN_HEADER_SIZE <= size (data_ f) /\
  mainCompressedSize_ f' = read_u32 (data_ f) 0x18 /\
  exists c rest,
    chunks_ f' = c :: rest /\ offset c = 0 /\
    dataOffset c = MAIN_HEADER_SIZE.
Proof.
  intros Hsz Hp. destruct (parse_accepted f f' Hp) as (Hge & Hm & ->).
  split; [now apply parsed_tiled|]. split; [reflexivity|].
  split; [assumption|]. split; [reflexivity|]. now apply parsed_head.
Qed.

(** X14.  [parseChunks] succeeds exactly when the buffer holds at least the
    64 bytes of the main header and starts with the signature.  When it
    fails the table is empty and the recorded header fields are untouched;
    when it succeeds the buffer is unchanged and the table starts with the
    chunk at offset 0, whose payload starts at 64. *)
Theorem parseChunks_outcome (f : NFlCFile) :
  (fst (parseChunks f) = true <->
   MAIN_HEADER_SIZE <= size (data_ f) /\ magic_at (data_ f) 0 = true) /\
  (fst (parseChunks f) = false -> snd (parseChunks f) = clear_chunks f) /\
  (fst (parseChunks f) = true ->
   data_ (snd (parseChunks f)) = data_ f /\
   exists c rest,
     chunks_ (snd (parseChunks f)) = c :: rest /\
     offset c = 0 /\ dataOffset c = MAIN_HEADER_SIZE).
Proof.
  rewrite parseChunks_closed_form.
  destruct (Z.leb_spec MAIN_HEADER_SIZE (size (data_ f))) as [Hge|Hlt];
    cbn [andb].
  - destruct (magic_at (data_ f) 0) eqn:Hm; cbn [fst snd].
    + split; [tauto|]. split; [discriminate|]. intros _.
      split; [reflexivity|]. now apply parsed_head.
    + split; [split; [discriminate|intros [_ H]; discriminate]|].
      split; [reflexivity|discriminate].
  - cbn [fst snd]. split; [split; [discriminate|lia]|].
    split; [reflexivity|discriminate].
Qed.

(** X15.  After a successful parse the table lists, in ascending order,
    exactly the multiples of 0x8000 at which a whole 16-byte chunk header
    lies inside the buffer and carries the signature. *)
Theorem parseChunks_table (f f' : NFlCFile) :
  parseChunks f = (true, f') ->
  map offset (chunks_ f') = chunk_headers (data_ f) /\
  (forall off, In off (map offset (chunks_ f')) <->
     (exists k, 0 <= k /\ off = k * CHUNK_SIZE) /\
     off + sizeof_NFlCChunkHeader <= size (data_ f) /\
     magic_at (data_ f) off = true) /\
  StronglySorted Z.lt (map offset (chunks_ f')).
Proof.
  rewrite parseChunks_closed_form.
  destruct ((MAIN_HEADER_SIZE <=? size (data_ f)) && magic_at (data_ f) 0);
    [|discriminate].
  intros H. inversion H; subst f'. clear H.
  unfold parsed. cbn [chunks_].
  rewrite fill_sizes_offsets, map_map. cbn [header_info offset].
  rewrite map_id.
  split; [reflexivity|]. split.
  - intros off. apply chunk_headers_spec.
  - apply chunk_headers_sorted.
Qed.

(** X16.  After a successful parse the payload ranges tile the buffer: each
    starts behind its header (64 bytes at offset 0, 16 elsewhere) and ends
    where the next listed header starts, the last one at the end of the
    buffer; listed headers are at least a stride apart, and no size is the
    result of a wrapped subtraction. *)
Theorem parseChunks_tiles (f f' : NFlCFile) :
  size (data_ f) < 18446744073709551616 ->
  parseChunks f = (true, f') ->
  tiled (size (data_ f)) (chunks_ f').
Proof.
  intros Hsz Hp. now destruct (parse_facts f f' Hsz Hp) as (Ht & _).
Qed.

(** ** The reconstruction strategies on a parsed container *)

Lemma tiled_in_bounds sz cs : tiled sz cs -> Forall (in_bounds sz) cs.
Proof.
  induction cs as [|c rest IH]; intros H; [constructor|].
  cbn [tiled] in H. destruct H as (H0 & Hdo & Hle & Hn & _ & Hds & Ht).
  constructor; [|now apply IH].
  unfold in_bounds, MAIN_HEADER_SIZE, CHUNK_HEADER_SIZE in *.
  revert Hdo. destruct (Z.eqb_spec (offset c) 0); intros Hdo; lia.
Qed.

Lemma slice_length data start len :
  0 <= start -> 0 <= len -> start + len <= size data ->
  Z.of_nat (length (slice data start len)) = len.
Proof.
  intros Hs Hl Hb. unfold slice, size in *.
  rewrite length_firstn, length_skipn. lia.
Qed.

Lemma extractRaw_loop_concat data cs : forall res,
  size data < 18446744073709551616 ->
  Forall (in_bounds (size data)) cs ->
  extractRaw_loop data cs res = res ++ concat (map (payload data) cs).
Proof.
  induction cs as [|c rest IH]; intros res Hsz Hall; cbn.
  - now rewrite app_nil_r.
  - apply Forall_inv_tail in Hall as Hrest. apply Forall_inv in Hall as Hc.
    destruct Hc as (H0 & H1 & H2).
    unfold wrap64. rewrite Z.mod_small by lia.
    destruct (Z.leb_spec (dataOffset c + dataSize c) (size data)); [|lia].
    rewrite IH by assumption. unfold payload. now rewrite <- app_assoc.
Qed.

Lemma tiled_total sz c rest :
  tiled sz (c :: rest) ->
  fold_right (fun c acc => dataSize c + acc) 0 (c :: rest) =
  sz - dataOffset c - CHUNK_HEADER_SIZE * Z.of_nat (length rest).
Proof.
  revert c. induction rest as [|c' rest IH]; intros c H.
  - cbn [tiled] in H. destruct H as (_ & _ & _ & _ & _ & Hds & _).
    cbn [fold_right length]. lia.
  - cbn [tiled] in H. destruct H as (H0 & Hdo & Hle & Hn & _ & Hds & Ht).
    specialize (IH c' Ht).
    cbn [fold_right length] in *. rewrite IH.
    cbn [tiled] in Ht. destruct Ht as (H0' & Hdo' & _).
    assert (offset c' <> 0).
    { unfold MAIN_HEADER_SIZE, CHUNK_HEADER_SIZE in *.
      revert Hdo. destruct (Z.eqb_spec (offset c) 0); intros Hdo; lia. }
    revert Hdo'. destruct (Z.eqb_spec (offset c') 0); intros Hdo';
      [contradiction|].
    unfold CHUNK_HEADER_SIZE in *. lia.
Qed.

Lemma length_concat_payload data cs :
  Forall (in_bounds (size data)) cs ->
  Z.of_nat (length (concat (map (payload data) cs))) =
  fold_right (fun c acc => dataSize c + acc) 0 cs.
Proof.
  induction cs as [|c rest IH]; intros Hall; [reflexivity|].
  apply Forall_inv_tail in Hall as Hrest. apply Forall_inv in Hall as Hc.
  destruct Hc as (H0 & H1 & H2).
  cbn [map concat fold_right]. rewrite length_app, Nat2Z.inj_add.
  rewrite IH by assumption. unfold payload.
  now rewrite slice_length by assumption.
Qed.

Lemma extractRaw_tiled (f : NFlCFile) c rest :
  size (data_ f) < 18446744073709551616 ->
  tiled (size (data_ f)) (chunks_ f) ->
  chunks_ f = c :: rest -> dataOffset c = MAIN_HEADER_SIZE ->
  extractRaw f = concat (map (payload (data_ f)) (chunks_ f)) /\
  Z.of_nat (length (extractRaw f)) =
  size (data_ f) - MAIN_HEADER_SIZE
  - CHUNK_HEADER_SIZE * (Z.of_nat (length (chunks_ f)) - 1).
Proof.
  intros Hsz Ht Hcs Hdo.
  pose proof (tiled_in_bounds _ _ Ht) as Hb.
  unfold extractRaw.
  rewrite extractRaw_loop_concat by assumption. cbn [app].
  split; [reflexivity|].
  rewrite length_concat_payload by assumption.
  rewrite Hcs in *. rewrite (tiled_total (size (data_ f))) by assumption.
  cbn [length]. rewrite Hdo. lia.
Qed.

(** X17.  [extractRaw] on a parsed container: its bounds check skips no
    chunk, and the result is the payloads in table order, that is the
    buffer without its headers: 64 + 16 (n - 1) bytes shorter for n
    chunks. *)
Theorem extractRaw_parsed (f f' : NFlCFile) :
  size (data_ f) < 18446744073709551616 ->
  parseChunks f = (true, f') ->
  extractRaw f' = concat (map (payload (data_ f)) (chunks_ f')) /\
  Z.of_nat (length (extractRaw f')) =
  size (data_ f) - MAIN_HEADER_SIZE
  - CHUNK_HEADER_SIZE * (Z.of_nat (length (chunks_ f')) - 1).
Proof.
  intros Hsz Hp.
  destruct (parse_facts f f' Hsz Hp)
    as (Ht & Hd & _ & _ & c & rest & Hcs & _ & Hdo).
  rewrite <- Hd in *. now apply (extractRaw_tiled f' c rest).
Qed.

Lemma decompressChunked_loop_assemble cap data cs : forall res,
  size data < 18446744073709551616 ->
  Forall (in_bounds (size data)) cs ->
  decompressChunked_loop cap data cs res =
  match assemble (cap * 2) data cs with
  | Value r => Value (res ++ r)
  | Aborted o => Aborted o
  end.
Proof.
  induction cs as [|c rest IH]; intros res Hsz Hall.
  - cbn. now rewrite app_nil_r.
  - apply Forall_inv_tail in Hall as Hrest. apply Forall_inv in Hall as Hc.
    destruct Hc as (H0 & H1 & H2).
    cbn [decompressChunked_loop assemble].
    unfold wrap64. rewrite Z.mod_small by lia.
    destruct (Z.ltb_spec (size data) (dataOffset c + dataSize c)); [lia|].
    unfold chunk_output. fold (payload data c).
    destruct (LZO1X.decompress (payload data c) (cap * 2)) as [r n w|fl|];
      try reflexivity.
    destruct r; try (rewrite IH by assumption;
      destruct (assemble (cap * 2) data rest);
      [now rewrite <- app_assoc|reflexivity]).
    destruct (0 <? n)%nat; rewrite IH by assumption;
      destruct (assemble (cap * 2) data rest);
      try reflexivity; now rewrite <- app_assoc.
Qed.

Lemma decompressChunked_tiled (f : NFlCFile) :
  size (data_ f) < 18446744073709551616 ->
  tiled (size (data_ f)) (chunks_ f) ->
  decompressChunked f = assemble (CHUNK_SIZE * 2) (data_ f) (chunks_ f).
Proof.
  intros Hsz Ht. unfold decompressChunked.
  rewrite decompressChunked_loop_assemble;
    [|assumption|now apply tiled_in_bounds].
  destruct (assemble (CHUNK_SIZE * 2) (data_ f) (chunks_ f)); reflexivity.
Qed.



Lemma byte_at_range data off : 0 <= byte_at data off < 256.
Proof. unfold byte_at. apply u8_range. Qed.

Lemma read_u32_range data off : 0 <= read_u32 data off < 4294967296.
Proof.
  unfold read_u32.
  pose proof (byte_at_range data off).
  pose proof (byte_at_range data (off + 1)).
  pose proof (byte_at_range data (off + 2)).
  pose proof (byte_at_range data (off + 3)).
  rewrite !Z.shiftl_mul_pow2 by lia.
  change (2 ^ 8) with 256. change (2 ^ 16) with 65536.
  change (2 ^ 24) with 16777216. lia.
Qed.




Lemma is_empty_true v : is_empty v = true <-> v = [].
Proof. destruct v; cbn; split; congruence. Qed.


Lemma fill_sizes_fields (P : ChunkInfo -> Prop) sz cs :
  (forall c n, P c -> P (set_dataSize c n)) ->
  Forall P cs -> Forall P (fill_sizes sz cs).
Proof.
  intros HP. induction 1 as [|c rest Hc _ IH]; cbn [fill_sizes];
    constructor; auto.
Qed.

(** X21.  The fields a successful parse records: the little-endian words of
    the main header at 0x18, 0x28, 0x08 and 0x0C, each below 2^32, and for
    every chunk the word at its offset + 4 as [version] and bits 8 to 23 of
    that word as [chunkIndex]. *)
Theorem parseChunks_fields (f f' : NFlCFile) :
  parseChunks f = (true, f') ->
  (mainCompressedSize_ f' = read_u32 (data_ f) 0x18 /\
   mainDecompressedSize_ f' = read_u32 (data_ f) 0x28 /\
   mainFlags1_ f' = read_u32 (data_ f) 0x08 /\
   mainFlags2_ f' = read_u32 (data_ f) 0x0C) /\
  (0 <= mainCompressedSize_ f' < 4294967296 /\
   0 <= mainDecompressedSize_ f' < 4294967296) /\
  Forall (fun c =>
            version c = read_u32 (data_ f) (offset c + 4) /\
            chunkIndex c = Z.land (Z.shiftr (version c) 8) 0xFFFF /\
            0 <= chunkIndex c < 65536)
         (chunks_ f').
Proof.
  intros Hp. destruct (parse_accepted f f' Hp) as (_ & _ & ->).
  unfold parsed. cbn [mainCompressedSize_ mainDecompressedSize_ mainFlags1_
                      mainFlags2_ chunks_].
  split; [repeat split|]. split; [split; apply read_u32_range|].
  apply fill_sizes_fields.
  - intros c n H. exact H.
  - apply Forall_forall. intros c Hin. apply in_map_iff in Hin.
    destruct Hin as (off & <- & _). cbn [header_info version offset chunkIndex].
    split; [reflexivity|]. split; [reflexivity|].
    apply (land_range _ 16). lia.
Qed.


(** X22.  Every buffer of 65536 bytes with the signature at offsets 0 and
    32768 parses to the table of two chunks (0, 64, 32704) and
    (32768, 32784, 32752), in this order. *)
Theorem parse_two_strides (f : NFlCFile) :
  size (data_ f) = 65536 ->
  magic_at (data_ f) 0 = true -> magic_at (data_ f) 32768 = true ->
  fst (parseChunks f) = true /\
  map (fun c => (offset c, dataOffset c, dataSize c))
      (chunks_ (snd (parseChunks f))) =
  [(0, 64, 32704); (32768, 32784, 32752)].
Proof.
  intros Hsz H0 H1. rewrite parseChunks_closed_form.
  rewrite Hsz, H0. change (MAIN_HEADER_SIZE <=? 65536) with true.
  cbn [andb fst snd]. split; [reflexivity|].
  unfold parsed. cbn [chunks_]. unfold chunk_headers. rewrite Hsz.
  change (stride_offsets 65536) with [0; 32768].
  cbn [filter]. unfold header_at. rewrite Hsz, H0, H1.
  change (0 + sizeof_NFlCChunkHeader <=? 65536) with true.
  change (32768 + sizeof_NFlCChunkHeader <=? 65536) with true.
  cbn [andb map fill_sizes]. reflexivity.
Qed.


(** * The single-block strategy, end to end *)

Lemma single_block_decodes (f f' : NFlCFile) (n : nat)
    (w : list byte) :
  size (data_ f) < 18446744073709551616 ->
  parseChunks f = (true, f') ->
  LZO1X.decompress
    (slice (data_ f) MAIN_HEADER_SIZE
       (Z.min (read_u32 (data_ f) 0x18) (size (data_ f) - MAIN_HEADER_SIZE)))
    (read_u32 (data_ f) 0x28) = Returned OK n w ->
  w <> [] ->
  NFlC.decompress f' = Value w /\ decompressSingle f' = Value w.
Proof.
  intros Hsz Hp Hdec Hne.
  destruct (parse_facts f f' Hsz Hp)
    as (_ & Hd & Hge & Hcz & c & rest & Hcs & _ & Hdo).
  destruct (parse_accepted f f' Hp) as (_ & _ & Hf').
  assert (Hdz : mainDecompressedSize_ f' = read_u32 (data_ f) 0x28)
    by (subst f'; reflexivity).
  pose proof (read_u32_range (data_ f) 0x28) as Hr.
  destruct (result_accounting _ _ _ _ _ (proj1 Hr) Hdec) as (Hw & Hn & _).
  specialize (Hn eq_refl).
  assert (Hsingle : decompressSingle f' = Value w).
  { unfold decompressSingle. rewrite Hcs, Hdz, Hd, Hcz, Hdo.
    destruct (Z.eqb_spec (read_u32 (data_ f) 0x28) 0) as [Hz|Hnz].
    - destruct w; [contradiction|]. cbn [length] in Hw. lia.
    - rewrite wrap64_small by (unfold MAIN_HEADER_SIZE in *; lia).
      rewrite Hdec. now rewrite Hn, firstn_all. }
  split; [|assumption].
  unfold NFlC.decompress. rewrite Hsingle.
  destruct w; [contradiction|reflexivity].
Qed.

(** X23.  When the block behind the main header, cut to [compressedSize]
    bytes and to the end of the buffer, decodes with [OK] into
    [decompressedSize] bytes and is not empty, [decompressSingle] and the
    cascade return exactly these bytes; the chunks behind the first are not
    looked at. *)
Theorem single_block_reconstruction (f f' : NFlCFile) (n : nat)
    (w : list byte) :
  size (data_ f) < 18446744073709551616 ->
  parseChunks f = (true, f') ->
  LZO1X.decompress
    (slice (data_ f) MAIN_HEADER_SIZE
       (Z.min (read_u32 (data_ f) 0x18) (size (data_ f) - MAIN_HEADER_SIZE)))
    (read_u32 (data_ f) 0x28) = Returned OK n w ->
  w <> [] ->
  NFlC.decompress f' = Value w /\ decompressSingle f' = Value w.
Proof. apply single_block_decodes. Qed.

Lemma le32_value z :
  0 <= z < 4294967296 ->
  u8 (nth 0 (le32 z) x00) + Z.shiftl (u8 (nth 1 (le32 z) x00)) 8
  + Z.shiftl (u8 (nth 2 (le32 z) x00)) 16
  + Z.shiftl (u8 (nth 3 (le32 z) x00)) 24 = z.
Proof.
  intros Hz. unfold le32. cbn [nth].
  pose proof (Z.div_mod z 256 ltac:(lia)) as H0.
  pose proof (Z.mod_pos_bound z 256 ltac:(lia)) as B0.
  pose proof (Z.div_mod (z / 256) 256 ltac:(lia)) as H1.
  pose proof (Z.mod_pos_bound (z / 256) 256 ltac:(lia)) as B1.
  pose proof (Z.div_mod (z / 256 / 256) 256 ltac:(lia)) as H2.
  pose proof (Z.mod_pos_bound (z / 256 / 256) 256 ltac:(lia)) as B2.
  pose proof (Z.div_mod (z / 256 / 256 / 256) 256 ltac:(lia)) as H3.
  pose proof (Z.mod_pos_bound (z / 256 / 256 / 256) 256 ltac:(lia)) as B3.
  rewrite !u8_byte_of by assumption.
  rewrite !Z.shiftl_mul_pow2 by lia.
  change (2 ^ 8) with 256. change (2 ^ 16) with 65536.
  change (2 ^ 24) with 16777216.
  assert (z / 256 / 256 / 256 / 256 = 0).
  { assert (0 <= z / 256 / 256 / 256 / 256) by
      (repeat apply Z.div_pos; lia).
    lia. }
  lia.
Qed.

Lemma main_header_length c d : length (main_header c d) = 64%nat.
Proof. reflexivity. Qed.

Lemma byte_at_header c d rest (k : nat) :
  (k < 64)%nat ->
  byte_at (main_header c d ++ rest) (Z.of_nat k) =
  u8 (nth k (main_header c d) x00).
Proof.
  intros Hk. unfold byte_at. rewrite Nat2Z.id.
  rewrite app_nth1 by (rewrite main_header_length; exact Hk). reflexivity.
Qed.

Lemma main_header_fields c d rest :
  0 <= c < 4294967296 -> 0 <= d < 4294967296 ->
  magic_at (main_header c d ++ rest) 0 = true /\
  read_u32 (main_header c d ++ rest) 0x18 = c /\
  read_u32 (main_header c d ++ rest) 0x28 = d.
Proof.
  intros Hc Hd. unfold magic_at, read_u32.
  change 0 with (Z.of_nat 0) at 1.
  change (0 + 1) with (Z.of_nat 1). change (0 + 2) with (Z.of_nat 2).
  change (0 + 3) with (Z.of_nat 3).
  change 0x18 with (Z.of_nat 24) at 1.
  change (0x18 + 1) with (Z.of_nat 25). change (0x18 + 2) with (Z.of_nat 26).
  change (0x18 + 3) with (Z.of_nat 27).
  change 0x28 with (Z.of_nat 40) at 1.
  change (0x28 + 1) with (Z.of_nat 41). change (0x28 + 2) with (Z.of_nat 42).
  change (0x28 + 3) with (Z.of_nat 43).
  rewrite !byte_at_header by lia.
  split; [reflexivity|]. split.
  - exact (le32_value c Hc).
  - exact (le32_value d Hd).
Qed.

(** X24.  Round trip through the single-block reference container: loading
    it succeeds and the cascade returns the text. *)
Theorem container_round_trip (text : list byte) :
  text <> [] ->
  Z.of_nat (length (encode_stored text)) < 4294967296 ->
  Z.of_nat (length text) < 4294967296 ->
  exists f',
    load (single_block_container text) = (true, f') /\
    NFlC.decompress f' = Value text.
Proof.
  intros Hne Hs32 Ht32.
  set (stream := encode_stored text) in *.
  set (c := Z.of_nat (length stream)). set (d := Z.of_nat (length text)).
  assert (Hdata : single_block_container text = main_header c d ++ stream)
    by reflexivity.
  destruct (main_header_fields c d stream) as (Hmagic & Hc & Hd);
    [unfold c; lia|unfold d; lia|].
  assert (Hsize : size (main_header c d ++ stream) = 64 + c).
  { unfold size. rewrite length_app, main_header_length. unfold c. lia. }
  set (f := unloaded (single_block_container text)).
  assert (Hp : parseChunks f = (true, parsed f)).
  { rewrite parseChunks_closed_form. unfold f. cbn [unloaded data_].
    rewrite Hdata, Hmagic, Hsize.
    destruct (Z.leb_spec MAIN_HEADER_SIZE (64 + c));
      [reflexivity|unfold MAIN_HEADER_SIZE, c in *; lia]. }
  exists (parsed f). split; [exact Hp|].
  apply (single_block_decodes f (parsed f) (length text) text).
  - unfold f. cbn [unloaded data_]. rewrite Hdata, Hsize. unfold c. lia.
  - exact Hp.
  - unfold f. cbn [unloaded data_]. rewrite Hdata, Hc, Hd, Hsize.
    replace (Z.min c (64 + c - MAIN_HEADER_SIZE)) with c
      by (unfold MAIN_HEADER_SIZE; lia).
    assert (Hslice : slice (main_header c d ++ stream) MAIN_HEADER_SIZE c
                     = stream).
    { unfold slice. change (Z.to_nat MAIN_HEADER_SIZE) with 64%nat.
      rewrite skipn_app, main_header_length.
      change (skipn 64 (main_header c d)) with (@nil byte).
      cbn [Nat.sub skipn app]. unfold c. rewrite Nat2Z.id.
      apply firstn_all. }
    rewrite Hslice. apply stored_decodes; unfold d; lia.
  - exact Hne.
Qed.


(** * The chunked strategy, end to end *)

Lemma encode_stored_length text :
  (length text <= length (encode_stored text))%nat.
Proof.
  unfold encode_stored. cbv zeta.
  destruct (Z.of_nat (length text) =? 0) eqn:E.
  - apply Z.eqb_eq in E. lia.
  - destruct (Z.of_nat (length text) <=? 238).
    + cbn [length]. rewrite length_app. lia.
    + cbn [length]. rewrite length_app. cbn [length]. rewrite length_app. lia.
Qed.

Lemma stride_block_length hdr text :
  size hdr + size (encode_stored text) <= CHUNK_SIZE ->
  size (stride_block hdr text) = CHUNK_SIZE.
Proof.
  intros H. unfold stride_block, size in *. cbv zeta.
  rewrite !length_app, repeat_length. unfold CHUNK_SIZE in *. lia.
Qed.

Lemma byte_at_mid pre mid post (j : nat) :
  (j < length mid)%nat ->
  byte_at (pre ++ mid ++ post) (Z.of_nat (length pre) + Z.of_nat j) =
  u8 (nth j mid x00).
Proof.
  intros Hj. unfold byte_at.
  replace (Z.to_nat (Z.of_nat (length pre) + Z.of_nat j))
    with (length pre + j)%nat by lia.
  rewrite app_nth2_plus. now rewrite app_nth1.
Qed.

Lemma slice_mid pre mid post :
  slice (pre ++ mid ++ post) (Z.of_nat (length pre)) (Z.of_nat (length mid))
  = mid.
Proof.
  unfold slice. rewrite !Nat2Z.id.
  rewrite skipn_app, skipn_all, Nat.sub_diag. cbn [skipn app].
  rewrite firstn_app, firstn_all, Nat.sub_diag. cbn [firstn].
  apply app_nil_r.
Qed.

Lemma magic_at_chunk_header pre post :
  magic_at (pre ++ sample_chunk_header ++ post) (Z.of_nat (length pre)) = true.
Proof.
  unfold magic_at, read_u32.
  replace (Z.of_nat (length pre))
    with (Z.of_nat (length pre) + Z.of_nat 0) at 1 by lia.
  change 1 with (Z.of_nat 1). change 2 with (Z.of_nat 2).
  change 3 with (Z.of_nat 3).
  rewrite !byte_at_mid by (cbn; lia). reflexivity.
Qed.

(** A stride of the reference container decodes to its text. *)
Lemma stride_payload_decodes text extra :
  size (encode_stored text) <= CHUNK_SIZE ->
  LZO1X.decompress (encode_stored text ++ extra) (CHUNK_SIZE * 2) =
  Returned OK (length text) text.
Proof.
  intros Hfit. pose proof (encode_stored_length text) as Hlen.
  unfold size, CHUNK_SIZE in *.
  apply (decompress_app_OK
           (encode_stored text) extra (Z.of_nat (length text))).
  - lia.
  - apply stored_decodes; lia.
Qed.

Section Strides.

Variable data : list byte.
Hypothesis Hsize : size data < 18446744073709551616.

(** The strides from number [a] on, each a chunk header followed by its
    stream. *)
Lemma tail_strides : forall ts pre a,
  (1 <= a)%nat ->
  Z.of_nat (length pre) = Z.of_nat a * CHUNK_SIZE ->
  data = pre ++ concat (map (stride_block sample_chunk_header) ts) ->
  Forall (fun t => t <> [] /\
                   CHUNK_HEADER_SIZE + size (encode_stored t) <= CHUNK_SIZE)
         ts ->
  filter (header_at data) (strides a (length ts)) = strides a (length ts) /\
  assemble (CHUNK_SIZE * 2) data
    (fill_sizes (size data) (map (header_info data) (strides a (length ts))))
  = Value (concat ts).
Proof.
  induction ts as [|t ts IH]; intros pre a Ha Hpre Hdata Hall.
  - split; reflexivity.
  - apply Forall_inv in Hall as Ht. apply Forall_inv_tail in Hall as Hts.
    destruct Ht as [Hne Hfit].
    cbn [map concat] in Hdata.
    pose proof (stride_block_length sample_chunk_header t Hfit) as Hbl.
    unfold size in Hbl.
    assert (Hsz : size data =
                  Z.of_nat (S a) * CHUNK_SIZE
                  + Z.of_nat (length
                      (concat (map (stride_block sample_chunk_header) ts)))).
    { unfold size. rewrite Hdata at 1.
      rewrite !length_app, !Nat2Z.inj_add, Hbl, Hpre.
      unfold CHUNK_SIZE in *. lia. }
    destruct (IH (pre ++ stride_block sample_chunk_header t) (S a))
      as [IHf IHa].
    { lia. }
    { rewrite length_app, Nat2Z.inj_add, Hbl, Hpre.
      unfold CHUNK_SIZE in *. lia. }
    { rewrite Hdata. now rewrite <- app_assoc. }
    { assumption. }
    change (strides a (length (t :: ts)))
      with (Z.of_nat a * CHUNK_SIZE :: strides (S a) (length ts)).
    assert (Hhead : header_at data (Z.of_nat a * CHUNK_SIZE) = true).
    { unfold header_at. apply andb_true_iff. split.
      - apply Z.leb_le. rewrite Hsz.
        unfold sizeof_NFlCChunkHeader, CHUNK_SIZE. lia.
      - rewrite <- Hpre. rewrite Hdata. unfold stride_block. cbv zeta.
        rewrite <- !app_assoc. apply magic_at_chunk_header. }
    split.
    { cbn [filter]. rewrite Hhead. now rewrite IHf. }
    cbn [map fill_sizes assemble].
    set (cs := map (header_info data) (strides (S a) (length ts))) in *.
    assert (Hnext : match cs with
                    | c' :: _ => offset c'
                    | [] => size data
                    end = Z.of_nat (S a) * CHUNK_SIZE).
    { unfold cs. destruct ts as [|t' ts']; [|reflexivity].
      cbn [length strides map seq]. rewrite Hsz. cbn [map concat length]. lia. }
    rewrite Hnext.
    assert (Hoff : (Z.of_nat a * CHUNK_SIZE =? 0) = false)
      by (apply Z.eqb_neq; unfold CHUNK_SIZE; lia).
    assert (Hc : chunk_output (CHUNK_SIZE * 2) data
                   (set_dataSize (header_info data (Z.of_nat a * CHUNK_SIZE))
                      (wrap64 (Z.of_nat (S a) * CHUNK_SIZE
                               - dataOffset (header_info data
                                               (Z.of_nat a * CHUNK_SIZE)))))
                 = Value t).
    { unfold chunk_output, payload.
      cbn [set_dataSize header_info dataOffset dataSize]. rewrite Hoff.
      rewrite wrap64_small by (unfold CHUNK_SIZE, CHUNK_HEADER_SIZE; lia).
      assert (Hsl : slice data (Z.of_nat a * CHUNK_SIZE + CHUNK_HEADER_SIZE)
                      (Z.of_nat (S a) * CHUNK_SIZE
                       - (Z.of_nat a * CHUNK_SIZE + CHUNK_HEADER_SIZE))
                    = encode_stored t
                      ++ repeat x00
                           (Z.to_nat (CHUNK_SIZE - size sample_chunk_header
                                      - size (encode_stored t)))).
      { rewrite Hdata. unfold stride_block. cbv zeta.
        rewrite <- Hpre.
        replace (Z.of_nat (length pre) + CHUNK_HEADER_SIZE)
          with (Z.of_nat (length (pre ++ sample_chunk_header)))
          by (rewrite length_app; unfold CHUNK_HEADER_SIZE;
              cbn [length sample_chunk_header app repeat]; lia).
        match goal with
        | |- slice _ _ ?len = ?mid =>
            replace len with (Z.of_nat (length mid))
        end.
        - rewrite <- !app_assoc.
          rewrite (app_assoc pre sample_chunk_header).
          rewrite (app_assoc (encode_stored t)).
          apply slice_mid.
        - rewrite !length_app, repeat_length.
          change (size sample_chunk_header) with 16.
          change (length sample_chunk_header) with 16%nat.
          unfold CHUNK_SIZE, CHUNK_HEADER_SIZE, size in *. lia. }
      rewrite Hsl.
      rewrite stride_payload_decodes
        by (unfold CHUNK_HEADER_SIZE in *; lia).
      destruct (Nat.ltb_spec 0 (length t)) as [_|Hz];
        [now rewrite firstn_all|].
      destruct t; [contradiction|cbn [length] in Hz; lia]. }
    rewrite Hc. rewrite IHa. reflexivity.
Qed.

End Strides.

Lemma blocks_size ts :
  Forall (fun t => t <> [] /\
                   CHUNK_HEADER_SIZE + size (encode_stored t) <= CHUNK_SIZE)
         ts ->
  size (concat (map (stride_block sample_chunk_header) ts)) =
  Z.of_nat (length ts) * CHUNK_SIZE.
Proof.
  induction 1 as [|t ts [_ Hfit] _ IH]; [reflexivity|].
  cbn [map concat length]. unfold size in *.
  rewrite length_app, Nat2Z.inj_add, IH.
  pose proof (stride_block_length sample_chunk_header t Hfit) as Hbl.
  unfold size in Hbl. rewrite Hbl. unfold CHUNK_SIZE. lia.
Qed.

(** X25.  Round trip through the chunked reference container: loading it
    succeeds with one chunk per stride; [decompressSingle] produces nothing,
    the main header declaring no block; and the cascade returns the texts
    of the strides one after the other, the zero bytes that fill each
    stride being ignored. *)
Theorem chunked_round_trip (first : list byte) (others : list (list byte)) :
  first <> [] ->
  MAIN_HEADER_SIZE + size (encode_stored first) <= CHUNK_SIZE ->
  Forall (fun t => t <> [] /\
                   CHUNK_HEADER_SIZE + size (encode_stored t) <= CHUNK_SIZE)
         others ->
  size (chunked_container first others) < 18446744073709551616 ->
  exists f',
    load (chunked_container first others) = (true, f') /\
    length (chunks_ f') = S (length others) /\
    decompressSingle f' = Value [] /\
    NFlC.decompress f' = Value (first ++ concat others).
Proof.
  intros Hne Hfit Hall Hsize.
  set (data := chunked_container first others) in *.
  set (f := unloaded data).
  set (pad := repeat x00 (Z.to_nat (CHUNK_SIZE - size (main_header 0 0)
                                    - size (encode_stored first)))).
  set (tail := concat (map (stride_block sample_chunk_header) others)).
  assert (Hdata : data = main_header 0 0
                         ++ (encode_stored first ++ pad) ++ tail).
  { unfold data, chunked_container, stride_block. cbv zeta.
    now rewrite <- !app_assoc. }
  assert (Hb0 : size (stride_block (main_header 0 0) first) = CHUNK_SIZE).
  { apply stride_block_length. exact Hfit. }
  assert (Hsz : size data = Z.of_nat (S (length others)) * CHUNK_SIZE).
  { unfold data, chunked_container. unfold size in *.
    rewrite length_app, Nat2Z.inj_add, Hb0.
    pose proof (blocks_size others Hall) as Hbs. unfold size in Hbs.
    rewrite Hbs. unfold CHUNK_SIZE. lia. }
  destruct (main_header_fields 0 0 ((encode_stored first ++ pad) ++ tail))
    as (Hmagic & _ & Hd); [lia|lia|].
  rewrite <- Hdata in Hmagic, Hd.
  assert (Hge : MAIN_HEADER_SIZE <= size data).
  { rewrite Hsz. unfold MAIN_HEADER_SIZE, CHUNK_SIZE. lia. }
  assert (Hp : parseChunks f = (true, parsed f)).
  { rewrite parseChunks_closed_form. unfold f. cbn [unloaded data_].
    rewrite Hmagic.
    destruct (Z.leb_spec MAIN_HEADER_SIZE (size data)); [reflexivity|lia]. }
  destruct (tail_strides data others (stride_block (main_header 0 0) first)
              1%nat) as [Hfilter Hasm].
  { lia. }
  { unfold size in Hb0. rewrite Hb0. unfold CHUNK_SIZE. lia. }
  { reflexivity. }
  { assumption. }
  assert (Hstr : stride_offsets (size data) =
                 0 :: strides 1 (length others)).
  { unfold stride_offsets. rewrite Hsz.
    replace (Z.to_nat ((Z.of_nat (S (length others)) * CHUNK_SIZE
                        + CHUNK_SIZE - 1) / CHUNK_SIZE))
      with (S (length others)); [reflexivity|].
    unfold CHUNK_SIZE.
    replace (Z.of_nat (S (length others)) * 32768 + 32768 - 1)
      with (Z.of_nat (S (length others)) * 32768 + 32767) by lia.
    rewrite Z.div_add_l by lia. rewrite (Z.div_small 32767) by lia. lia. }
  assert (Hhead : header_at data 0 = true).
  { unfold header_at. rewrite Hmagic.
    destruct (Z.leb_spec (0 + sizeof_NFlCChunkHeader) (size data));
      [reflexivity|].
    unfold sizeof_NFlCChunkHeader, MAIN_HEADER_SIZE in *. lia. }
  assert (Hcs : chunks_ (parsed f) =
                fill_sizes (size data)
                  (header_info data 0
                   :: map (header_info data) (strides 1 (length others)))).
  { unfold parsed, f. cbn [unloaded data_ chunks_].
    unfold chunk_headers. rewrite Hstr. cbn [filter]. rewrite Hhead.
    rewrite Hfilter. reflexivity. }
  exists (parsed f). split; [exact Hp|].
  split.
  { rewrite Hcs. cbn [fill_sizes length].
    assert (Hl : forall sz cs, length (fill_sizes sz cs) = length cs).
    { intros sz cs. induction cs as [|c cs IH]; cbn [fill_sizes length];
        [reflexivity|now rewrite IH]. }
    rewrite Hl, length_map. unfold strides. now rewrite length_map, length_seq. }
  assert (Hsingle : decompressSingle (parsed f) = Value []).
  { unfold decompressSingle. rewrite Hcs. cbn [fill_sizes].
    unfold parsed, f. cbn [unloaded data_ mainDecompressedSize_].
    rewrite Hd. reflexivity. }
  split; [exact Hsingle|].
  assert (Hchunked : decompressChunked (parsed f) =
                     Value (first ++ concat others)).
  { rewrite decompressChunked_tiled.
    2:{ exact Hsize. }
    2:{ apply parsed_tiled; [exact Hsize|exact Hge]. }
    change (data_ (parsed f)) with data. rewrite Hcs.
    cbn [fill_sizes assemble].
    set (cs := map (header_info data) (strides 1 (length others))) in *.
    assert (Hnext : match cs with
                    | c' :: _ => offset c'
                    | [] => size data
                    end = CHUNK_SIZE).
    { unfold cs. destruct others as [|t' ts']; [|reflexivity].
      cbn [length strides map seq]. rewrite Hsz. cbn [length].
      unfold CHUNK_SIZE. lia. }
    rewrite Hnext.
    assert (Hc : chunk_output (CHUNK_SIZE * 2) data
                   (set_dataSize (header_info data 0)
                      (wrap64 (CHUNK_SIZE
                               - dataOffset (header_info data 0))))
                 = Value first).
    { unfold chunk_output, payload.
      cbn [set_dataSize header_info dataOffset dataSize Z.eqb].
      rewrite wrap64_small by (unfold CHUNK_SIZE, MAIN_HEADER_SIZE; lia).
      assert (Hsl : slice data MAIN_HEADER_SIZE
                      (CHUNK_SIZE - MAIN_HEADER_SIZE)
                    = encode_stored first ++ pad).
      { rewrite Hdata.
        change MAIN_HEADER_SIZE with (Z.of_nat (length (main_header 0 0))).
        match goal with
        | |- slice _ _ ?len = ?mid =>
            replace len with (Z.of_nat (length mid))
        end.
        - apply slice_mid.
        - unfold pad. rewrite length_app, repeat_length.
          change (size (main_header 0 0)) with 64.
          change (length (main_header 0 0)) with 64%nat.
          unfold CHUNK_SIZE, MAIN_HEADER_SIZE, size in *. lia. }
      rewrite Hsl.
      rewrite stride_payload_decodes
        by (unfold MAIN_HEADER_SIZE in *; lia).
      destruct (Nat.ltb_spec 0 (length first)) as [_|Hz];
        [now rewrite firstn_all|].
      destruct first; [contradiction|cbn [length] in Hz; lia]. }
    rewrite Hc, Hasm. reflexivity. }
  unfold NFlC.decompress. rewrite Hsingle. cbn [is_empty negb].
  rewrite Hchunked.
  destruct first; [contradiction|reflexivity].
Qed.

(** * Instances of the container properties *)

Lemma three_chunks_parse :
  parseChunks (unloaded three_chunk_container) =
  (true, parsed (unloaded three_chunk_container)).
Proof.
  rewrite parseChunks_closed_form.
  assert (Hc : (MAIN_HEADER_SIZE <=?
                  size (data_ (unloaded three_chunk_container)))
               && magic_at (data_ (unloaded three_chunk_container)) 0 = true)
    by (vm_compute; reflexivity).
  rewrite Hc. reflexivity.
Defined.

Lemma three_chunks_size :
  size (data_ (unloaded three_chunk_container)) < 18446744073709551616.
Proof. vm_compute. reflexivity. Defined.

Example three_chunks_table :
  map (fun c => (offset c, dataOffset c, dataSize c))
      (chunks_ (parsed (unloaded three_chunk_container))) =
  [(0, 64, 32704); (32768, 32784, 32752); (65536, 65552, 11)].
Proof. vm_compute. reflexivity. Qed.

Lemma parseChunks_fields_witness :
  let f := unloaded three_chunk_container in
  let f' := parsed f in
  parseChunks f = (true, f') /\
  ((mainCompressedSize_ f' = read_u32 (data_ f) 0x18 /\
    mainDecompressedSize_ f' = read_u32 (data_ f) 0x28 /\
    mainFlags1_ f' = read_u32 (data_ f) 0x08 /\
    mainFlags2_ f' = read_u32 (data_ f) 0x0C) /\
   (0 <= mainCompressedSize_ f' < 4294967296 /\
    0 <= mainDecompressedSize_ f' < 4294967296) /\
   Forall (fun c =>
             version c = read_u32 (data_ f) (offset c + 4) /\
             chunkIndex c = Z.land (Z.shiftr (version c) 8) 0xFFFF /\
             0 <= chunkIndex c < 65536)
          (chunks_ f')).
Proof.
  cbv zeta. split; [exact three_chunks_parse|].
  apply (parseChunks_fields (unloaded three_chunk_container)
           (parsed (unloaded three_chunk_container)) three_chunks_parse).
Defined.

Lemma parseChunks_table_witness :
  let f := unloaded three_chunk_container in
  let f' := parsed f in
  parseChunks f = (true, f') /\
  (map offset (chunks_ f') = chunk_headers (data_ f) /\
   (forall off, In off (map offset (chunks_ f')) <->
      (exists k, 0 <= k /\ off = k * CHUNK_SIZE) /\
      off + sizeof_NFlCChunkHeader <= size (data_ f) /\
      magic_at (data_ f) off = true) /\
   StronglySorted Z.lt (map offset (chunks_ f'))).
Proof.
  cbv zeta. split; [exact three_chunks_parse|].
  apply (parseChunks_table (unloaded three_chunk_container)
           (parsed (unloaded three_chunk_container)) three_chunks_parse).
Defined.

Lemma parseChunks_tiles_witness :
  let f := unloaded three_chunk_container in
  let f' := parsed f in
  size (data_ f) < 18446744073709551616 /\
  parseChunks f = (true, f') /\
  tiled (size (data_ f)) (chunks_ f').
Proof.
  cbv zeta. split; [exact three_chunks_size|].
  split; [exact three_chunks_parse|].
  apply (parseChunks_tiles (unloaded three_chunk_container)
           (parsed (unloaded three_chunk_container))
           three_chunks_size three_chunks_parse).
Defined.

Lemma extractRaw_parsed_witness :
  let f := unloaded three_chunk_container in
  let f' := parsed f in
  size (data_ f) < 18446744073709551616 /\
  parseChunks f = (true, f') /\
  (extractRaw f' = concat (map (payload (data_ f)) (chunks_ f')) /\
   Z.of_nat (length (extractRaw f')) =
   size (data_ f) - MAIN_HEADER_SIZE
   - CHUNK_HEADER_SIZE * (Z.of_nat (length (chunks_ f')) - 1)).
Proof.
  cbv zeta. split; [exact three_chunks_size|].
  split; [exact three_chunks_parse|].
  apply (extractRaw_parsed (unloaded three_chunk_container)
           (parsed (unloaded three_chunk_container))
           three_chunks_size three_chunks_parse).
Defined.




Lemma parse_two_strides_witness :
  let f := unloaded two_chunk_container in
  size (data_ f) = 65536 /\
  magic_at (data_ f) 0 = true /\ magic_at (data_ f) 32768 = true /\
  (fst (parseChunks f) = true /\
   map (fun c => (offset c, dataOffset c, dataSize c))
       (chunks_ (snd (parseChunks f))) =
   [(0, 64, 32704); (32768, 32784, 32752)]).
Proof.
  cbv zeta.
  split; [vm_compute; reflexivity|]. split; [vm_compute; reflexivity|].
  split; [vm_compute; reflexivity|].
  apply (parse_two_strides (unloaded two_chunk_container));
    vm_compute; reflexivity.
Defined.

Lemma single_block_reconstruction_witness :
  let f := unloaded small_container in
  size (data_ f) < 18446744073709551616 /\
  parseChunks f = (true, parsed f) /\
  LZO1X.decompress
    (slice (data_ f) MAIN_HEADER_SIZE
       (Z.min (read_u32 (data_ f) 0x18) (size (data_ f) - MAIN_HEADER_SIZE)))
    (read_u32 (data_ f) 0x28) = Returned OK 15 literal_text /\
  literal_text <> [] /\
  (NFlC.decompress (parsed f) = Value literal_text /\
   decompressSingle (parsed f) = Value literal_text).
Proof.
  cbv zeta.
  split; [vm_compute; reflexivity|]. split; [vm_compute; reflexivity|].
  split; [vm_compute; reflexivity|]. split; [discriminate|].
  apply (single_block_reconstruction (unloaded small_container)
           (parsed (unloaded small_container)) 15 literal_text);
    [vm_compute; reflexivity|vm_compute; reflexivity|vm_compute; reflexivity
    |discriminate].
Defined.

Lemma container_round_trip_witness :
  literal_text <> [] /\
  Z.of_nat (length (encode_stored literal_text)) < 4294967296 /\
  Z.of_nat (length literal_text) < 4294967296 /\
  exists f',
    load (single_block_container literal_text) = (true, f') /\
    NFlC.decompress f' = Value literal_text.
Proof.
  split; [discriminate|]. split; [vm_compute; reflexivity|].
  split; [vm_compute; reflexivity|].
  apply (container_round_trip literal_text);
    [discriminate|vm_compute; reflexivity|vm_compute; reflexivity].
Defined.

Lemma chunked_round_trip_witness :
  let first := literal_text in
  let others := [[x58; x59]] in
  first <> [] /\
  MAIN_HEADER_SIZE + size (encode_stored first) <= CHUNK_SIZE /\
  Forall (fun t => t <> [] /\
                   CHUNK_HEADER_SIZE + size (encode_stored t) <= CHUNK_SIZE)
         others /\
  size (chunked_container first others) < 18446744073709551616 /\
  exists f',
    load (chunked_container first others) = (true, f') /\
    length (chunks_ f') = S (length others) /\
    decompressSingle f' = Value [] /\
    NFlC.decompress f' = Value (first ++ concat others).
Proof.
  cbv zeta.
  assert (H1 : MAIN_HEADER_SIZE + size (encode_stored literal_text)
               <= CHUNK_SIZE) by (vm_compute; discriminate).
  assert (H2 : Forall (fun t => t <> [] /\
                         CHUNK_HEADER_SIZE + size (encode_stored t)
                         <= CHUNK_SIZE) [[x58; x59]]).
  { constructor; [|constructor].
    split; [discriminate|vm_compute; discriminate]. }
  assert (H3 : size (chunked_container literal_text [[x58; x59]])
               < 18446744073709551616) by (vm_compute; reflexivity).
  split; [discriminate|]. split; [exact H1|]. split; [exact H2|].
  split; [exact H3|].
  apply (chunked_round_trip literal_text [[x58; x59]]
           ltac:(discriminate) H1 H2 H3).
Defined.
